(** * go-mysql: GTID set algebra, binlog event decoding and pool limits

    A shallow embedding of the parts of the repository that carry the
    interval/GTID algebra ([mysql] package), the format-description,
    tagged-GTID and JSON-diff decoders ([replication] package) and the
    limit clamping of the connection pool ([client] package). *)

From Stdlib Require Import ZArith Lia List Bool Ascii String Permutation.
From Stdlib.Strings Require Import Byte.
From stdpp Require Import gmap strings list fin_maps.

Import ListNotations.
Local Open Scope Z_scope.

Abbreviation byte := Byte.byte.

(** ** Machine integers

    Go's [int64], [uint64], [int] (64 bit) are modelled as [Z]; where the
    source can wrap, the wrap-around is written out. *)

Module Int.

Definition MaxInt64 : Z := 9223372036854775807.
Definition MinInt64 : Z := -9223372036854775808.
Definition MaxUint32 : Z := 4294967295.

Definition is_int64 (z : Z) : Prop := MinInt64 <= z <= MaxInt64.
Definition is_int64b (z : Z) : bool := (MinInt64 <=? z) && (z <=? MaxInt64).

(** conversion [uint64(x)] *)
Definition to_uint64 (z : Z) : Z := z mod 2 ^ 64.

(** conversion [int64(x)] and the result of signed 64-bit arithmetic *)
Definition to_int64 (z : Z) : Z := (z + 2 ^ 63) mod 2 ^ 64 - 2 ^ 63.

End Int.

(** ** Go standard library: the functions the repository calls

    [strings.Split], [strings.TrimSpace], [strconv.ParseInt] and
    [fmt.Sprintf("%d")] are modelled after the Go standard library; a Go
    [string] is a sequence of bytes, here a [string] of 8-bit [ascii]. *)

Module gostrings.

Definition byte_val (c : ascii) : Z := Z.of_N (N_of_ascii c).

Fixpoint has_byte (c : ascii) (s : string) : bool :=
  match s with
  | EmptyString => false
  | String d s' => Ascii.eqb d c || has_byte c s'
  end.

(** [strings.Split(s, sep)] for a separator of one byte: [s] cut at
    every occurrence of [sep]; a string without [sep] (also the empty
    string) yields the one-element slice [[s]]. *)
Fixpoint Split (s : string) (sep : ascii) : list string :=
  match s with
  | EmptyString => [EmptyString]
  | String c s' =>
      if Ascii.eqb c sep then EmptyString :: Split s' sep
      else
        match Split s' sep with
        | [] => [String c EmptyString]
        | h :: t => String c h :: t
        end
  end.

(** The loop [sep := ""; for ... { WriteString(sep); WriteString(x); sep = "," }]
    used by the printers, which is [strings.Join]. *)
Fixpoint Join (l : list string) (sep : string) : string :=
  match l with
  | [] => EmptyString
  | [x] => x
  | x :: l' => (x ++ sep ++ Join l' sep)%string
  end.

Fixpoint all_bytes (P : ascii -> bool) (s : string) : bool :=
  match s with
  | EmptyString => true
  | String c s' => P c && all_bytes P s'
  end.

(** The table [asciiSpace] of package strings. *)
Definition asciiSpace (c : ascii) : bool :=
  let n := byte_val c in
  (n =? 9) || (n =? 10) || (n =? 11) || (n =? 12) || (n =? 13) || (n =? 32).

(** [utf8.RuneSelf]: bytes from 0x80 on start a multi-byte rune. *)
Definition RuneSelf : Z := 128.

(** Last byte of a non-empty string and the string without it. *)
Fixpoint last_byte (c : ascii) (s : string) : ascii :=
  match s with
  | EmptyString => c
  | String d s' => last_byte d s'
  end.

Fixpoint but_last (c : ascii) (s : string) : string :=
  match s with
  | EmptyString => EmptyString
  | String d s' => String c (but_last d s')
  end.

(** the last byte of a non-empty string satisfies [P] *)
Definition last_ok (P : ascii -> bool) (s : string) : bool :=
  match s with
  | EmptyString => false
  | String c s' => P (last_byte c s')
  end.

Section TrimSpace.

(** The Unicode-aware slow paths [TrimFunc(s, unicode.IsSpace)] and
    [TrimRightFunc(s, unicode.IsSpace)], taken when a byte >= 0x80 is
    met; their UTF-8 decoding and tables are left as parameters. *)
Variable TrimFunc_IsSpace : string -> string.
Variable TrimRightFunc_IsSpace : string -> string.

(** second loop of [TrimSpace]: [stop] moves down from the end *)
Fixpoint TrimSpace_right (fuel : nat) (s : string) : string :=
  match fuel with
  | O => s
  | S fuel' =>
      match s with
      | EmptyString => EmptyString
      | String c s' =>
          let l := last_byte c s' in
          if byte_val l >=? RuneSelf then TrimRightFunc_IsSpace s
          else if asciiSpace l then TrimSpace_right fuel' (but_last c s')
          else s
      end
  end.

(** first loop of [TrimSpace]: [start] moves up from the beginning *)
Fixpoint TrimSpace (s : string) : string :=
  match s with
  | EmptyString => EmptyString
  | String c s' =>
      if byte_val c >=? RuneSelf then TrimFunc_IsSpace s
      else if asciiSpace c then TrimSpace s'
      else TrimSpace_right (String.length s) s
  end.

End TrimSpace.

End gostrings.

Module gosort.

Section Sort.

Context {A : Type} (less : A -> A -> bool).

(** [sort.Sort] (and [sort.Strings]) rearrange a slice so that no
    element is [less] than one before it.  When two elements that are
    not [less] than each other are equal, that arrangement is unique
    (see [Sort_unique]); it is computed here by insertion. *)
Fixpoint insert (x : A) (l : list A) : list A :=
  match l with
  | [] => [x]
  | y :: l' => if less y x then y :: insert x l' else x :: y :: l'
  end.

Fixpoint Sort (s : list A) : list A :=
  match s with
  | [] => []
  | x :: s' => insert x (Sort s')
  end.

(** consecutive elements are never out of order *)
Fixpoint sorted (s : list A) : Prop :=
  match s with
  | a :: (b :: _) as t => less b a = false /\ sorted t
  | _ => True
  end.

End Sort.

End gosort.

Module strconv.

Import gostrings.
Inductive NumError : Type := ErrSyntax | ErrRange.

Definition MaxUint64 : Z := 18446744073709551615.

Definition is_digit (c : ascii) : bool :=
  (48 <=? byte_val c) && (byte_val c <=? 57).

(** The digit loop of [ParseUint(s, 10, 64)], with [n] the value read
    so far: [inl e] for an error, [inr n] for the value. *)
Fixpoint ParseUint_loop (s : string) (n : Z) : NumError + Z :=
  match s with
  | EmptyString => inr n
  | String c s' =>
      if is_digit c then
        let d := byte_val c - 48 in
        if n >=? MaxUint64 / 10 + 1 then inl ErrRange
        else
          let n1 := n * 10 + d in
          if n1 >? MaxUint64 then inl ErrRange else ParseUint_loop s' n1
      else inl ErrSyntax
  end.

(** [ParseUint(s, 10, 64)]: the value ([maxVal] on a range error, 0 on a
    syntax error) and the error. *)
Definition ParseUint (s : string) : Z * option NumError :=
  match s with
  | EmptyString => (0, Some ErrSyntax)
  | _ =>
      match ParseUint_loop s 0 with
      | inr n => (n, None)
      | inl ErrRange => (MaxUint64, Some ErrRange)
      | inl ErrSyntax => (0, Some ErrSyntax)
      end
  end.

(** [ParseInt(s, 10, 64)]. *)
Definition ParseInt (s : string) : Z * option NumError :=
  match s with
  | EmptyString => (0, Some ErrSyntax)
  | String c s' =>
      let neg := Ascii.eqb c "-"%char in
      let digits := if Ascii.eqb c "+"%char || neg then s' else s in
      let '(un, err) := ParseUint digits in
      match err with
      | Some ErrSyntax => (0, err)
      | _ =>
          let cutoff := 2 ^ 63 in
          if negb neg && (un >=? cutoff) then (cutoff - 1, Some ErrRange)
          else if neg && (un >? cutoff) then (- cutoff, Some ErrRange)
          else
            let n := Int.to_int64 un in
            (if neg then Int.to_int64 (- n) else n, None)
      end
  end.

(** [Atoi(s)] with a 64-bit [int]: its fast path for short strings
    computes what [ParseInt(s, 10, 0)] computes. *)
Definition Atoi (s : string) : Z * option NumError := ParseInt s.

Definition digit_char (d : Z) : ascii := ascii_of_N (Z.to_N (48 + d)).

(** Decimal digits of a number [n >= 0], least significant first onto
    [acc]; [fuel] above [log2 n] is enough. *)
Fixpoint digits_onto (fuel : nat) (n : Z) (acc : string) : string :=
  match fuel with
  | O => acc
  | S fuel' =>
      let acc' := String (digit_char (n mod 10)) acc in
      if n <? 10 then acc' else digits_onto fuel' (n / 10) acc'
  end.

Definition FormatUint (n : Z) : string :=
  digits_onto (S (Z.to_nat (Z.log2 n))) n EmptyString.

(** [fmt.Sprintf("%d", z)], which is [FormatInt(z, 10)]. *)
Definition FormatInt (z : Z) : string :=
  if z <? 0 then String "-"%char (FormatUint (- z)) else FormatUint z.

End strconv.

(** ** Outcomes, bytes, and the packages encoding/binary and google/uuid *)

Module go.

(** What a call can do: return a value, return an error, or panic. *)
Inductive result (A : Type) : Type :=
  | Ok (a : A)
  | Err
  | Panic.
Arguments Ok {A} a.
Arguments Err {A}.
Arguments Panic {A}.

Definition byte_Z (b : byte) : Z := Z.of_N (Byte.to_N b).

(** conversion [byte(z)] *)
Definition Z_byte (z : Z) : byte :=
  match Byte.of_N (Z.to_N (z mod 256)) with
  | Some b => b
  | None => Byte.x00
  end.

End go.

Module binary.

Import go.

(** [n] bytes of [v], least significant first. *)
Fixpoint le_bytes (n : nat) (v : Z) : list byte :=
  match n with
  | O => []
  | S n' => Z_byte (v mod 256) :: le_bytes n' (v / 256)
  end.

Fixpoint le_value (bs : list byte) : Z :=
  match bs with
  | [] => 0
  | b :: bs' => byte_Z b + 256 * le_value bs'
  end.

(** [binary.Write(w, binary.LittleEndian, x)] for [x] an [int64] or a
    [uint64]: the eight bytes of [uint64(x)]. *)
Definition Write64 (x : Z) : list byte := le_bytes 8 (Int.to_uint64 x).

(** [binary.LittleEndian.Uint64(b)]; it panics when [len(b) < 8]. *)
Definition Uint64 (b : list byte) : result Z :=
  if (length b <? 8)%nat then Panic else Ok (le_value (firstn 8 b)).

(** [binary.LittleEndian.Uint32(b)] and [Uint16(b)]; they panic when
    the slice is shorter than the number. *)
Definition Uint32 (b : list byte) : result Z :=
  if (length b <? 4)%nat then Panic else Ok (le_value (firstn 4 b)).

Definition Uint16 (b : list byte) : result Z :=
  if (length b <? 2)%nat then Panic else Ok (le_value (firstn 2 b)).

End binary.

Module uuid.

Import go gostrings.

(** [type UUID [16]byte] *)
Definition UUID : Type := list byte.

Definition hextable : string := "0123456789abcdef".

Definition byte_at (s : string) (i : nat) : ascii :=
  match String.get i s with
  | Some c => c
  | None => Ascii.zero
  end.

Definition hex_hi (b : byte) : ascii := byte_at hextable (Z.to_nat (byte_Z b / 16)).
Definition hex_lo (b : byte) : ascii := byte_at hextable (Z.to_nat (byte_Z b mod 16)).

(** [hex.Encode] *)
Fixpoint hex_Encode (src : list byte) : string :=
  match src with
  | [] => EmptyString
  | b :: src' => String (hex_hi b) (String (hex_lo b) (hex_Encode src'))
  end.

(** [UUID.String]: xxxxxxxx-xxxx-xxxx-xxxx-xxxxxxxxxxxx *)
Definition UUID_String (u : UUID) : string :=
  (hex_Encode (firstn 4 u) ++ "-"
   ++ hex_Encode (firstn 2 (skipn 4 u)) ++ "-"
   ++ hex_Encode (firstn 2 (skipn 6 u)) ++ "-"
   ++ hex_Encode (firstn 2 (skipn 8 u)) ++ "-"
   ++ hex_Encode (skipn 10 u))%string.

(** the table [xvalues]: value of a hexadecimal digit, 255 otherwise *)
Definition xvalues (c : ascii) : Z :=
  let n := byte_val c in
  if (48 <=? n) && (n <=? 57) then n - 48
  else if (97 <=? n) && (n <=? 102) then n - 87
  else if (65 <=? n) && (n <=? 70) then n - 55
  else 255.

(** [xtob]: the byte of two hexadecimal digits *)
Definition xtob (x1 x2 : ascii) : byte * bool :=
  let b1 := xvalues x1 in
  let b2 := xvalues x2 in
  (Z_byte (Z.lor ((b1 * 16) mod 256) b2),
   negb (b1 =? 255) && negb (b2 =? 255)).

Fixpoint decode_pairs (s : string) (xs : list nat) : option (list byte) :=
  match xs with
  | [] => Some []
  | x :: xs' =>
      let '(v, ok) := xtob (byte_at s x) (byte_at s (S x)) in
      if ok then option_map (cons v) (decode_pairs s xs') else None
  end.

Definition is_dash (c : ascii) : bool := Ascii.eqb c "-".

Definition parse_dashed (s : string) : option UUID :=
  if negb (is_dash (byte_at s 8)) || negb (is_dash (byte_at s 13))
     || negb (is_dash (byte_at s 18)) || negb (is_dash (byte_at s 23))
  then None
  else decode_pairs s
         [0; 2; 4; 6; 9; 11; 14; 16; 19; 21; 24; 26; 28; 30; 32; 34]%nat.

Definition ascii_lower (c : ascii) : ascii :=
  let n := byte_val c in
  if (65 <=? n) && (n <=? 90) then ascii_of_N (Z.to_N (n + 32)) else c.

Fixpoint lower_ascii (s : string) : string :=
  match s with
  | EmptyString => EmptyString
  | String c s' => String (ascii_lower c) (lower_ascii s')
  end.

(** [uuid.Parse]; [strings.EqualFold] against the ASCII prefix
    ["urn:uuid:"] compares without regard to ASCII case. *)
Definition Parse (s : string) : option UUID :=
  let n := String.length s in
  if (n =? 36)%nat then parse_dashed s
  else if (n =? 36 + 9)%nat then
    if String.eqb (lower_ascii (substring 0 9 s)) "urn:uuid:"
    then parse_dashed (substring 9 36 s) else None
  else if (n =? 36 + 2)%nat then parse_dashed (substring 1 37 s)
  else if (n =? 32)%nat then
    decode_pairs s
      [0; 2; 4; 6; 8; 10; 12; 14; 16; 18; 20; 22; 24; 26; 28; 30]%nat
  else None.

(** lower-case hexadecimal digit *)
Definition is_hex (c : ascii) : bool :=
  let n := byte_val c in
  ((48 <=? n) && (n <=? 57)) || ((97 <=? n) && (n <=? 102)).

Definition is_hex_or_dash (c : ascii) : bool := is_hex c || is_dash c.

(** [uuid.FromBytes] *)
Definition FromBytes (b : list byte) : option UUID :=
  if (length b =? 16)%nat then Some b else None.

End uuid.

(** ** Package mysql: intervals and GTID sets *)

Module mysql.

Import Int.

(** [type Interval struct { Start int64; Stop int64 }], the half-open
    range [Start, Stop). *)
Record Interval : Type := mkInterval { Start : Z; Stop : Z }.

#[global] Instance Interval_eq_dec : EqDecision Interval.
Proof. solve_decision. Defined.

Definition IntervalSlice : Type := list Interval.

(** [IntervalSlice.Less], on two elements. *)
Definition Less (a b : Interval) : bool :=
  if Start a <? Start b then true
  else if Start a >? Start b then false
  else Stop a <? Stop b.

(** [IntervalSlice.Sort]: [sort.Sort] under [Less]. *)
Definition Sort (s : IntervalSlice) : IntervalSlice := gosort.Sort Less s.

(** [n[len(n)-1]] and the assignment to it. *)
Definition last_of (n : IntervalSlice) : Interval :=
  List.last n (mkInterval 0 0).

Definition set_last (n : IntervalSlice) (x : Interval) : IntervalSlice :=
  removelast n ++ [x].

(** The [for i := 1; i < len(s); i++] loop of [Normalize]; [s] is the
    part of the sorted slice not yet visited. *)
Fixpoint Normalize_loop (n s : IntervalSlice) : IntervalSlice :=
  match s with
  | [] => n
  | si :: s' =>
      let last := last_of n in
      if Start si >? Stop last then Normalize_loop (n ++ [si]) s'
      else
        let stop := if Stop last >? Stop si then Stop last else Stop si in
        Normalize_loop (set_last n (mkInterval (Start last) stop)) s'
  end.

(** [IntervalSlice.Normalize]. *)
Definition Normalize (s : IntervalSlice) : IntervalSlice :=
  match s with
  | [] => []
  | _ :: _ =>
      match Sort s with
      | [] => []
      | s0 :: rest => Normalize_loop [s0] rest
      end
  end.

(** The set of points of a slice. *)
Definition contains_point (i : Interval) (p : Z) : bool :=
  (Start i <=? p) && (p <? Stop i).

Definition covers (s : IntervalSlice) (p : Z) : bool :=
  existsb (fun i => contains_point i p) s.

(** Shape of a normalized slice: starts ascend, and every interval ends
    strictly before the next one begins (disjoint and not touching). *)
Fixpoint start_sorted (s : IntervalSlice) : Prop :=
  match s with
  | a :: (b :: _) as t => Start a <= Start b /\ start_sorted t
  | _ => True
  end.

Fixpoint separated (s : IntervalSlice) : Prop :=
  match s with
  | a :: (b :: _) as t => Stop a < Start b /\ separated t
  | _ => True
  end.

Definition pairwise_disjoint (s : IntervalSlice) : Prop :=
  forall (i j : nat) (a b : Interval) (p : Z),
    i <> j -> nth_error s i = Some a -> nth_error s j = Some b ->
    ~ (contains_point a p = true /\ contains_point b p = true).

(** [Normalize_loop] keeps the last element of [n] as a running interval;
    [merge_from last s] is the same loop with that element held apart
    (see [Normalize_loop_app]). *)
Fixpoint merge_from (last : Interval) (s : IntervalSlice) : IntervalSlice :=
  match s with
  | [] => [last]
  | si :: s' =>
      if Start si >? Stop last then last :: merge_from si s'
      else
        let stop := if Stop last >? Stop si then Stop last else Stop si in
        merge_from (mkInterval (Start last) stop) s'
  end.

(** Order induced by [Less]. *)
Definition Less_sorted (s : IntervalSlice) : Prop := gosort.sorted Less s.

(** Interval invariant of the data model ([Stop > Start]) and the
    range of the [int64] fields, for every element of a slice. *)
Definition valid (s : IntervalSlice) : Prop :=
  Forall (fun i => Start i < Stop i) s.

Definition int64_slice (s : IntervalSlice) : Prop :=
  Forall (fun i => is_int64 (Start i) /\ is_int64 (Stop i)) s.

Definition normalized (s : IntervalSlice) : Prop :=
  start_sorted s /\ separated s /\ pairwise_disjoint s.

(** [IntervalSlice.Contain].  The cursor [j] into [s] never moves back;
    it is carried as the part of [s] from [j] on.  [Contain_skip] is the
    inner [for ; j < len(s); j++] loop. *)
Fixpoint Contain_skip (start : Z) (s : IntervalSlice) : IntervalSlice :=
  match s with
  | [] => []
  | sj :: s' => if start >? Stop sj then Contain_skip start s' else s
  end.

Fixpoint Contain (s sub : IntervalSlice) : bool :=
  match sub with
  | [] => true
  | si :: sub' =>
      match Contain_skip (Start si) s with
      | [] => false
      | (sj :: _) as s' =>
          if (Start si <? Start sj) || (Stop si >? Stop sj) then false
          else Contain s' sub'
      end
  end.

(** Outcome of a loop that is run with fuel and that can panic. *)
Inductive run (A : Type) : Type :=
  | Returns (a : A)
  | Panics
  | NoFuel.
Arguments Returns {A} a.
Arguments Panics {A}.
Arguments NoFuel {A}.

(** [if minuend.Stop != s.Intervals[i].Stop { minuend = s.Intervals[i] }] *)
Definition reload (minuend s_i : Interval) : Interval :=
  if negb (Stop minuend =? Stop s_i) then s_i else minuend.

(** The loop of [UUIDSet.MinusInterval].  [si] and [sj] are the parts of
    [s.Intervals] and of [in] from the cursors [i] and [j] on; [j++] past
    the end of [in] leaves [j >= len(in)], the empty rest. *)
Fixpoint MinusInterval_loop (fuel : nat) (minuend : Interval)
    (si sj n : IntervalSlice) : run IntervalSlice :=
  match fuel with
  | O => NoFuel
  | S fuel' =>
      match si with
      | [] => Returns n
      | s_i :: si' =>
          let minuend := reload minuend s_i in
          let subtrahend :=
            match sj with
            | in_j :: _ => in_j
            | [] => mkInterval MaxInt64 MaxInt64
            end in
          if Stop minuend <=? Start subtrahend then
            MinusInterval_loop fuel' minuend si' sj (n ++ [minuend])
          else if Start minuend >=? Stop subtrahend then
            MinusInterval_loop fuel' minuend si (tl sj) n
          else if (Start minuend <? Start subtrahend)
                  && (Stop minuend <=? Stop subtrahend) then
            MinusInterval_loop fuel' minuend si' sj
              (n ++ [mkInterval (Start minuend) (Start subtrahend)])
          else if (Start minuend >=? Start subtrahend)
                  && (Stop minuend >? Stop subtrahend) then
            MinusInterval_loop fuel'
              (mkInterval (Stop subtrahend) (Stop minuend)) si (tl sj) n
          else if (Start minuend >=? Start subtrahend)
                  && (Stop minuend <=? Stop subtrahend) then
            MinusInterval_loop fuel' minuend si' sj n
          else if (Start minuend <? Start subtrahend)
                  && (Stop minuend >? Stop subtrahend) then
            MinusInterval_loop fuel'
              (mkInterval (Stop subtrahend) (Stop minuend)) si (tl sj)
              (n ++ [mkInterval (Start minuend) (Start subtrahend)])
          else Panics
      end
  end.

(** [UUIDSet.MinusInterval] on the interval list of the receiver: the
    new value of [s.Intervals].  Every turn of the loop advances [i] or
    [j], and [j] only while [j < len(in)]; the fuel covers that many
    turns (see [MinusInterval_returns]). *)
Definition MinusInterval (s in_ : IntervalSlice) : run IntervalSlice :=
  let in_ := Normalize in_ in
  match
    MinusInterval_loop (S (length s + length in_)) (mkInterval 0 0) s in_ []
  with
  | Returns n => Returns (Normalize n)
  | Panics => Panics
  | NoFuel => NoFuel
  end.

(** A piece [x] lies inside one interval of [s] (ends included). *)
Definition within (s : IntervalSlice) (x : Interval) : Prop :=
  exists h, In h s /\ Start h <= Start x /\ Start x <= Stop x /\
            Stop x <= Stop h.

(** Loop invariant of [MinusInterval]: a minuend that is not reloaded
    from [s.Intervals[i]] is what is left of that interval. *)
Definition head_inv (m : Interval) (si : IntervalSlice) : Prop :=
  match si with
  | h :: _ => Stop m = Stop h -> Start h <= Start m <= Stop m
  | [] => True
  end.

Definition apart (x b : Interval) : Prop :=
  Stop x <= Start b \/ Stop b <= Start x.

(** [parseInterval]: [None] stands for a returned error. *)
Definition parseInterval (str : string) : option Interval :=
  let p := gostrings.Split str "-"%char in
  let finish (start stop : Z) (err : option strconv.NumError) :=
    match err with
    | Some _ => None
    | None =>
        if stop <=? start then None else Some (mkInterval start stop)
    end in
  match p with
  | [p0] =>
      let '(start, err) := strconv.ParseInt p0 in
      finish start (to_int64 (start + 1)) err
  | [p0; p1] =>
      let '(start, err) := strconv.ParseInt p0 in
      match err with
      | None =>
          let '(stop, err) := strconv.ParseInt p1 in
          finish start (to_int64 (stop + 1)) err
      | Some _ => None
      end
  | _ => None
  end.

(** [Interval.String]. *)
Definition Interval_String (i : Interval) : string :=
  if Stop i =? to_int64 (Start i + 1) then strconv.FormatInt (Start i)
  else (strconv.FormatInt (Start i) ++ "-"
        ++ strconv.FormatInt (to_int64 (Stop i - 1)))%string.

(** [type UUIDSet struct { SID uuid.UUID; Intervals IntervalSlice }] *)
Record UUIDSet : Type := mkUUIDSet {
  SID : uuid.UUID;
  Intervals : IntervalSlice
}.

(** [UUIDSet.Bytes] / [UUIDSet.String] *)
Fixpoint Intervals_String (l : IntervalSlice) : string :=
  match l with
  | [] => EmptyString
  | i :: l' => (":" ++ Interval_String i ++ Intervals_String l')%string
  end.

Definition UUIDSet_String (s : UUIDSet) : string :=
  (uuid.UUID_String (SID s) ++ Intervals_String (Intervals s))%string.

(** [UUIDSet.AddInterval]: the new interval list *)
Definition AddInterval (s : UUIDSet) (in_ : IntervalSlice) : UUIDSet :=
  {| SID := SID s; Intervals := Normalize (Intervals s ++ in_) |}.

(** [UUIDSet.encode] *)
Fixpoint encode_intervals (l : IntervalSlice) : list byte :=
  match l with
  | [] => []
  | i :: l' =>
      binary.Write64 (Start i) ++ binary.Write64 (Stop i)
      ++ encode_intervals l'
  end.

Definition UUIDSet_encode (s : UUIDSet) : list byte :=
  SID s ++ binary.Write64 (Z.of_nat (length (Intervals s)))
  ++ encode_intervals (Intervals s).

(** The loop of [UUIDSet.decode] that reads [count] intervals. *)
Fixpoint decode_intervals (count : nat) (data : list byte)
  : go.result IntervalSlice :=
  match count with
  | O => go.Ok []
  | S count' =>
      match binary.Uint64 data, binary.Uint64 (skipn 8 data) with
      | go.Ok start, go.Ok stop =>
          match decode_intervals count' (skipn 16 data) with
          | go.Ok l => go.Ok (mkInterval (to_int64 start) (to_int64 stop) :: l)
          | e => e
          end
      | _, _ => go.Panic
      end
  end.

(** [UUIDSet.decode]: the set read and the number of bytes used.
    [make([]Interval, 0, n)] panics on a negative [n] and on one whose
    16-byte elements exceed the address space. *)
Definition UUIDSet_decode (data : list byte) : go.result (UUIDSet * Z) :=
  if (length data <? 24)%nat then go.Err
  else
    match uuid.FromBytes (firstn 16 data) with
    | None => go.Err
    | Some sid =>
        match binary.Uint64 (skipn 16 data) with
        | go.Ok v =>
            let n := to_int64 v in
            let pos := 24 in
            if Z.of_nat (length data) <? to_int64 (to_int64 (16 * n) + pos)
            then go.Err
            else if (n <? 0) || (16 * n >? MaxInt64) then go.Panic
            else
              match decode_intervals (Z.to_nat n) (skipn 24 data) with
              | go.Ok l =>
                  go.Ok ({| SID := sid; Intervals := l |}, pos + 16 * n)
              | go.Err => go.Err
              | go.Panic => go.Panic
              end
        | _ => go.Panic
        end
    end.

(** [type MysqlGTIDSet struct { Sets map[string]*UUIDSet }] *)
Abbreviation MysqlGTIDSet := (gmap string UUIDSet).

(** [MysqlGTIDSet.AddSet]; the argument [None] is the [nil] pointer. *)
Definition AddSet (s : MysqlGTIDSet) (set : option UUIDSet) : MysqlGTIDSet :=
  match set with
  | None => s
  | Some set =>
      let sid := uuid.UUID_String (SID set) in
      match s !! sid with
      | Some o => <[sid := AddInterval o (Intervals set)]> s
      | None => <[sid := set]> s
      end
  end.

(** [MysqlGTIDSet.MinusSet].  [MinusInterval] assigns to the interval
    list what [Normalize] returns, which is [nil] exactly when it is
    empty. *)
Definition MinusSet (s : MysqlGTIDSet) (set : option UUIDSet)
  : run MysqlGTIDSet :=
  match set with
  | None => Returns s
  | Some set =>
      let sid := uuid.UUID_String (SID set) in
      match s !! sid with
      | Some uuidSet =>
          match MinusInterval (Intervals uuidSet) (Intervals set) with
          | Returns n =>
              match n with
              | [] => Returns (delete sid s)
              | _ :: _ =>
                  Returns (<[sid := {| SID := SID uuidSet; Intervals := n |}]> s)
              end
          | Panics => Panics
          | NoFuel => NoFuel
          end
      | None => Returns s
      end
  end.

(** [MysqlGTIDSet.Encode], for the order [sets] in which [range] visits
    the map. *)
Definition Encode_sets (sets : list UUIDSet) : list byte :=
  binary.Write64 (Z.of_nat (length sets))
  ++ concat (map UUIDSet_encode sets).

Definition Encode (s : MysqlGTIDSet) : list byte :=
  Encode_sets (map_to_list s).*2.

(** The loop of [DecodeMysqlGTIDSet]; every turn uses at least 24
    bytes of [data], so with [fuel] at zero there are no bytes left and
    [set.decode] reports a short buffer. *)
Fixpoint Decode_loop (fuel : nat) (n : Z) (data : list byte)
    (s : MysqlGTIDSet) : go.result MysqlGTIDSet :=
  if n <=? 0 then go.Ok s
  else
    match fuel with
    | O => go.Err
    | S fuel' =>
        match UUIDSet_decode data with
        | go.Ok (set, k) =>
            Decode_loop fuel' (n - 1) (skipn (Z.to_nat k) data)
              (AddSet s (Some set))
        | go.Err => go.Err
        | go.Panic => go.Panic
        end
    end.

(** [DecodeMysqlGTIDSet] *)
Definition DecodeMysqlGTIDSet (data : list byte) : go.result MysqlGTIDSet :=
  if (length data <? 8)%nat then go.Err
  else
    match binary.Uint64 data with
    | go.Ok v => Decode_loop (length data) (to_int64 v) (skipn 8 data) ∅
    | _ => go.Panic
    end.

(** [MysqlGTIDSet.String], for the order [sets] in which [range] visits
    the map. *)
Definition String_sets (sets : list UUIDSet) : string :=
  match sets with
  | [set] => UUIDSet_String set
  | _ =>
      gostrings.Join (gosort.Sort String.ltb (map UUIDSet_String sets)) ","
  end.

Definition MysqlGTIDSet_String (s : MysqlGTIDSet) : string :=
  String_sets (map_to_list s).*2.

(** Data model of [MysqlGTIDSet]: every entry is filed under the string
    form of its own SID. *)
Definition keyed (s : MysqlGTIDSet) : Prop :=
  forall (k : string) (u : UUIDSet),
    s !! k = Some u -> k = uuid.UUID_String (SID u).

(** A [UUIDSet] as its Go type has it: an SID of 16 bytes and [int64]
    interval bounds. *)
Definition typed (u : UUIDSet) : Prop :=
  length (SID u) = 16%nat /\ int64_slice (Intervals u).

(** [s.AddSet(set)] for each set of a list in turn. *)
Definition AddSets (sets : list UUIDSet) (s : MysqlGTIDSet) : MysqlGTIDSet :=
  fold_left (fun s set => AddSet s (Some set)) sets s.

(** A [UUIDSet] that the text form can carry: a 16-byte SID and a
    non-empty normalized list of intervals with [0 <= Start < Stop]. *)
Definition printable (u : UUIDSet) : Prop :=
  length (SID u) = 16%nat /\ Intervals u <> [] /\
  valid (Intervals u) /\ separated (Intervals u) /\
  Forall (fun i => 0 <= Start i /\ Stop i <= MaxInt64) (Intervals u).

Definition is_digit_or_dash (c : ascii) : bool :=
  strconv.is_digit c || uuid.is_dash c.

Section Text.

Variable TrimFunc_IsSpace : string -> string.
Variable TrimRightFunc_IsSpace : string -> string.

Fixpoint parse_intervals (sep : list string) : option IntervalSlice :=
  match sep with
  | [] => Some []
  | x :: sep' =>
      match parseInterval x with
      | None => None
      | Some i => option_map (cons i) (parse_intervals sep')
      end
  end.

(** [ParseUUIDSet] *)
Definition ParseUUIDSet (str : string) : option UUIDSet :=
  let str :=
    gostrings.TrimSpace TrimFunc_IsSpace TrimRightFunc_IsSpace str in
  match gostrings.Split str ":" with
  | [] | [_] => None
  | sep0 :: rest =>
      match uuid.Parse sep0 with
      | None => None
      | Some sid =>
          match parse_intervals rest with
          | None => None
          | Some ins => Some {| SID := sid; Intervals := Normalize ins |}
          end
      end
  end.

Fixpoint Parse_loop (sp : list string) (s : MysqlGTIDSet)
  : option MysqlGTIDSet :=
  match sp with
  | [] => Some s
  | x :: sp' =>
      match ParseUUIDSet x with
      | None => None
      | Some set => Parse_loop sp' (AddSet s (Some set))
      end
  end.

(** [ParseMysqlGTIDSet] *)
Definition ParseMysqlGTIDSet (str : string) : option MysqlGTIDSet :=
  if String.eqb str "" then Some ∅
  else Parse_loop (gostrings.Split str ",") ∅.

End Text.

(** [min] and [max] of the package, on [int64]. *)
Definition min (a b : Z) : Z := if a <? b then a else b.

Definition max (a b : Z) : Z := if a >? b then a else b.

(** The element at index [i] of the slice.  The loop of [InsertInterval]
    only reads indices below the length, so the default is never
    returned there. *)
Definition at_index (s : IntervalSlice) (i : nat) : Interval :=
  nth i s (mkInterval 0 0).

(** The [for i = total - 1; i > 0; i--] loop of [InsertInterval], from
    index [i] on: the index at which the loop stops, the array and
    [count]. *)
Fixpoint InsertInterval_loop (i : nat) (s : IntervalSlice) (count : nat)
  : nat * IntervalSlice * nat :=
  match i with
  | O => (O, s, count)
  | S i' =>
      let cur := at_index s (S i') in
      let prev := at_index s i' in
      if Stop cur <? Start prev then
        InsertInterval_loop i' (<[i' := cur]> (<[S i' := prev]> s)) count
      else if Start cur >? Stop prev then (S i', s, count)
      else
        InsertInterval_loop i'
          (<[i' := mkInterval (min (Start prev) (Start cur))
                              (max (Stop prev) (Stop cur))]> s)
          (S count)
  end.

(** [copy] from the part of the array at [j] on to the part at [i] on,
    for [i <= j]. *)
Definition copy_down (s : IntervalSlice) (i j : nat) : IntervalSlice :=
  let src := drop j s in
  take i s ++ src ++ drop (i + length src) s.

(** [IntervalSlice.InsertInterval]: the new value of the slice. *)
Definition InsertInterval (s : IntervalSlice) (interval : Interval)
  : IntervalSlice :=
  let s := s ++ [interval] in
  let total := length s in
  let '(i, s, count) := InsertInterval_loop (total - 1) s 0 in
  if (0 <? count)%nat then
    let i := S i in
    let s :=
      if (i + count <? total)%nat then copy_down s i (i + count) else s in
    take (total - count) s
  else s.

(** [IntervalSlice.Equal] *)
Fixpoint Equal_loop (s o : IntervalSlice) : bool :=
  match s, o with
  | si :: s', oi :: o' =>
      if negb (Start si =? Start oi) || negb (Stop si =? Stop oi) then false
      else Equal_loop s' o'
  | _, _ => true
  end.

Definition Equal (s o : IntervalSlice) : bool :=
  if negb (length s =? length o)%nat then false else Equal_loop s o.

(** [IntervalSlice.Compare] *)
Definition Compare (s o : IntervalSlice) : Z :=
  if Equal s o then 0 else if Contain s o then 1 else -1.

(** [NewUUIDSet] *)
Definition NewUUIDSet (sid : uuid.UUID) (in_ : IntervalSlice) : UUIDSet :=
  {| SID := sid; Intervals := Normalize in_ |}.

#[global] Instance byte_eq_dec : EqDecision byte := Byte.byte_eq_dec.

(** [UUIDSet.Contain]; [s.SID != sub.SID] compares the two arrays. *)
Definition UUIDSet_Contain (s sub : UUIDSet) : bool :=
  if negb (bool_decide (SID s = SID sub)) then false
  else Contain (Intervals s) (Intervals sub).

(** [UUIDSet.Decode]: [decode] returns [0] with every error. *)
Definition UUIDSet_Decode (data : list byte) : go.result UUIDSet :=
  match UUIDSet_decode data with
  | go.Ok (s, n) =>
      if negb (n =? Z.of_nat (length data)) then go.Err else go.Ok s
  | go.Err => go.Err
  | go.Panic => go.Panic
  end.

(** [MysqlGTIDSet.AddGTID] *)
Definition AddGTID (s : MysqlGTIDSet) (uuid : uuid.UUID) (gno : Z)
  : MysqlGTIDSet :=
  let sid := uuid.UUID_String uuid in
  let interval := mkInterval gno (to_int64 (gno + 1)) in
  match s !! sid with
  | Some o =>
      <[sid := {| SID := SID o;
                  Intervals := InsertInterval (Intervals o) interval |}]> s
  | None => <[sid := {| SID := uuid; Intervals := [interval] |}]> s
  end.

(** [MysqlGTIDSet.Add], for the order [sets] in which [range] visits
    [addend.Sets]. *)
Definition Add_sets (s : MysqlGTIDSet) (sets : list UUIDSet) : MysqlGTIDSet :=
  AddSets sets s.

Definition Add (s addend : MysqlGTIDSet) : MysqlGTIDSet :=
  Add_sets s (map_to_list addend).*2.

(** [MysqlGTIDSet.Minus], for the order [sets] in which [range] visits
    [subtrahend.Sets]. *)
Fixpoint Minus_sets (s : MysqlGTIDSet) (sets : list UUIDSet)
  : run MysqlGTIDSet :=
  match sets with
  | [] => Returns s
  | set :: sets' =>
      match MinusSet s (Some set) with
      | Returns s' => Minus_sets s' sets'
      | Panics => Panics
      | NoFuel => NoFuel
      end
  end.

Definition Minus (s subtrahend : MysqlGTIDSet) : run MysqlGTIDSet :=
  Minus_sets s (map_to_list subtrahend).*2.

(** The dynamic type of a [GTIDSet] interface value: a [*MysqlGTIDSet],
    or the other implementation. *)
Inductive GTIDSet : Type :=
  | IsMysqlGTIDSet (s : MysqlGTIDSet)
  | OtherGTIDSet.

(** [MysqlGTIDSet.Contain], for the order [entries] in which [range]
    visits [sub.Sets]. *)
Fixpoint Contain_entries (s : MysqlGTIDSet) (entries : list (string * UUIDSet))
  : bool :=
  match entries with
  | [] => true
  | (key, set) :: entries' =>
      match s !! key with
      | None => false
      | Some o =>
          if negb (UUIDSet_Contain o set) then false
          else Contain_entries s entries'
      end
  end.

Definition MysqlGTIDSet_Contain (s : MysqlGTIDSet) (o : GTIDSet) : bool :=
  match o with
  | OtherGTIDSet => false
  | IsMysqlGTIDSet sub => Contain_entries s (map_to_list sub)
  end.

(** [MysqlGTIDSet.Equal], for the order [entries] in which [range]
    visits [sub.Sets]. *)
Fixpoint Equal_entries (s : MysqlGTIDSet) (entries : list (string * UUIDSet))
  : bool :=
  match entries with
  | [] => true
  | (key, set) :: entries' =>
      match s !! key with
      | None => false
      | Some o =>
          if negb (Equal (Intervals o) (Intervals set)) then false
          else Equal_entries s entries'
      end
  end.

Definition MysqlGTIDSet_Equal_entries (s sub : MysqlGTIDSet)
    (entries : list (string * UUIDSet)) : bool :=
  if negb (size sub =? size s)%nat then false else Equal_entries s entries.

Definition MysqlGTIDSet_Equal (s : MysqlGTIDSet) (o : GTIDSet) : bool :=
  match o with
  | OtherGTIDSet => false
  | IsMysqlGTIDSet sub => MysqlGTIDSet_Equal_entries s sub (map_to_list sub)
  end.

(** [MysqlGTIDSet.IsEmpty] *)
Definition IsEmpty (s : MysqlGTIDSet) : bool := (size s =? 0)%nat.

(** What [AddSet] leaves under the key of the set added. *)
Definition added (s : MysqlGTIDSet) (k : string) (set : UUIDSet) : UUIDSet :=
  match s !! k with
  | Some o => AddInterval o (Intervals set)
  | None => set
  end.

(** What [MinusSet] leaves under the key of the set taken away. *)
Definition left_over (o set : UUIDSet) : option UUIDSet :=
  match MinusInterval (Intervals o) (Intervals set) with
  | Returns (i :: n) => Some {| SID := SID o; Intervals := i :: n |}
  | _ => None
  end.

End mysql.

(** ** Package replication: event decoders *)

Module replication.

Import go gostrings.

(** *** FormatDescriptionEvent *)

Definition EventHeaderSize : Z := 19.

(** Modelled from the spec: the constant [BINLOG_CHECKSUM_ALG_UNDEF],
    declared outside the files at hand; the spec and the comment on
    [ChecksumAlgorithm] give it as 255. *)
Definition BINLOG_CHECKSUM_ALG_UNDEF : Z := 255.

Definition checksumVersionSplitMysql : list Z := [5; 6; 1].
Definition checksumVersionSplitMariaDB : list Z := [5; 3; 0].

Definition version_product (split : list Z) : Z :=
  Int.to_int64
    (Int.to_int64 (Int.to_int64 (Int.to_int64 (nth 0 split 0 * 256) + nth 1 split 0) * 256)
     + nth 2 split 0).

Definition checksumVersionProductMysql : Z :=
  version_product checksumVersionSplitMysql.
Definition checksumVersionProductMariaDB : Z :=
  version_product checksumVersionSplitMariaDB.

Fixpoint has_prefix (p s : string) : bool :=
  match p, s with
  | EmptyString, _ => true
  | String _ _, EmptyString => false
  | String c p', String d s' => Ascii.eqb c d && has_prefix p' s'
  end.

(** [strings.Contains] *)
Fixpoint Contains (s substr : string) : bool :=
  has_prefix substr s
  || match s with
     | EmptyString => false
     | String _ s' => Contains s' substr
     end.

Fixpoint drop_bytes (n : nat) (s : string) : string :=
  match n, s with
  | O, _ => s
  | S n', String _ s' => drop_bytes n' s'
  | S _, EmptyString => EmptyString
  end.

Fixpoint take_bytes (n : nat) (s : string) : string :=
  match n, s with
  | S n', String c s' => String c (take_bytes n' s')
  | _, _ => EmptyString
  end.

Fixpoint is_ascii (s : string) : bool :=
  match s with
  | EmptyString => true
  | String c s' => (byte_val c <? RuneSelf) && is_ascii s'
  end.

Section Unicode.

(** What package unicode and the UTF-8 decoder contribute for bytes
    from 0x80 on; their tables are left as parameters:
    [DecodeRuneInString] gives the rune at the head of a string and the
    number of bytes it takes, [IsNumber] is [unicode.IsNumber] on runes
    beyond ASCII, [ToLower_Map] is [strings.Map(unicode.ToLower, s)]. *)
Variable DecodeRuneInString : string -> Z * nat.
Variable IsNumber : Z -> bool.
Variable ToLower_Map : string -> string.

(** [strings.ToLower]: a string of ASCII bytes has its letters A-Z
    replaced; any other string goes through the Unicode mapping. *)
Definition ToLower (s : string) : string :=
  if is_ascii s then uuid.lower_ascii s else ToLower_Map s.

(** The [for i, c := range seps[2]] loop of [splitServerVersion]: the
    byte offset of the first rune that is not a number, if the loop
    breaks at one. *)
Fixpoint first_non_number (fuel : nat) (s : string) (i : nat) : option nat :=
  match fuel with
  | O => None
  | S fuel' =>
      match s with
      | EmptyString => None
      | String c s' =>
          if byte_val c <? RuneSelf then
            if strconv.is_digit c then first_non_number fuel' s' (S i)
            else Some i
          else
            let '(r, w) := DecodeRuneInString s in
            if IsNumber r then
              first_non_number fuel' (drop_bytes w s) (i + w)
            else Some i
      end
  end.

(** [splitServerVersion] *)
Definition splitServerVersion (server : string) : list Z :=
  match Split server "." with
  | s0 :: s1 :: s2 :: _ =>
      let x := fst (strconv.Atoi s0) in
      let y := fst (strconv.Atoi s1) in
      let index :=
        match first_non_number (String.length s2) s2 0 with
        | Some i => i
        | None => O
        end in
      let z := fst (strconv.Atoi (take_bytes index s2)) in
      [x; y; z]
  | _ => [0; 0; 0]
  end.

(** [calcVersionProduct] *)
Definition calcVersionProduct (server : string) : Z :=
  version_product (splitServerVersion server).

Record FormatDescriptionEvent : Type := mkFormatDescriptionEvent {
  Version : Z;
  ServerVersion : string;
  CreateTimestamp : Z;
  EventHeaderLength : Z;
  EventTypeHeaderLengths : list byte;
  ChecksumAlgorithm : Z
}.

(** [bytes.Index(b, []byte{0})] and the string up to it *)
Fixpoint until_zero (b : list byte) : list byte :=
  match b with
  | [] => []
  | x :: b' => if byte_Z x =? 0 then [] else x :: until_zero b'
  end.

(** Does the server version call for the checksum fields? *)
Definition uses_checksum (serverVersion : string) : bool :=
  let checksumProduct :=
    if Contains (ToLower serverVersion) "mariadb"
    then checksumVersionProductMariaDB
    else checksumVersionProductMysql in
  calcVersionProduct serverVersion >=? checksumProduct.

(** [FormatDescriptionEvent.Decode]: reads of [data] past its end
    panic; a header length other than 19 is the error. *)
Definition FormatDescriptionEvent_Decode (data : list byte)
  : result FormatDescriptionEvent :=
  if (length data <? 57)%nat then Panic
  else
    let version := binary.le_value (firstn 2 data) in
    let serverVersionRaw := firstn 50 (skipn 2 data) in
    let createTimestamp := binary.le_value (firstn 4 (skipn 52 data)) in
    let eventHeaderLength := byte_Z (nth 56 data Byte.x00) in
    if negb (eventHeaderLength =? EventHeaderSize) then Err
    else
      let serverVersion := string_of_list_byte (until_zero serverVersionRaw) in
      if uses_checksum serverVersion then
        if (length data - 5 <? 57)%nat then Panic
        else
          Ok {| Version := version; ServerVersion := serverVersion;
                CreateTimestamp := createTimestamp;
                EventHeaderLength := eventHeaderLength;
                EventTypeHeaderLengths :=
                  firstn (length data - 5 - 57) (skipn 57 data);
                ChecksumAlgorithm :=
                  byte_Z (nth (length data - 5) data Byte.x00) |}
      else
        Ok {| Version := version; ServerVersion := serverVersion;
              CreateTimestamp := createTimestamp;
              EventHeaderLength := eventHeaderLength;
              EventTypeHeaderLengths := skipn 57 data;
              ChecksumAlgorithm := BINLOG_CHECKSUM_ALG_UNDEF |}.

End Unicode.

(** *** JSON diff *)

Definition JsonDiffOperationReplace : Z := 0.
Definition JsonDiffOperationInsert : Z := 1.
Definition JsonDiffOperationRemove : Z := 2.

Record JsonDiff : Type := mkJsonDiff {
  Op : Z;
  Path : string;
  Value : string
}.

(** The errors [decodeJsonPartialBinary] returns: the variable
    [ErrCorruptedJSONDiff], or the error of [decodeJsonBinary] wrapped
    with the path by [fmt.Errorf]. *)
Inductive DiffError (E : Type) : Type :=
  | ErrCorruptedJSONDiff
  | ErrCannotReadDiff (path : list byte) (err : E).
Arguments ErrCorruptedJSONDiff {E}.
Arguments ErrCannotReadDiff {E} path err.

Inductive decoded (E A : Type) : Type :=
  | Decoded (a : A)
  | Failed (e : E)
  | Panicked.
Arguments Decoded {E A} a.
Arguments Failed {E A} e.
Arguments Panicked {E A}.

(** [data[n:]] and [data[:n]]; an index outside the slice panics
    ([None]). *)
Definition slice_from (data : list byte) (n : Z) : option (list byte) :=
  if (n <? 0) || (n >? Z.of_nat (length data)) then None
  else Some (skipn (Z.to_nat n) data).

Definition slice_to (data : list byte) (n : Z) : option (list byte) :=
  if (n <? 0) || (n >? Z.of_nat (length data)) then None
  else Some (firstn (Z.to_nat n) data).

Section JsonDiff.

(** [mysql.LengthEncodedInt] (number, isNull, bytes used) and
    [RowsEvent.decodeJsonBinary] (an error or the JSON text) are taken
    as they come; [LengthEncodedInt] may panic on a short buffer. *)
Variable E : Type.
Variable LengthEncodedInt : list byte -> result (Z * bool * Z).
Variable decodeJsonBinary : list byte -> E + list byte.

(** [RowsEvent.decodeJsonPartialBinary] *)
Definition decodeJsonPartialBinary (data : list byte)
  : decoded (DiffError E) JsonDiff :=
  match data with
  | [] => Panicked
  | b :: data =>
      let operationNumber := byte_Z b in
      if (operationNumber =? JsonDiffOperationReplace)
         || (operationNumber =? JsonDiffOperationInsert)
         || (operationNumber =? JsonDiffOperationRemove)
      then
        match LengthEncodedInt data with
        | Ok (pathLength, _, n) =>
            match slice_from data n with
            | Some data =>
                match slice_to data pathLength, slice_from data pathLength with
                | Some path, Some data =>
                    let diff :=
                      {| Op := operationNumber;
                         Path := string_of_list_byte path;
                         Value := EmptyString |} in
                    if operationNumber =? JsonDiffOperationRemove
                    then Decoded diff
                    else
                      match LengthEncodedInt data with
                      | Ok (valueLength, _, n) =>
                          match slice_from data n with
                          | Some data =>
                              match slice_to data valueLength with
                              | Some value =>
                                  match decodeJsonBinary value with
                                  | inl err =>
                                      Failed (ErrCannotReadDiff path err)
                                  | inr d =>
                                      Decoded
                                        {| Op := operationNumber;
                                           Path := string_of_list_byte path;
                                           Value := string_of_list_byte d |}
                                  end
                              | None => Panicked
                              end
                          | None => Panicked
                          end
                      | _ => Panicked
                      end
                | _, _ => Panicked
                end
            | None => Panicked
            end
        | _ => Panicked
        end
      else Failed ErrCorruptedJSONDiff
  end.

End JsonDiff.

(** *** Tagged GTID event *)

(** Modelled from the spec: the field types of package serialization
    (fixed-length integer, variable-length signed and unsigned integer,
    length-prefixed string), declared outside the files at hand. *)
Inductive FieldType : Type :=
  | FieldIntFixed (Length : Z) (Value : list byte)
  | FieldIntVar (Value : Z)
  | FieldUintVar (Value : Z)
  | FieldString (Value : string).

(** Modelled from the spec: a field of a serialization message, with
    its name, its type ([None] when the schema gives none), whether it
    is optional, and the [Skipped] flag a reader observes. *)
Record Field : Type := mkField {
  Name : string;
  Type_ : option FieldType;
  Optional : bool;
  Skipped : bool
}.

(** [serialization.Message], its [Format.Fields]. *)
Definition Message : Type := list Field.

Record GTIDEvent : Type := mkGTIDEvent {
  CommitFlag : Z;
  SID : list byte;
  Tag : string;
  GNO : Z;
  LastCommitted : Z;
  SequenceNumber : Z;
  ImmediateCommitTimestamp : Z;
  OriginalCommitTimestamp : Z;
  TransactionLength : Z;
  ImmediateServerVersion : Z;
  OriginalServerVersion : Z
}.

(** The schema [GtidTaggedLogEvent.Decode] hands to [Unmarshal]. *)
Definition tagged_format : Message :=
  let field name type optional :=
    {| Name := name; Type_ := type; Optional := optional; Skipped := false |} in
  [ field "gtid_flags"%string (Some (FieldIntFixed 1 [])) false;
    field "uuid"%string (Some (FieldIntFixed 16 [])) false;
    field "gno"%string (Some (FieldIntVar 0)) false;
    field "tag"%string (Some (FieldString EmptyString)) false;
    field "last_committed"%string (Some (FieldIntVar 0)) false;
    field "sequence_number"%string (Some (FieldIntVar 0)) false;
    field "immediate_commit_timestamp"%string (Some (FieldUintVar 0)) false;
    field "original_commit_timestamp"%string (Some (FieldUintVar 0)) true;
    field "transaction_length"%string (Some (FieldUintVar 0)) false;
    field "immediate_server_version"%string (Some (FieldUintVar 0)) false;
    field "original_server_version"%string (Some (FieldUintVar 0)) true;
    field "commit_group_ticket"%string None true ].

(** conversion [uint32(x)] *)
Definition to_uint32 (z : Z) : Z := z mod 2 ^ 32.

Section Tagged.

(** [serialization.Unmarshal] fills the message from the bytes or
    returns an error ([None]); [Message.GetFieldByName] finds a field or
    returns an error ([None]).  Both belong to package serialization. *)
Variable Unmarshal : list byte -> Message -> option Message.
Variable GetFieldByName : Message -> string -> option Field.

Definition field_IntFixed (msg : Message) (name : string)
  : result (list byte) :=
  match GetFieldByName msg name with
  | Some f =>
      match Type_ f with
      | Some (FieldIntFixed _ v) => Ok v
      | _ => Err
      end
  | None => Err
  end.

Definition field_IntVar (msg : Message) (name : string) : result Z :=
  match GetFieldByName msg name with
  | Some f =>
      match Type_ f with
      | Some (FieldIntVar v) => Ok v
      | _ => Err
      end
  | None => Err
  end.

Definition field_String (msg : Message) (name : string) : result string :=
  match GetFieldByName msg name with
  | Some f =>
      match Type_ f with
      | Some (FieldString v) => Ok v
      | _ => Err
      end
  | None => Err
  end.

(** a [FieldUintVar] with the [Skipped] flag of its field *)
Definition field_UintVar (msg : Message) (name : string)
  : result (Z * bool) :=
  match GetFieldByName msg name with
  | Some f =>
      match Type_ f with
      | Some (FieldUintVar v) => Ok (v, Skipped f)
      | _ => Err
      end
  | None => Err
  end.

Definition bind {A B : Type} (r : result A) (k : A -> result B) : result B :=
  match r with
  | Ok a => k a
  | Err => Err
  | Panic => Panic
  end.

(** [GtidTaggedLogEvent.Decode]: the event as filled in, in the order
    of the source. *)
Definition GtidTaggedLogEvent_Decode (data : list byte) : result GTIDEvent :=
  match Unmarshal data tagged_format with
  | None => Err
  | Some msg =>
      bind (field_IntFixed msg "gtid_flags") (fun flags =>
      match flags with
      | [] => Panic
      | flag0 :: _ =>
      bind (field_IntFixed msg "uuid") (fun sid =>
      bind (field_IntVar msg "gno") (fun gno =>
      bind (field_String msg "tag") (fun tag =>
      bind (field_IntVar msg "last_committed") (fun lastCommitted =>
      bind (field_IntVar msg "sequence_number") (fun sequenceNumber =>
      bind (field_UintVar msg "immediate_commit_timestamp") (fun ict =>
      let immediateCommitTimestamp := fst ict in
      bind (field_UintVar msg "original_commit_timestamp") (fun oct =>
      let originalCommitTimestamp :=
        if snd oct then immediateCommitTimestamp else fst oct in
      bind (field_UintVar msg "immediate_server_version") (fun isv =>
      let immediateServerVersion := to_uint32 (fst isv) in
      bind (field_UintVar msg "original_server_version") (fun osv =>
      let originalServerVersion :=
        if snd osv then immediateServerVersion else to_uint32 (fst osv) in
      bind (field_UintVar msg "transaction_length") (fun tl =>
      Ok {| CommitFlag := byte_Z flag0;
            SID := sid;
            Tag := tag;
            GNO := gno;
            LastCommitted := lastCommitted;
            SequenceNumber := sequenceNumber;
            ImmediateCommitTimestamp := immediateCommitTimestamp;
            OriginalCommitTimestamp := originalCommitTimestamp;
            TransactionLength := fst tl;
            ImmediateServerVersion := immediateServerVersion;
            OriginalServerVersion := originalServerVersion |}))))))))))
      end)
  end.

End Tagged.

(** ** Event header, classic GTID event, previous-GTIDs event *)

(** [data[i]], [data[lo:]] and [data[lo:hi]] on a buffer without spare
    capacity: an index outside the slice panics. *)
Definition index_byte (data : list byte) (i : Z) : result Z :=
  if (i <? 0) || (i >=? Z.of_nat (length data)) then Panic
  else Ok (byte_Z (nth (Z.to_nat i) data Byte.x00)).

Definition bytes_from (data : list byte) (lo : Z) : result (list byte) :=
  match slice_from data lo with
  | Some d => Ok d
  | None => Panic
  end.

Definition bytes_between (data : list byte) (lo hi : Z)
  : result (list byte) :=
  if (lo <? 0) || (hi <? lo) || (hi >? Z.of_nat (length data)) then Panic
  else Ok (firstn (Z.to_nat (hi - lo)) (skipn (Z.to_nat lo) data)).

(** [type EventHeader struct] *)
Record EventHeader : Type := mkEventHeader {
  Timestamp : Z;
  EventType : Z;
  ServerID : Z;
  EventSize : Z;
  LogPos : Z;
  Flags : Z
}.

(** [EventHeader.Decode] *)
Definition EventHeader_Decode (data : list byte) : result EventHeader :=
  if Z.of_nat (length data) <? EventHeaderSize then Err
  else
    let pos := 0 in
    bind (bytes_from data pos) (fun d => bind (binary.Uint32 d) (fun timestamp =>
    let pos := pos + 4 in
    bind (index_byte data pos) (fun eventType =>
    let pos := pos + 1 in
    bind (bytes_from data pos) (fun d => bind (binary.Uint32 d) (fun serverID =>
    let pos := pos + 4 in
    bind (bytes_from data pos) (fun d => bind (binary.Uint32 d) (fun eventSize =>
    let pos := pos + 4 in
    bind (bytes_from data pos) (fun d => bind (binary.Uint32 d) (fun logPos =>
    let pos := pos + 4 in
    bind (bytes_from data pos) (fun d => bind (binary.Uint16 d) (fun flags =>
    if eventSize <? EventHeaderSize then Err
    else
      Ok {| Timestamp := timestamp; EventType := eventType;
            ServerID := serverID; EventSize := eventSize;
            LogPos := logPos; Flags := flags |}))))))))))).

Definition SidLength : Z := 16.
Definition LogicalTimestampTypeCode : Z := 2.
Definition PartLogicalTimestampLength : Z := 8.
Definition UndefinedServerVer : Z := 999999.

(** [x &^ (1 << n)] on a [w]-bit unsigned number. *)
Definition clear_bit (w : Z) (x n : Z) : Z :=
  Z.land x (Z.lxor (2 ^ w - 1) (Z.shiftl 1 n)).

Section Classic.

(** [mysql.FixedLengthInt] (the number in the bytes given) and
    [mysql.LengthEncodedInt] (number, isNull, bytes used) are taken as
    they come; [LengthEncodedInt] may panic on a short buffer. *)
Variable FixedLengthInt : list byte -> Z.
Variable LengthEncodedInt : list byte -> result (Z * bool * Z).

(** [GTIDEvent.Decode] into a zero-valued event, in the order of the
    source. *)
Definition GTIDEvent_Decode (data : list byte) : result GTIDEvent :=
  let len := Z.of_nat (length data) in
  let pos := 0 in
  bind (index_byte data pos) (fun commitFlag =>
  let pos := pos + 1 in
  bind (bytes_between data pos (pos + SidLength)) (fun sid =>
  let pos := pos + SidLength in
  bind (bytes_from data pos) (fun d => bind (binary.Uint64 d) (fun gno =>
  let pos := pos + 8 in
  let event lc sn ict oct tl isv osv :=
    {| CommitFlag := commitFlag; SID := sid; Tag := EmptyString;
       GNO := Int.to_int64 gno; LastCommitted := lc; SequenceNumber := sn;
       ImmediateCommitTimestamp := ict; OriginalCommitTimestamp := oct;
       TransactionLength := tl;
       ImmediateServerVersion := isv; OriginalServerVersion := osv |} in
  if len >=? 42 then
    bind (index_byte data pos) (fun code =>
    if code =? LogicalTimestampTypeCode then
      let pos := pos + 1 in
      bind (bytes_from data pos) (fun d => bind (binary.Uint64 d) (fun lc =>
      let lc := Int.to_int64 lc in
      let pos := pos + PartLogicalTimestampLength in
      bind (bytes_from data pos) (fun d => bind (binary.Uint64 d) (fun sn =>
      let sn := Int.to_int64 sn in
      let pos := pos + 8 in
      if len - pos <? 7 then Ok (event lc sn 0 0 0 0 0)
      else
        bind (bytes_between data pos (pos + 7)) (fun d =>
        let ict := FixedLengthInt d in
        let pos := pos + 7 in
        bind (if Z.testbit ict 55 then
                bind (bytes_between data pos (pos + 7)) (fun d =>
                Ok (clear_bit 64 ict 55, FixedLengthInt d, pos + 7))
              else Ok (ict, ict, pos)) (fun '(ict, oct, pos) =>
        if len - pos <? 1 then Ok (event lc sn ict oct 0 0 0)
        else
          bind (bytes_from data pos) (fun d =>
          bind (LengthEncodedInt d) (fun '(tl, _, n) =>
          let pos := pos + n in
          if len - pos <? 4 then
            Ok (event lc sn ict oct tl UndefinedServerVer UndefinedServerVer)
          else
            bind (bytes_from data pos) (fun d =>
            bind (binary.Uint32 d) (fun isv =>
            let pos := pos + 4 in
            if Z.testbit isv 31 then
              bind (bytes_from data pos) (fun d =>
              bind (binary.Uint32 d) (fun osv =>
              Ok (event lc sn ict oct tl (clear_bit 32 isv 31) osv)))
            else Ok (event lc sn ict oct tl isv isv)))))))))))
    else Ok (event 0 0 0 0 0 0 0))
  else Ok (event 0 0 0 0 0 0 0))))).

End Classic.

(** [type GtidFormat int] *)
Inductive GtidFormat : Type :=
  | GtidFormatClassic
  | GtidFormatTagged.

(** [decodeSid]; [copy(masked, data[1:7])] fills six of the eight zero
    bytes of [masked]. *)
Definition decodeSid (data : list byte) : result (GtidFormat * Z) :=
  bind (index_byte data 7) (fun b =>
  if b =? 1 then
    bind (bytes_between data 1 7) (fun d =>
    bind (binary.Uint64 (d ++ [Byte.x00; Byte.x00])) (fun sidnr =>
    Ok (GtidFormatTagged, sidnr)))
  else
    bind (bytes_between data 0 8) (fun d =>
    bind (binary.Uint64 d) (fun sidnr => Ok (GtidFormatClassic, sidnr)))).

(** [PreviousGTIDsEvent.decodeUuid] *)
Definition decodeUuid (data : list byte) : string :=
  (uuid.hex_Encode (firstn 4 data) ++ "-"
   ++ uuid.hex_Encode (firstn 2 (skipn 4 data)) ++ "-"
   ++ uuid.hex_Encode (firstn 2 (skipn 6 data)) ++ "-"
   ++ uuid.hex_Encode (firstn 2 (skipn 8 data)) ++ "-"
   ++ uuid.hex_Encode (skipn 10 data))%string.

(** The [for range sliceCount] loop of [PreviousGTIDsEvent.Decode]:
    the position and the text after it.  [start] and [stop] are
    [uint64]; [%d] prints them as [strconv.FormatUint] does. *)
Fixpoint decode_slices (sliceCount : nat) (data : list byte) (pos : Z)
    (buf : string) : result (Z * string) :=
  match sliceCount with
  | O => Ok (pos, buf)
  | S sliceCount' =>
      let buf := (buf ++ ":")%string in
      bind (bytes_between data pos (pos + 8)) (fun d =>
      bind (binary.Uint64 d) (fun start =>
      let pos := pos + 8 in
      bind (bytes_between data pos (pos + 8)) (fun d =>
      bind (binary.Uint64 d) (fun stop =>
      let pos := pos + 8 in
      let buf :=
        if stop =? Int.to_uint64 (start + 1)
        then (buf ++ strconv.FormatUint start)%string
        else (buf ++ strconv.FormatUint start ++ "-"
              ++ strconv.FormatUint (Int.to_uint64 (stop - 1)))%string in
      decode_slices sliceCount' data pos buf))))
  end.

(** The [for range previousGTIDSets] loop. *)
Fixpoint decode_sets (uuidCount : nat) (format : GtidFormat)
    (data : list byte) (pos currentSetnr : Z) (buf : string)
  : result string :=
  match uuidCount with
  | O => Ok buf
  | S uuidCount' =>
      bind (bytes_between data pos (pos + 16)) (fun d =>
      let uuid := decodeUuid d in
      let pos := pos + 16 in
      bind (match format with
            | GtidFormatTagged =>
                bind (index_byte data pos) (fun b =>
                let tagLength := b / 2 in
                let pos := pos + 1 in
                if tagLength >? 0 then
                  bind (bytes_between data pos (pos + tagLength)) (fun t =>
                  Ok (string_of_list_byte t, pos + tagLength))
                else Ok (EmptyString, pos))
            | GtidFormatClassic => Ok (EmptyString, pos)
            end) (fun '(tag, pos) =>
      let tagged := (0 <? String.length tag)%nat in
      let buf :=
        if tagged then (buf ++ ":" ++ tag)%string
        else
          ((if negb (currentSetnr =? 0)%Z then buf ++ "," else buf)
           ++ uuid)%string in
      let currentSetnr :=
        if tagged then currentSetnr else currentSetnr + 1 in
      bind (bytes_between data pos (pos + 8)) (fun d =>
      bind (binary.Uint16 d) (fun sliceCount =>
      let pos := pos + 8 in
      bind (decode_slices (Z.to_nat sliceCount) data pos buf)
        (fun '(pos, buf) =>
      let currentSetnr :=
        if (String.length tag =? 0)%nat then currentSetnr + 1
        else currentSetnr in
      decode_sets uuidCount' format data pos currentSetnr buf)))))
  end.

(** [PreviousGTIDsEvent.Decode]: the value of [e.GTIDSets].  A count of
    sets beyond what [make] can allocate panics, as the reads past the
    buffer do here. *)
Definition PreviousGTIDsEvent_Decode (data : list byte) : result string :=
  bind (decodeSid data) (fun '(format, uuidCount) =>
  let pos := 8 in
  decode_sets (Z.to_nat uuidCount) format data pos 0 EmptyString).

(** ** JSON binary: variable-length numbers and strings *)

(** The loop of [jsonBinaryDecoder.decodeVariableLength], with [turns]
    turns left before [pos] reaches [maxCount]; [None] stands for the
    error stored in [d.err] (the function then returns [0, 0]). *)
Fixpoint decodeVariableLength_loop (turns : nat) (data : list byte)
    (pos length : Z) : option (Z * Z) :=
  match turns with
  | O => None
  | S turns' =>
      let v := byte_Z (nth (Z.to_nat pos) data Byte.x00) in
      let length := Z.lor length (Z.shiftl (Z.land v 127) (7 * pos)) in
      if Z.land v 128 =? 0 then
        if length >? Int.MaxUint32 then None else Some (length, pos + 1)
      else decodeVariableLength_loop turns' data (pos + 1) length
  end.

(** [jsonBinaryDecoder.decodeVariableLength] *)
Definition decodeVariableLength (data : list byte) : option (Z * Z) :=
  let maxCount := 5%nat in
  let maxCount :=
    if (length data <? maxCount)%nat then length data else maxCount in
  decodeVariableLength_loop maxCount data 0 0.

(** [jsonBinaryDecoder.isDataShort]: the answer and the new value of
    [d.err != nil]. *)
Definition isDataShort (err : bool) (data : list byte) (expected : Z)
  : bool * bool :=
  if err then (true, err)
  else
    let err := Z.of_nat (length data) <? expected in
    (err, err).

(** [jsonBinaryDecoder.decodeString]: the bytes of the string and the
    new value of [d.err != nil]. *)
Definition decodeString (err : bool) (data : list byte)
  : result (list byte * bool) :=
  if err then Ok ([], err)
  else
    let '(l, n, err) :=
      match decodeVariableLength data with
      | Some (l, n) => (l, n, err)
      | None => (0, 0, true)
      end in
    let '(short, err) := isDataShort err data (l + n) in
    if short then Ok ([], err)
    else
      bind (bytes_from data n) (fun data =>
      bind (bytes_between data 0 l) (fun v => Ok (v, err))).

End replication.

(** ** Package client: limits of the connection pool *)

Module client.

(** The fields of [poolOptions] that [NewPoolWithOptions] reads for the
    limits and for the optional first ping. *)
Record poolOptions : Type := mkPoolOptions {
  po_minAlive : Z;
  po_maxAlive : Z;
  po_maxIdle : Z;
  po_newPoolPingTimeout : Z
}.

(** [type PoolOption func(o *poolOptions)] *)
Definition PoolOption : Type := poolOptions -> poolOptions.

(** [getDefaultPoolOptions] *)
Definition getDefaultPoolOptions : poolOptions :=
  {| po_minAlive := 1; po_maxAlive := 10; po_maxIdle := 2;
     po_newPoolPingTimeout := 0 |}.

(** The limits stored in [Pool]. *)
Record Pool : Type := mkPool {
  minAlive : Z;
  maxAlive : Z;
  maxIdle : Z
}.

(** The three [if] statements that clamp the limits. *)
Definition clamp_limits (po : poolOptions) : poolOptions :=
  let po :=
    if po_minAlive po >? po_maxAlive po then
      {| po_minAlive := po_maxAlive po; po_maxAlive := po_maxAlive po;
         po_maxIdle := po_maxIdle po;
         po_newPoolPingTimeout := po_newPoolPingTimeout po |}
    else po in
  let po :=
    if po_maxIdle po >? po_maxAlive po then
      {| po_minAlive := po_minAlive po; po_maxAlive := po_maxAlive po;
         po_maxIdle := po_maxAlive po;
         po_newPoolPingTimeout := po_newPoolPingTimeout po |}
    else po in
  if po_maxIdle po <=? po_minAlive po then
    {| po_minAlive := po_minAlive po; po_maxAlive := po_maxAlive po;
       po_maxIdle := po_minAlive po;
       po_newPoolPingTimeout := po_newPoolPingTimeout po |}
  else po.

(** [NewPoolWithOptions]: the options are applied in order to the
    defaults, the limits are clamped and stored.  [checkConnection]
    is the outcome of the first connect-and-ping ([true]: no error),
    consulted only when [newPoolPingTimeout > 0].  [None] stands for no
    pool being returned: [make([]Connection, 0, pool.maxIdle)] panics
    on a capacity that is negative or whose 16-byte elements exceed the
    address space, and a failed first ping is the error return. *)
Definition NewPoolWithOptions (options : list PoolOption)
    (checkConnection : bool) : option Pool :=
  let po := fold_left (fun po o => o po) options getDefaultPoolOptions in
  let po := clamp_limits po in
  let pool :=
    {| minAlive := po_minAlive po; maxAlive := po_maxAlive po;
       maxIdle := po_maxIdle po |} in
  if (maxIdle pool <? 0) || (16 * maxIdle pool >? Int.MaxInt64) then None
  else if (po_newPoolPingTimeout po >? 0) && negb checkConnection then None
  else Some pool.

(** An option that sets the three limits. *)
Definition set_limits (minAlive maxAlive maxIdle : Z) : PoolOption :=
  fun po =>
    {| po_minAlive := minAlive; po_maxAlive := maxAlive;
       po_maxIdle := maxIdle;
       po_newPoolPingTimeout := po_newPoolPingTimeout po |}.

(** ** The idle list of the pool *)

(** [type Connection struct { conn *Conn; lastUseAt Timestamp }]; a
    [*Conn] is modelled by its address, [None] is [nil]. *)
Record Connection : Type := mkConnection {
  conn : option Z;
  lastUseAt : Z
}.

(** [pool.synchro]: the idle connections, the capacity of that slice
    (it is made with [maxIdle] and never grows) and [stats.TotalCount]. *)
Record synchro : Type := mkSynchro {
  idleConnections : list Connection;
  idleCap : nat;
  TotalCount : Z
}.

Definition MaxNewConnectionAtOnce : Z := 5.

(** [Pool.putConnectionUnsafe]: the new state and the connection that
    was closed, if any. *)
Definition putConnectionUnsafe (s : synchro) (connection : Connection)
  : synchro * option Connection :=
  if (length (idleConnections s) =? idleCap s)%nat then
    ({| idleConnections := idleConnections s; idleCap := idleCap s;
        TotalCount := Int.to_int64 (TotalCount s - 1) |},
     Some connection)
  else
    ({| idleConnections := idleConnections s ++ [connection];
        idleCap := idleCap s; TotalCount := TotalCount s |},
     None).

(** [Pool.getIdleConnectionUnsafe] *)
Definition getIdleConnectionUnsafe (s : synchro) : synchro * Connection :=
  let cnt := length (idleConnections s) in
  match cnt with
  | O => (s, {| conn := None; lastUseAt := 0 |})
  | S last =>
      let connection :=
        nth last (idleConnections s) {| conn := None; lastUseAt := 0 |} in
      ({| idleConnections := firstn last (idleConnections s);
          idleCap := idleCap s; TotalCount := TotalCount s |},
       connection)
  end.

(** The loop of [Pool.getOldIdleConnections], with the index [i] of the
    turn as [turns = i + 1]; [idleCnt] is the length of the slice. *)
Fixpoint getOldIdleConnections_loop (turns : nat)
    (idle dst : list Connection) (checkBefore : Z)
  : list Connection * list Connection :=
  match turns with
  | O => (idle, dst)
  | S i =>
      let zero := {| conn := None; lastUseAt := 0 |} in
      let c := nth i idle zero in
      if lastUseAt c >? checkBefore then
        getOldIdleConnections_loop i idle dst checkBefore
      else
        let dst := dst ++ [c] in
        let last := (length idle - 1)%nat in
        let idle :=
          if (i <? last)%nat
          then <[last := c]> (<[i := nth last idle zero]> idle)
          else idle in
        let idle := firstn last idle in
        getOldIdleConnections_loop i idle dst checkBefore
  end.

(** [Pool.getOldIdleConnections], for [checkBefore = nowTs() -
    idlePingTimeout]: the new state and [dst]. *)
Definition getOldIdleConnections (s : synchro) (checkBefore : Z)
  : synchro * list Connection :=
  let '(idle, dst) :=
    getOldIdleConnections_loop (length (idleConnections s))
      (idleConnections s) [] checkBefore in
  ({| idleConnections := idle; idleCap := idleCap s;
      TotalCount := TotalCount s |}, dst).

(** [Pool.spawnConnectionsIfNeeded]: the number of connections it asks
    [startNewConnections] for, [None] when it returns [false]. *)
Definition spawnConnectionsIfNeeded (pool : Pool) (s : synchro)
  : option Z :=
  let needSpawnNew := Int.to_int64 (minAlive pool - TotalCount s) in
  if needSpawnNew <=? 0 then None
  else
    Some (if needSpawnNew >? MaxNewConnectionAtOnce
          then MaxNewConnectionAtOnce else needSpawnNew).

(** [Pool.closeConn], on the counter. *)
Definition closeConn (s : synchro) : synchro :=
  {| idleConnections := idleConnections s; idleCap := idleCap s;
     TotalCount := Int.to_int64 (TotalCount s - 1) |}.

(** [Pool.closeIdleConnectionsIfCan]: the new state, after [closeConn]
    of every connection taken off the idle list, and those
    connections. *)
Definition closeIdleConnectionsIfCan (pool : Pool) (s : synchro)
  : synchro * list Connection :=
  let canCloseCnt := Int.to_int64 (TotalCount s - minAlive pool) in
  let canCloseCnt := Int.to_int64 (canCloseCnt - 1) in
  let idleCnt := Z.of_nat (length (idleConnections s)) in
  let idleCanCloseCnt := Z.quot idleCnt 10 in
  let idleCanCloseCnt :=
    if idleCanCloseCnt =? 0 then 1 else idleCanCloseCnt in
  let canCloseCnt :=
    if canCloseCnt >? idleCanCloseCnt then idleCanCloseCnt
    else canCloseCnt in
  if canCloseCnt <=? 0 then (s, [])
  else
    let closeFromIdx := idleCnt - canCloseCnt in
    let closeFromIdx := if closeFromIdx <? 0 then 0 else closeFromIdx in
    let toClose := skipn (Z.to_nat closeFromIdx) (idleConnections s) in
    let s :=
      {| idleConnections := firstn (Z.to_nat closeFromIdx) (idleConnections s);
         idleCap := idleCap s; TotalCount := TotalCount s |} in
    (fold_left (fun s _ => closeConn s) toClose s, toClose).

End client.

(** ** Sample inputs *)

Module samples.

Import go mysql replication.

Definition sample_sid : uuid.UUID :=
  [x3e; x11; xfa; x47; x71; xca; x11; xe1; x9e; x33; xc8; x0a; xa9; x42;
   x95; x62]%byte.

(** a stand-in for the Unicode slow paths of [TrimSpace], which ASCII
    text never reaches *)
Definition no_trim (s : string) : string := s.

(** Body of a format description event: binlog version 4, the server
    version padded to 50 bytes, a creation time, header length 19, three
    per-event header lengths, then the checksum algorithm byte 1 (CRC32)
    and four checksum bytes. *)
Definition fde_body (serverVersion : string) : list byte :=
  [x04; x00]%byte
  ++ firstn 50 (list_byte_of_string serverVersion ++ repeat x00%byte 50)
  ++ [x00; x00; x00; x00; x13]%byte
  ++ [x38; x0d; x00]%byte
  ++ [x01; xaa; xbb; xcc; xdd]%byte.

(** a length prefix of one byte, enough for the examples *)
Definition one_byte_length (data : list byte) : result (Z * bool * Z) :=
  match data with
  | [] => Ok (0, true, 0)
  | b :: _ => Ok (byte_Z b, false, 1)
  end.

Definition keep_bytes (data : list byte) : unit + list byte := inr data.

(** a message as [Unmarshal] leaves it when both optional fields were
    absent from the bytes *)
Definition filled : Message :=
  let field name type optional skipped :=
    {| Name := name; Type_ := type; Optional := optional;
       Skipped := skipped |} in
  [ field "gtid_flags"%string (Some (FieldIntFixed 1 [x01%byte])) false false;
    field "uuid"%string (Some (FieldIntFixed 16 (repeat x07%byte 16))) false false;
    field "gno"%string (Some (FieldIntVar 42)) false false;
    field "tag"%string (Some (FieldString "blue")) false false;
    field "last_committed"%string (Some (FieldIntVar 5)) false false;
    field "sequence_number"%string (Some (FieldIntVar 6)) false false;
    field "immediate_commit_timestamp"%string
      (Some (FieldUintVar 1700000000000000)) false false;
    field "original_commit_timestamp"%string (Some (FieldUintVar 0)) true true;
    field "transaction_length"%string (Some (FieldUintVar 300)) false false;
    field "immediate_server_version"%string
      (Some (FieldUintVar 80300)) false false;
    field "original_server_version"%string (Some (FieldUintVar 0)) true true;
    field "commit_group_ticket"%string None true true ].

Definition unmarshal_filled (data : list byte) (msg : Message)
  : option Message := Some filled.

Definition find_field (msg : Message) (name : string) : option Field :=
  List.find (fun f => String.eqb (Name f) name) msg.

End samples.

(** * Properties *)

Import Int mysql.

(** ** Machine integers *)

Lemma is_int64b_spec z : is_int64b z = true <-> is_int64 z.
Proof.
  unfold is_int64b, is_int64. rewrite andb_true_iff, !Z.leb_le. tauto.
Qed.

Lemma to_int64_id z : is_int64 z -> to_int64 z = z.
Proof.
  unfold is_int64, to_int64, MinInt64, MaxInt64. intros H.
  rewrite Z.mod_small by lia. lia.
Qed.

Lemma to_int64_range z : is_int64 (to_int64 z).
Proof.
  unfold is_int64, to_int64, MinInt64, MaxInt64.
  pose proof (Z.mod_pos_bound (z + 2 ^ 63) (2 ^ 64) ltac:(lia)). lia.
Qed.

Lemma to_int64_to_uint64 z : is_int64 z -> to_int64 (to_uint64 z) = z.
Proof.
  unfold is_int64, to_int64, to_uint64, MinInt64, MaxInt64. intros H.
  destruct (Z.neg_nonneg_cases z) as [Hz|Hz].
  - replace (z mod 2 ^ 64) with (z + 2 ^ 64).
    + replace (z + 2 ^ 64 + 2 ^ 63) with (z + 2 ^ 63 + 1 * 2 ^ 64) by lia.
      rewrite Z.mod_add by lia. rewrite Z.mod_small by lia. lia.
    + apply Z.mod_unique with (q := -1); lia.
  - rewrite (Z.mod_small z) by lia. rewrite Z.mod_small by lia. lia.
Qed.

(** ** Sorting *)

Section GenericSort.

Import gosort.

Context {A : Type} (less : A -> A -> bool).
Hypothesis less_asym : forall a b, less a b = true -> less b a = false.
Hypothesis less_antisym :
  forall a b, less a b = false -> less b a = false -> a = b.
Hypothesis less_trans :
  forall a b c, less b a = false -> less c b = false -> less c a = false.

Implicit Types (a b x y : A) (l s : list A).

Lemma sorted_tail a l : sorted less (a :: l) -> sorted less l.
Proof. destruct l; simpl; tauto. Qed.

Lemma sorted_head a l :
  sorted less (a :: l) -> Forall (fun b => less b a = false) l.
Proof using less_trans.
  revert a. induction l as [|b l IH]; intros a H; constructor.
  - apply H.
  - destruct H as [Hab Hl]. specialize (IH b Hl).
    eapply List.Forall_impl; [| exact IH]. simpl. intros c Hc.
    eapply less_trans; eauto.
Qed.

Lemma insert_perm x l : Permutation (insert less x l) (x :: l).
Proof.
  induction l as [|y l IH]; simpl; [reflexivity |].
  destruct (less y x); [| reflexivity].
  rewrite IH. apply perm_swap.
Qed.

Lemma Sort_perm s : Permutation (Sort less s) s.
Proof.
  induction s as [|x s IH]; simpl; [reflexivity |].
  rewrite insert_perm. now constructor.
Qed.

Lemma insert_sorted x l : sorted less l -> sorted less (insert less x l).
Proof using less_asym.
  induction l as [|y l IH]; simpl; [trivial |]. intros Hl.
  destruct (less y x) eqn:E.
  - specialize (IH (sorted_tail _ _ Hl)).
    apply less_asym in E.
    destruct l as [|z l]; simpl in *; [tauto |].
    destruct (less z x) eqn:E2; simpl; tauto.
  - simpl. split; [exact E | exact Hl].
Qed.

Lemma Sort_sorted s : sorted less (Sort less s).
Proof using less_asym.
  induction s as [|x s IH]; simpl; [trivial |].
  now apply insert_sorted.
Qed.

Lemma Sort_of_sorted s : sorted less s -> Sort less s = s.
Proof.
  induction s as [|x s IH]; simpl; [reflexivity |]. intros H.
  rewrite IH by (eapply sorted_tail; eauto).
  destruct s as [|y s]; simpl; [reflexivity |].
  destruct H as [H _]. now rewrite H.
Qed.

(** Two sorted arrangements of the same elements coincide, so the result
    of [Sort] does not depend on the sorting algorithm. *)
Lemma sorted_perm_eq l1 l2 :
  sorted less l1 -> sorted less l2 -> Permutation l1 l2 -> l1 = l2.
Proof using less_antisym less_trans.
  revert l2. induction l1 as [|a l1 IH]; intros l2 H1 H2 HP.
  - now apply Permutation_nil in HP.
  - destruct l2 as [|b l2].
    + symmetry in HP. now apply Permutation_nil in HP.
    + assert (a = b) as ->.
      { pose proof (sorted_head _ _ H1) as F1.
        pose proof (sorted_head _ _ H2) as F2.
        rewrite List.Forall_forall in F1, F2.
        assert (In b (a :: l1)) as [->|Hb]
          by (eapply Permutation_in; [symmetry; exact HP | now left]);
          [reflexivity |].
        assert (In a (b :: l2)) as [->|Ha]
          by (eapply Permutation_in; [exact HP | now left]);
          [reflexivity |].
        apply less_antisym; [apply F2 | apply F1]; assumption. }
      f_equal. apply IH.
      * eapply sorted_tail; eauto.
      * eapply sorted_tail; eauto.
      * eapply Permutation_cons_inv; eauto.
Qed.

Lemma Sort_unique s s' :
  Permutation s s' -> sorted less s' -> Sort less s = s'.
Proof using less_asym less_antisym less_trans.
  intros HP Hs. apply sorted_perm_eq; [apply Sort_sorted | exact Hs |].
  rewrite Sort_perm. exact HP.
Qed.

Lemma Sort_perm_eq s s' : Permutation s s' -> Sort less s = Sort less s'.
Proof using less_asym less_antisym less_trans.
  intros HP. apply Sort_unique; [| apply Sort_sorted].
  rewrite HP. symmetry. apply Sort_perm.
Qed.

End GenericSort.

Section Sorting.

Implicit Types (a b c x y : Interval) (l s : IntervalSlice).

Lemma Less_false_iff a b :
  Less b a = false <->
  Start a < Start b \/ (Start a = Start b /\ Stop a <= Stop b).
Proof.
  unfold Less.
  destruct (Z.ltb_spec (Start b) (Start a));
    [split; intros; [discriminate | lia] |].
  destruct (Z.gtb_spec (Start b) (Start a));
    [split; intros; [lia | reflexivity] |].
  rewrite Z.ltb_ge. lia.
Qed.

Lemma Less_true_iff a b :
  Less a b = true <->
  Start a < Start b \/ (Start a = Start b /\ Stop a < Stop b).
Proof.
  unfold Less.
  destruct (Z.ltb_spec (Start a) (Start b));
    [split; intros; [lia | reflexivity] |].
  destruct (Z.gtb_spec (Start a) (Start b));
    [split; intros; [discriminate | lia] |].
  rewrite Z.ltb_lt. lia.
Qed.

Lemma Less_asym a b : Less a b = true -> Less b a = false.
Proof. rewrite Less_true_iff, Less_false_iff. lia. Qed.

Lemma Less_antisym a b : Less a b = false -> Less b a = false -> a = b.
Proof.
  intros H1 H2. apply Less_false_iff in H1, H2.
  destruct a as [a1 a2], b as [b1 b2]; simpl in *. f_equal; lia.
Qed.

Lemma Less_trans a b c :
  Less b a = false -> Less c b = false -> Less c a = false.
Proof. rewrite !Less_false_iff. lia. Qed.

Lemma Less_sorted_tail a l : Less_sorted (a :: l) -> Less_sorted l.
Proof. apply sorted_tail. Qed.

Lemma Sort_Less_perm s : Permutation (Sort s) s.
Proof. apply Sort_perm. Qed.

Lemma Sort_Less_sorted s : Less_sorted (Sort s).
Proof. apply Sort_sorted, Less_asym. Qed.

Lemma Sort_Less_of_sorted s : Less_sorted s -> Sort s = s.
Proof. apply Sort_of_sorted. Qed.

(** The sorted arrangement under [Less] is unique. *)
Lemma Sort_Less_unique s s' : Permutation s s' -> Less_sorted s' -> Sort s = s'.
Proof. apply Sort_unique; [apply Less_asym | apply Less_antisym | apply Less_trans]. Qed.

End Sorting.

(** ** Normalize *)

Section Normalization.

Implicit Types (a b l x y : Interval) (n s : IntervalSlice) (p : Z).

Lemma Normalize_loop_app s : forall n l,
  Normalize_loop (n ++ [l]) s = n ++ merge_from l s.
Proof.
  induction s as [|si s IH]; intros n l; simpl; [reflexivity |].
  unfold last_of, set_last. rewrite last_last, removelast_last.
  destruct (Start si >? Stop l).
  - rewrite IH, <- app_assoc. reflexivity.
  - apply IH.
Qed.

Lemma Normalize_merge s :
  Normalize s =
  match Sort s with [] => [] | s0 :: rest => merge_from s0 rest end.
Proof.
  destruct s as [|x s]; [reflexivity |]. unfold Normalize.
  destruct (Sort (x :: s)) as [|s0 rest]; [reflexivity |].
  apply (Normalize_loop_app rest [] s0).
Qed.

Lemma covers_app s1 s2 p : covers (s1 ++ s2) p = covers s1 p || covers s2 p.
Proof. apply existsb_app. Qed.

Lemma covers_true s p :
  covers s p = true <-> exists i, In i s /\ Start i <= p < Stop i.
Proof.
  unfold covers. rewrite existsb_exists. unfold contains_point.
  split; intros (i & Hi & H); exists i; split; auto.
  - apply andb_true_iff in H. lia.
  - apply andb_true_iff. split; [apply Z.leb_le | apply Z.ltb_lt]; lia.
Qed.

Lemma covers_perm s s' p : Permutation s s' -> covers s p = covers s' p.
Proof.
  intros HP. apply eq_true_iff_eq. rewrite !covers_true.
  split; intros (i & Hi & H); exists i; split; auto.
  - eapply Permutation_in; eauto.
  - eapply Permutation_in; [symmetry |]; eauto.
Qed.

Lemma Less_sorted_start_sorted s : Less_sorted s -> start_sorted s.
Proof.
  induction s as [|a [|b s] IH]; simpl; auto.
  intros [H Hs]. split; [| now apply IH].
  apply Less_false_iff in H. lia.
Qed.

Lemma start_sorted_head a s :
  start_sorted (a :: s) -> Forall (fun b => Start a <= Start b) s.
Proof.
  revert a. induction s as [|b s IH]; intros a H; constructor.
  - apply H.
  - destruct H as [Hab Hs].
    eapply List.Forall_impl; [| exact (IH b Hs)]. simpl. lia.
Qed.

Lemma merge_from_covers s : forall l p,
  start_sorted (l :: s) -> covers (merge_from l s) p = covers (l :: s) p.
Proof.
  induction s as [|x s IH]; intros l p Hs; [reflexivity |].
  destruct Hs as [Hlx Hs]. simpl merge_from.
  destruct (Z.gtb_spec (Start x) (Stop l)) as [Hgt|Hle].
  - change (covers (l :: merge_from x s) p)
      with (contains_point l p || covers (merge_from x s) p).
    rewrite IH by exact Hs. reflexivity.
  - rewrite IH.
    + change (contains_point
                (mkInterval (Start l)
                   (if Stop l >? Stop x then Stop l else Stop x)) p
              || covers s p
              = contains_point l p || (contains_point x p || covers s p)).
      rewrite orb_assoc. f_equal. unfold contains_point. simpl.
      destruct (Z.gtb_spec (Stop l) (Stop x));
        destruct (Z.leb_spec (Start l) p); destruct (Z.leb_spec (Start x) p);
        destruct (Z.ltb_spec p (Stop l)); destruct (Z.ltb_spec p (Stop x));
        simpl; try reflexivity; lia.
    + destruct s as [|y s]; simpl in *; [trivial |]. split; [lia | tauto].
Qed.

(** The running interval keeps its start, never shrinks, and the slice
    produced is sorted under [Less] with a gap between neighbours. *)
Lemma merge_from_shape s : forall l,
  Less_sorted s ->
  match s with
  | x :: _ => Start l <= Start x /\ (Less x l = false \/ Start l <= Stop l)
  | [] => True
  end ->
  exists stop' rest,
    merge_from l s = mkInterval (Start l) stop' :: rest /\
    Stop l <= stop' /\
    Less_sorted (merge_from l s) /\ separated (merge_from l s).
Proof.
  induction s as [|x s IH]; intros l Hs Hl.
  - exists (Stop l), []. destruct l; simpl. repeat split; lia.
  - destruct Hl as [Hlx Hor]. simpl merge_from.
    destruct (Z.gtb_spec (Start x) (Stop l)) as [Hgt|Hle].
    + destruct (IH x) as (st & rest & E & Hst & HL & HS).
      * eapply Less_sorted_tail; eauto.
      * destruct s as [|y s]; [trivial |]. destruct Hs as [Hyx _].
        split; [| now left]. apply Less_false_iff in Hyx. lia.
      * exists (Stop l), (merge_from x s). destruct l as [l1 l2]; simpl in *.
        split; [reflexivity |]. split; [lia |]. rewrite E in *.
        simpl. repeat split; auto.
        apply Less_false_iff. simpl.
        destruct Hor as [Hor|Hor]; [apply Less_false_iff in Hor; simpl in Hor |];
          lia.
    + destruct (IH (mkInterval (Start l)
                      (if Stop l >? Stop x then Stop l else Stop x)))
        as (st & rest & E & Hst & HL & HS).
      * eapply Less_sorted_tail; eauto.
      * destruct s as [|y s]; [trivial |]. destruct Hs as [Hyx _].
        apply Less_false_iff in Hyx. simpl.
        destruct (Z.gtb_spec (Stop l) (Stop x)); split; try lia; right; lia.
      * exists st, rest. simpl in E, Hst. repeat split; auto.
        destruct (Z.gtb_spec (Stop l) (Stop x)); lia.
Qed.

Lemma merge_from_fixed s : forall l, separated (l :: s) -> merge_from l s = l :: s.
Proof.
  induction s as [|x s IH]; intros l H; [reflexivity |].
  destruct H as [Hlx Hs]. simpl.
  destruct (Z.gtb_spec (Start x) (Stop l)); [| lia].
  now rewrite IH.
Qed.

Lemma Normalize_shape s : Less_sorted (Normalize s) /\ separated (Normalize s).
Proof.
  rewrite Normalize_merge. pose proof (Sort_Less_sorted s) as Hs.
  destruct (Sort s) as [|s0 rest]; [simpl; tauto |].
  destruct (merge_from_shape rest s0) as (st & r & _ & _ & HL & HS); auto.
  - eapply Less_sorted_tail; eauto.
  - destruct rest as [|x rest]; [trivial |]. destruct Hs as [Hx _].
    split; [| now left]. apply Less_false_iff in Hx. lia.
Qed.

Lemma Normalize_covers s p : covers (Normalize s) p = covers s p.
Proof.
  rewrite Normalize_merge. pose proof (Sort_Less_sorted s) as Hs.
  rewrite <- (covers_perm _ _ p (Sort_Less_perm s)).
  destruct (Sort s) as [|s0 rest]; [reflexivity |].
  apply merge_from_covers. now apply Less_sorted_start_sorted.
Qed.

(** A slice already in normal form is returned as it is. *)
Lemma Normalize_fixed s : Less_sorted s -> separated s -> Normalize s = s.
Proof.
  intros HL HS. rewrite Normalize_merge, (Sort_Less_of_sorted s HL).
  destruct s as [|s0 rest]; [reflexivity |]. now apply merge_from_fixed.
Qed.

Lemma separated_tail a s : separated (a :: s) -> separated s.
Proof. destruct s; simpl; tauto. Qed.

Lemma start_sorted_tail a s : start_sorted (a :: s) -> start_sorted s.
Proof. destruct s; simpl; tauto. Qed.

Lemma head_disjoint a s b p :
  start_sorted (a :: s) -> separated (a :: s) -> In b s ->
  contains_point a p = true -> contains_point b p = true -> False.
Proof.
  intros HS HG Hb Ha Hp. destruct s as [|b1 s]; [destruct Hb |].
  destruct HS as [_ HS], HG as [HG _].
  assert (Start b1 <= Start b).
  { destruct Hb as [->|Hb]; [lia |].
    pose proof (start_sorted_head _ _ HS) as F.
    rewrite List.Forall_forall in F. now apply F. }
  unfold contains_point in *. apply andb_true_iff in Ha, Hp. lia.
Qed.

Lemma normalized_pairwise_disjoint s :
  start_sorted s -> separated s -> pairwise_disjoint s.
Proof.
  induction s as [|a s IH]; intros HS HG i j x y p Hij Hi Hj [Hx Hy].
  - destruct i; discriminate.
  - destruct i as [|i], j as [|j]; simpl in Hi, Hj.
    + congruence.
    + injection Hi as <-. apply nth_error_In in Hj.
      eapply head_disjoint; eauto.
    + injection Hj as <-. apply nth_error_In in Hi.
      eapply head_disjoint; eauto.
    + eapply (IH (start_sorted_tail _ _ HS) (separated_tail _ _ HG) i j);
        eauto.
Qed.

End Normalization.

Example Normalize_scenario :
  Normalize [mkInterval 1 3; mkInterval 2 5; mkInterval 7 8; mkInterval 8 9]
  = [mkInterval 1 5; mkInterval 7 9].
Proof. reflexivity. Qed.

Example Normalize_unsorted :
  Normalize [mkInterval 7 9; mkInterval 1 3; mkInterval 4 6; mkInterval 3 4]
  = [mkInterval 1 6; mkInterval 7 9].
Proof. reflexivity. Qed.

(** C2: for every slice [s], [Normalize s] is normalized (starts
    ascending, neighbours separated by a gap so that touching intervals
    are merged, intervals pairwise disjoint), covers exactly the points
    of [s], and is a fixed point of [Normalize]. *)
Theorem Normalize_normalized_sound_idempotent (s : IntervalSlice) :
  normalized (Normalize s) /\
  (forall p : Z, covers (Normalize s) p = true <-> covers s p = true) /\
  Normalize (Normalize s) = Normalize s.
Proof.
  destruct (Normalize_shape s) as [HL HS].
  pose proof (Less_sorted_start_sorted _ HL) as HSt.
  split; [| split].
  - split; [exact HSt |]. split; [exact HS |].
    now apply normalized_pairwise_disjoint.
  - intros p. now rewrite Normalize_covers.
  - now apply Normalize_fixed.
Qed.

(** ** MinusInterval and Contain *)

Section Minus.

Implicit Types (a b h m x y : Interval) (n s si sj sub : IntervalSlice) (p : Z).

Ltac cmp :=
  repeat match goal with
         | |- context [Z.leb ?u ?v] => destruct (Z.leb_spec u v)
         | |- context [Z.ltb ?u ?v] => destruct (Z.ltb_spec u v)
         | |- context [Z.geb ?u ?v] => destruct (Z.geb_spec u v)
         | |- context [Z.gtb ?u ?v] => destruct (Z.gtb_spec u v)
         | |- context [Z.eqb ?u ?v] => destruct (Z.eqb_spec u v)
         end; cbn [andb orb negb].

Ltac fa := repeat first [apply List.Forall_nil | apply List.Forall_cons].

Lemma valid_tail a s : valid (a :: s) -> valid s.
Proof. intros H. now inversion H. Qed.

Lemma valid_separated_head a s :
  valid (a :: s) -> separated (a :: s) -> Forall (fun b => Stop a < Start b) s.
Proof.
  revert a. induction s as [|b s IH]; intros a HV HS; constructor.
  - apply HS.
  - destruct HS as [Hab HS]. apply valid_tail in HV.
    assert (Start b < Stop b) by now inversion HV.
    eapply List.Forall_impl; [| exact (IH b HV HS)]. simpl. lia.
Qed.

Lemma valid_separated_Less_sorted s : valid s -> separated s -> Less_sorted s.
Proof.
  induction s as [|a [|b s] IH]; simpl; auto. intros HV [Hab HS].
  split; [| apply IH; [eapply valid_tail; eauto | exact HS]].
  apply Less_false_iff. inversion HV; subst. lia.
Qed.

Lemma valid_separated_apart s h1 h2 :
  valid s -> separated s -> In h1 s -> In h2 s ->
  h1 = h2 \/ Stop h1 < Start h2 \/ Stop h2 < Start h1.
Proof.
  induction s as [|a s IH]; intros HV HS H1 H2; [destruct H1 |].
  pose proof (valid_separated_head _ _ HV HS) as F.
  rewrite List.Forall_forall in F.
  destruct H1 as [->|H1], H2 as [->|H2]; auto.
  apply IH; auto; [eapply valid_tail | eapply separated_tail]; eauto.
Qed.

Lemma separated_app_r d s : separated (d ++ s) -> separated s.
Proof.
  induction d as [|a d IH]; simpl app; [trivial |].
  intros H. apply IH. eapply separated_tail; eauto.
Qed.

Lemma within_tail a s x : within s x -> within (a :: s) x.
Proof. intros (h & Hh & H). exists h. split; [now right | exact H]. Qed.

Lemma MinusInterval_loop_spec : forall fuel m si sj n,
  (length si + length sj < fuel)%nat ->
  valid si -> separated si -> Forall (fun i => Stop i <= MaxInt64) si ->
  valid sj -> separated sj ->
  head_inv m si ->
  exists pieces,
    MinusInterval_loop fuel m si sj n = Returns (n ++ pieces) /\
    Forall (within si) pieces /\
    Forall (fun x => forall b, In b sj -> apart x b) pieces /\
    match si with
    | h :: _ => Forall (fun x => Start (reload m h) <= Start x) pieces
    | [] => True
    end.
Proof.
  induction fuel as [|fuel IH]; intros m si sj n Hfuel HVi HSi HRi HVj HSj Hm;
    [lia |].
  destruct si as [|h si'].
  { exists []. rewrite app_nil_r. repeat split; constructor. }
  cbn [MinusInterval_loop].
  assert (He : Stop (reload m h) = Stop h /\
               Start h <= Start (reload m h) <= Stop (reload m h)).
  { unfold reload. inversion HVi; subst. simpl in Hm.
    destruct (Z.eqb_spec (Stop m) (Stop h)); simpl; lia. }
  set (e := reload m h) in *. destruct He as [HeS He].
  assert (Hh : Start h < Stop h) by now inversion HVi.
  assert (Hmax : Stop h <= MaxInt64) by now inversion HRi.
  pose proof (valid_tail _ _ HVi) as HVi'.
  pose proof (separated_tail _ _ HSi) as HSi'.
  assert (HRi' : Forall (fun i => Stop i <= MaxInt64) si') by now inversion HRi.
  pose proof (valid_separated_head _ _ HVi HSi) as Hafter.
  (* consequences of the induction hypothesis for the two kinds of step *)
  assert (Hnext : forall m' extra,
    Stop m' = Stop h ->
    Forall (within (h :: si')) extra ->
    Forall (fun x => forall b, In b sj -> apart x b) extra ->
    Forall (fun x => Start e <= Start x) extra ->
    exists pieces,
      MinusInterval_loop fuel m' si' sj (n ++ extra) = Returns (n ++ pieces) /\
      Forall (within (h :: si')) pieces /\
      Forall (fun x => forall b, In b sj -> apart x b) pieces /\
      Forall (fun x => Start e <= Start x) pieces).
  { intros m' extra Hm' Hx1 Hx2 Hx3.
    destruct (IH m' si' sj (n ++ extra)) as (ps & E & P1 & P2 & _); auto.
    - simpl in Hfuel. lia.
    - destruct si' as [|h' si'']; simpl; [trivial |]. intros Heq.
      assert (Stop h < Start h') by now inversion Hafter.
      assert (Start h' < Stop h') by now inversion HVi'. lia.
    - exists (extra ++ ps). rewrite app_assoc. split; [exact E |].
      rewrite !Forall_app. repeat split; auto.
      + eapply List.Forall_impl; [| exact P1]. apply within_tail.
      + rewrite List.Forall_forall in P1, Hafter |- *. intros x Hx.
        destruct (P1 x Hx) as (h'' & Hin & Hb & _). specialize (Hafter h'' Hin).
        lia. }
  destruct sj as [|sub sj'].
  - (* j >= len(in): the subtrahend is the sentinel *)
    cbn [Start Stop]. destruct (Z.leb_spec (Stop e) MaxInt64); [| lia].
    apply (Hnext e [e]); auto; fa.
    + exists h. split; [now left | lia].
    + intros b [].
    + lia.
  - assert (HVj' := valid_tail _ _ HVj).
    assert (HSj' := separated_tail _ _ HSj).
    assert (Hsub : Start sub < Stop sub) by now inversion HVj.
    pose proof (valid_separated_head _ _ HVj HSj) as Hlater.
    rewrite List.Forall_forall in Hlater.
    assert (Hstay : forall m' extra,
      Stop m' = Stop h -> Start h <= Start m' <= Stop m' ->
      Stop sub <= Start m' -> Start e <= Start m' ->
      Forall (within (h :: si')) extra ->
      Forall (fun x => forall b, In b (sub :: sj') -> apart x b) extra ->
      Forall (fun x => Start e <= Start x) extra ->
      exists pieces,
        MinusInterval_loop fuel m' (h :: si') sj' (n ++ extra)
          = Returns (n ++ pieces) /\
        Forall (within (h :: si')) pieces /\
        Forall (fun x => forall b, In b (sub :: sj') -> apart x b) pieces /\
        Forall (fun x => Start e <= Start x) pieces).
    { intros m' extra Hm1 Hm2 Hm3 Hm4 Hx1 Hx2 Hx3.
      destruct (IH m' (h :: si') sj' (n ++ extra)) as (ps & E & P1 & P2 & P3);
        auto.
      - simpl in Hfuel |- *. lia.
      - simpl. intros _. exact Hm2.
      - assert (Er : reload m' h = m').
        { unfold reload. destruct (Z.eqb_spec (Stop m') (Stop h)); simpl; auto.
          contradiction. }
        rewrite Er in P3.
        exists (extra ++ ps). rewrite app_assoc. split; [exact E |].
        rewrite !Forall_app. repeat split; auto.
        + rewrite List.Forall_forall in P2, P3 |- *. intros x Hx b [<-|Hb].
          * right. specialize (P3 x Hx). lia.
          * now apply P2.
        + eapply List.Forall_impl; [| exact P3]. simpl. lia. }
    cbn [tl].
    destruct (Z.leb_spec (Stop e) (Start sub)).
    { apply (Hnext e [e]); auto; fa.
      - exists h. split; [now left | lia].
      - intros b [<-|Hb]; left; [lia |]. specialize (Hlater b Hb). lia.
      - lia. }
    destruct (Z.geb_spec (Start e) (Stop sub)).
    { destruct (Hstay e []) as (ps & E & P); auto; try lia; fa.
      rewrite app_nil_r in E. exists ps. split; [exact E | exact P]. }
    destruct (Z.ltb_spec (Start e) (Start sub));
      destruct (Z.leb_spec (Stop e) (Stop sub));
      destruct (Z.geb_spec (Start e) (Start sub));
      destruct (Z.gtb_spec (Stop e) (Stop sub));
      cbn [andb]; try lia.
    + (* left part survives, i++ *)
      apply (Hnext e [mkInterval (Start e) (Start sub)]); auto;
        fa; simpl; try lia.
      * exists h. split; [now left | simpl; lia].
      * intros b [<-|Hb]; left; simpl; [lia |]. specialize (Hlater b Hb). lia.
    + (* split: left part survives, right part is the new minuend *)
      apply (Hstay (mkInterval (Stop sub) (Stop e))
               [mkInterval (Start e) (Start sub)]); simpl; auto; try lia;
        fa; simpl; try lia.
      * exists h. split; [now left | simpl; lia].
      * intros b [<-|Hb]; left; simpl; [lia |]. specialize (Hlater b Hb). lia.
    + (* minuend is completely removed, i++ *)
      destruct (Hnext e []) as (ps & E & P); auto; fa.
      rewrite app_nil_r in E. exists ps. split; [exact E | exact P].
    + (* right part is the new minuend *)
      destruct (Hstay (mkInterval (Stop sub) (Stop e)) []) as (ps & E & P);
        simpl; auto; try lia; fa.
      rewrite app_nil_r in E. exists ps. split; [exact E | exact P].
Qed.

Lemma MinusInterval_loop_returns : forall fuel m si sj n,
  (length si + length sj < fuel)%nat ->
  Forall (fun i => Stop i <= MaxInt64) si ->
  exists r, MinusInterval_loop fuel m si sj n = Returns r.
Proof.
  induction fuel as [|fuel IH]; intros m si sj n Hfuel HR; [lia |].
  destruct si as [|h si']; [now exists n |].
  cbn [MinusInterval_loop].
  assert (He : Stop (reload m h) <= MaxInt64).
  { unfold reload. inversion HR; subst.
    destruct (Z.eqb_spec (Stop m) (Stop h)); simpl; lia. }
  set (e := reload m h) in *.
  assert (HR' : Forall (fun i => Stop i <= MaxInt64) si') by now inversion HR.
  simpl in Hfuel.
  destruct sj as [|sub sj']; cbn [Start Stop tl].
  - destruct (Z.leb_spec (Stop e) MaxInt64); [| lia]. apply IH; [lia | auto].
  - simpl in Hfuel.
    destruct (Z.leb_spec (Stop e) (Start sub)); [apply IH; [simpl; lia | auto] |].
    destruct (Z.geb_spec (Start e) (Stop sub)); [apply IH; [simpl; lia | auto] |].
    destruct (Z.ltb_spec (Start e) (Start sub));
      destruct (Z.leb_spec (Stop e) (Stop sub));
      destruct (Z.geb_spec (Start e) (Start sub));
      destruct (Z.gtb_spec (Stop e) (Stop sub));
      cbn [andb]; try lia; apply IH; simpl; auto; lia.
Qed.

(** [MinusInterval] returns on every pair of slices of [int64] values:
    the fuel is enough and the [panic] is never reached. *)
Lemma MinusInterval_returns s in_ :
  int64_slice s -> exists r, MinusInterval s in_ = Returns r.
Proof.
  intros HR. unfold MinusInterval.
  destruct (MinusInterval_loop_returns
              (S (length s + length (Normalize in_))) (mkInterval 0 0) s
              (Normalize in_) []) as (r & E).
  - lia.
  - eapply List.Forall_impl; [| exact HR]. unfold is_int64. simpl. tauto.
  - rewrite E. eauto.
Qed.

Lemma Contain_skip_spec (z : Z) s :
  exists d, s = d ++ Contain_skip z s /\
            Forall (fun h => Stop h < z) d /\
            match Contain_skip z s with
            | sj :: _ => z <= Stop sj
            | [] => True
            end.
Proof.
  induction s as [|sj s IH]; simpl.
  - exists []. repeat split. constructor.
  - destruct (Z.gtb_spec z (Stop sj)).
    + destruct IH as (d & E & F & H'). exists (sj :: d). simpl.
      split; [now f_equal |]. split; [constructor; [lia | exact F] | exact H'].
    + exists []. repeat split; [constructor | lia].
Qed.

Lemma valid_app_r d s : valid (d ++ s) -> valid s.
Proof. unfold valid. rewrite Forall_app. tauto. Qed.

(** [Contain] accepts every ascending list of pieces that each lie
    inside one interval of a normalized slice. *)
Lemma Contain_within : forall sub s,
  valid s -> separated s -> start_sorted sub -> Forall (within s) sub ->
  Contain s sub = true.
Proof.
  induction sub as [|x sub IH]; intros s HV HS Hsub HW; [reflexivity |].
  cbn [Contain].
  destruct (Contain_skip_spec (Start x) s) as (d & E & Hd & Hstop).
  assert (HV' : valid (Contain_skip (Start x) s))
    by (apply (valid_app_r d); now rewrite <- E).
  assert (HS' : separated (Contain_skip (Start x) s))
    by (apply (separated_app_r d); now rewrite <- E).
  assert (Hkeep : forall y, Start x <= Start y -> within s y ->
                            within (Contain_skip (Start x) s) y).
  { intros y Hxy (h & Hin & H1 & H2 & H3). exists h. split; [| lia].
    rewrite E in Hin. apply in_app_or in Hin. destruct Hin as [Hin|Hin]; auto.
    rewrite List.Forall_forall in Hd. specialize (Hd h Hin). lia. }
  assert (Hx : within (Contain_skip (Start x) s) x)
    by (apply Hkeep; [lia | now inversion HW]).
  destruct (Contain_skip (Start x) s) as [|sj s'] eqn:Es.
  - destruct Hx as (h & [] & _).
  - destruct Hx as (h & Hin & H1 & H2 & H3).
    assert (h = sj) as ->.
    { destruct Hin as [Hin|Hin]; [now symmetry |].
      pose proof (valid_separated_head _ _ HV' HS') as F.
      rewrite List.Forall_forall in F. specialize (F h Hin). lia. }
    destruct (Z.ltb_spec (Start x) (Start sj)); [lia |].
    destruct (Z.gtb_spec (Stop x) (Stop sj)); [lia |]. cbn [orb].
    apply IH; auto.
    + eapply start_sorted_tail; eauto.
    + pose proof (start_sorted_head _ _ Hsub) as F.
      inversion HW as [|? ? _ HW']; subst.
      rewrite List.Forall_forall in F, HW' |- *. intros y Hy.
      apply Hkeep; auto.
Qed.

Lemma merge_from_within (a : IntervalSlice) s : forall l,
  valid a -> separated a -> start_sorted (l :: s) ->
  Forall (within a) (l :: s) -> Forall (within a) (merge_from l s).
Proof.
  induction s as [|x s IH]; intros l HV HS Hs HW; [exact HW |].
  destruct Hs as [Hlx Hs]. simpl merge_from.
  inversion HW as [|? ? Hl HW']; subst.
  inversion HW' as [|? ? Hx HW'']; subst.
  destruct (Z.gtb_spec (Start x) (Stop l)) as [Hgt|Hle].
  - constructor; [exact Hl |]. now apply IH.
  - apply IH; auto.
    + destruct s as [|y s]; simpl in *; [trivial |]. split; [lia | tauto].
    + constructor; [| exact HW''].
      destruct Hl as (h1 & Hin1 & A1 & A2 & A3).
      destruct Hx as (h2 & Hin2 & B1 & B2 & B3).
      destruct (valid_separated_apart a h1 h2 HV HS Hin1 Hin2)
        as [->|[Hc|Hc]]; try lia.
      exists h2. split; [exact Hin2 |]. simpl.
      destruct (Z.gtb_spec (Stop l) (Stop x)); lia.
Qed.

Lemma Normalize_within (a : IntervalSlice) s :
  valid a -> separated a -> Forall (within a) s ->
  Forall (within a) (Normalize s).
Proof.
  intros HV HS HW. rewrite Normalize_merge.
  pose proof (Sort_Less_sorted s) as Hsorted.
  assert (HW' : Forall (within a) (Sort s)).
  { rewrite List.Forall_forall in HW |- *. intros x Hx. apply HW.
    eapply Permutation_in; [apply Sort_Less_perm | exact Hx]. }
  destruct (Sort s) as [|s0 rest]; [constructor |].
  apply merge_from_within; auto. now apply Less_sorted_start_sorted.
Qed.

Lemma apart_not_both x b p :
  apart x b -> contains_point x p = true -> contains_point b p = true -> False.
Proof.
  unfold apart, contains_point. intros H H1 H2.
  apply andb_true_iff in H1, H2. lia.
Qed.

Example MinusInterval_scenario :
  MinusInterval [mkInterval 1 10] [mkInterval 3 5; mkInterval 7 8]
  = Returns [mkInterval 1 3; mkInterval 5 7; mkInterval 8 10].
Proof. reflexivity. Qed.

Lemma contains_point_true (i : Interval) p :
  contains_point i p = true <-> Start i <= p < Stop i.
Proof.
  unfold contains_point. rewrite andb_true_iff, Z.leb_le, Z.ltb_lt. tauto.
Qed.

Lemma contains_point_false (i : Interval) p :
  contains_point i p = false <-> ~ (Start i <= p < Stop i).
Proof.
  rewrite <- contains_point_true. destruct (contains_point i p); split;
    congruence.
Qed.

(** What [MinusInterval] leaves: pieces inside the intervals of [a], in
    sorted order, away from every interval of [b]. *)
Lemma MinusInterval_pieces (a b : IntervalSlice) :
  valid a -> separated a -> int64_slice a -> valid b -> separated b ->
  exists r, MinusInterval a b = Returns r /\
            Forall (within a) r /\ Less_sorted r /\
            forall p : Z, ~ (covers r p = true /\ covers b p = true).
Proof.
  intros HVa HSa HRa HVb HSb.
  unfold MinusInterval.
  rewrite (Normalize_fixed b) by (auto using valid_separated_Less_sorted).
  destruct (MinusInterval_loop_spec (S (length a + length b))
              (mkInterval 0 0) a b []) as (ps & E & P1 & P2 & _); auto.
  - eapply List.Forall_impl; [| exact HRa]. unfold is_int64. simpl. tauto.
  - destruct a as [|h a']; simpl; [trivial |]. intros H0.
    assert (Start h < Stop h) by now inversion HVa. lia.
  - rewrite E. simpl app. exists (Normalize ps). split; [reflexivity |].
    split; [now apply Normalize_within |].
    split; [apply Normalize_shape |].
    intros p [Hr Hb]. rewrite Normalize_covers in Hr.
    apply covers_true in Hb. destruct Hb as (i & Hi & Hp).
    unfold covers in Hr. apply existsb_exists in Hr.
    destruct Hr as (x & Hx & Hxp).
    rewrite List.Forall_forall in P2.
    apply (apart_not_both x i p (P2 x Hx i Hi) Hxp).
    now apply contains_point_true.
Qed.

(** The points of the minuend that the state of the loop still has to
    deliver: those of the pieces collected, and those of the current
    minuend and of the intervals after it that the rest of [in] does not
    cover. *)
Lemma MinusInterval_loop_complete : forall fuel m si sj n out p,
  valid si -> separated si -> Forall (fun i => Stop i <= MaxInt64) si ->
  MinusInterval_loop fuel m si sj n = Returns out ->
  covers n p = true \/
  (match si with
   | h :: si' => contains_point (reload m h) p || covers si' p
   | [] => false
   end = true /\ covers sj p = false) ->
  covers out p = true.
Proof.
  induction fuel as [|fuel IH]; intros m si sj n out p HV HS HR Hrun Hp;
    [discriminate |].
  destruct si as [|h si'].
  { injection Hrun as <-. destruct Hp as [Hp|[Hp _]]; [exact Hp | discriminate]. }
  cbn [MinusInterval_loop] in Hrun.
  assert (HeS : Stop (reload m h) = Stop h).
  { unfold reload. destruct (Z.eqb_spec (Stop m) (Stop h)); simpl; auto. }
  set (e := reload m h) in *.
  assert (Hmax : Stop h <= MaxInt64) by now inversion HR.
  pose proof (valid_tail _ _ HV) as HV'.
  pose proof (separated_tail _ _ HS) as HS'.
  assert (HR' : Forall (fun i => Stop i <= MaxInt64) si') by now inversion HR.
  pose proof (valid_separated_head _ _ HV HS) as Hafter.
  (* after [i++] the next interval is loaded afresh *)
  assert (Hnext : forall m', Stop m' = Stop h ->
            covers si' p = true ->
            match si' with
            | h' :: si'' => contains_point (reload m' h') p || covers si'' p
            | [] => false
            end = true).
  { intros m' Hm' Hc. destruct si' as [|h' si'']; [discriminate |].
    assert (Stop h < Start h') by now inversion Hafter.
    assert (Start h' < Stop h') by now inversion HV'.
    unfold reload. destruct (Z.eqb_spec (Stop m') (Stop h')); [lia |]. exact Hc. }
  assert (Hstay : forall m', Stop m' = Stop h -> reload m' h = m').
  { intros m' Hm'. unfold reload.
    destruct (Z.eqb_spec (Stop m') (Stop h)); [reflexivity | contradiction]. }
  assert (Hcases : covers n p = true \/
            ((contains_point e p = true \/ covers si' p = true) /\
             covers sj p = false)).
  { destruct Hp as [Hp|[Hp Hq]]; [now left |]. right.
    apply orb_true_iff in Hp. tauto. }
  clear Hp.
  destruct sj as [|sub sj']; cbn [Start Stop tl] in Hrun.
  - destruct (Z.leb_spec (Stop e) MaxInt64); [| lia].
    apply (IH _ _ _ _ _ p HV' HS' HR' Hrun).
    rewrite covers_app. destruct Hcases as [Hn|[[He|Hs] Hq]].
    + left. now rewrite Hn.
    + left. simpl. rewrite He. apply orb_true_r.
    + right. split; [now apply Hnext | exact Hq].
  - assert (Hq' : covers (sub :: sj') p = false ->
                  contains_point sub p = false /\ covers sj' p = false)
      by (intros Hq; now apply orb_false_iff in Hq).
    destruct (Z.leb_spec (Stop e) (Start sub)).
    { apply (IH _ _ _ _ _ p HV' HS' HR' Hrun).
      rewrite covers_app. destruct Hcases as [Hn|[[He|Hs] Hq]].
      - left. now rewrite Hn.
      - left. simpl. rewrite He. apply orb_true_r.
      - right. split; [now apply Hnext | exact Hq]. }
    destruct (Z.geb_spec (Start e) (Stop sub)).
    { apply (IH _ _ _ _ _ p HV HS HR Hrun). rewrite (Hstay e HeS).
      destruct Hcases as [Hn|[Hes Hq]]; [now left |]. right.
      destruct (Hq' Hq) as [_ Hq2]. split; [| exact Hq2].
      apply orb_true_iff. exact Hes. }
    destruct (Z.ltb_spec (Start e) (Start sub));
      destruct (Z.leb_spec (Stop e) (Stop sub));
      destruct (Z.geb_spec (Start e) (Start sub));
      destruct (Z.gtb_spec (Stop e) (Stop sub));
      cbn [andb] in Hrun; try lia.
    + apply (IH _ _ _ _ _ p HV' HS' HR' Hrun).
      rewrite covers_app. destruct Hcases as [Hn|[[He|Hs] Hq]].
      * left. now rewrite Hn.
      * left. destruct (Hq' Hq) as [Hq1 _].
        apply contains_point_true in He. apply contains_point_false in Hq1.
        simpl. rewrite (proj2 (contains_point_true _ p)); [apply orb_true_r |].
        simpl. lia.
      * right. split; [now apply Hnext | exact Hq].
    + apply (IH _ _ _ _ _ p HV HS HR Hrun).
      rewrite (Hstay (mkInterval (Stop sub) (Stop e)) HeS).
      rewrite covers_app. destruct Hcases as [Hn|[[He|Hs] Hq]].
      * left. now rewrite Hn.
      * destruct (Hq' Hq) as [Hq1 Hq2].
        apply contains_point_true in He. apply contains_point_false in Hq1.
        destruct (Z.lt_ge_cases p (Start sub)).
        -- left. simpl. rewrite (proj2 (contains_point_true _ p));
             [apply orb_true_r | simpl; lia].
        -- right. split; [| exact Hq2].
           rewrite (proj2 (contains_point_true _ p)); [reflexivity |].
           simpl. lia.
      * right. destruct (Hq' Hq) as [_ Hq2]. split; [| exact Hq2].
        rewrite Hs. apply orb_true_r.
    + apply (IH _ _ _ _ _ p HV' HS' HR' Hrun).
      destruct Hcases as [Hn|[[He|Hs] Hq]].
      * now left.
      * destruct (Hq' Hq) as [Hq1 _].
        apply contains_point_true in He. apply contains_point_false in Hq1.
        lia.
      * right. split; [now apply Hnext | exact Hq].
    + apply (IH _ _ _ _ _ p HV HS HR Hrun).
      rewrite (Hstay (mkInterval (Stop sub) (Stop e)) HeS).
      destruct Hcases as [Hn|[[He|Hs] Hq]].
      * now left.
      * right. destruct (Hq' Hq) as [Hq1 Hq2]. split; [| exact Hq2].
        apply contains_point_true in He. apply contains_point_false in Hq1.
        rewrite (proj2 (contains_point_true _ p)); [reflexivity |].
        simpl. lia.
      * right. destruct (Hq' Hq) as [_ Hq2]. split; [| exact Hq2].
        rewrite Hs. apply orb_true_r.
Qed.

(** Unless the first interval of [a] stops at 0, the result covers
    exactly the points of [a] that [b] does not cover. *)
Lemma MinusInterval_set_difference (a b r : IntervalSlice) :
  valid a -> separated a -> int64_slice a -> valid b -> separated b ->
  match a with h :: _ => Stop h <> 0 | [] => True end ->
  MinusInterval a b = Returns r ->
  forall p : Z,
    covers r p = true <-> covers a p = true /\ covers b p = false.
Proof.
  intros HVa HSa HRa HVb HSb H0 Hrun p. split.
  - intros Hr.
    destruct (MinusInterval_pieces a b HVa HSa HRa HVb HSb)
      as (r' & E & HW & _ & Hdis).
    rewrite Hrun in E. injection E as <-. split.
    + apply covers_true in Hr. destruct Hr as (x & Hx & Hp).
      rewrite List.Forall_forall in HW.
      destruct (HW x Hx) as (h & Hh & H1 & H2 & H3).
      apply covers_true. exists h. split; [exact Hh | lia].
    + destruct (covers b p) eqn:Eb; [| reflexivity].
      exfalso. apply (Hdis p). now split.
  - intros [Ha Hb]. unfold MinusInterval in Hrun.
    destruct (MinusInterval_loop _ _ _ _ _) as [out| |] eqn:E;
      try discriminate.
    injection Hrun as <-. rewrite Normalize_covers.
    apply (MinusInterval_loop_complete _ _ _ _ _ out p HVa HSa) in E; auto.
    + eapply List.Forall_impl; [| exact HRa]. unfold is_int64. simpl. tauto.
    + right. rewrite Normalize_covers. split; [| exact Hb].
      destruct a as [|h a']; [discriminate |].
      unfold reload. simpl Stop at 1.
      destruct (Z.eqb_spec 0 (Stop h)); [congruence |]. exact Ha.
Qed.

(** With a first interval that stops at 0 the zero value of [minuend]
    passes for it: [-5, 0) minus nothing leaves the empty interval
    [0, 0).  The two properties below hold all the same. *)
Example MinusInterval_first_stop_zero :
  MinusInterval [mkInterval (-5) 0] [] = Returns [mkInterval 0 0].
Proof. reflexivity. Qed.

(** For normalized slices [a] and [b] of valid intervals,
    [MinusInterval] returns a slice that [a] contains ([Contain] says
    true) and that has no point in common with [b].  This much holds
    for every such input; that the result is all of the difference
    does not (see [MinusInterval_misses_set_difference]). *)
Theorem MinusInterval_contained_and_disjoint (a b : IntervalSlice) :
  normalized a -> valid a -> int64_slice a ->
  normalized b -> valid b ->
  exists r, MinusInterval a b = Returns r /\
            Contain a r = true /\
            forall p : Z, ~ (covers r p = true /\ covers b p = true).
Proof.
  intros (_ & HSa & _) HVa HRa (_ & HSb & _) HVb.
  destruct (MinusInterval_pieces a b HVa HSa HRa HVb HSb)
    as (r & E & HW & HL & Hdis).
  exists r. split; [exact E |]. split; [| exact Hdis].
  apply Contain_within; auto. now apply Less_sorted_start_sorted.
Qed.

Lemma MinusInterval_contained_and_disjoint_witness :
  exists r,
    MinusInterval [mkInterval 1 10] [mkInterval 3 5; mkInterval 7 8]
      = Returns r /\
    Contain [mkInterval 1 10] r = true /\
    forall p : Z,
      ~ (covers r p = true /\
         covers [mkInterval 3 5; mkInterval 7 8] p = true).
Proof.
  apply MinusInterval_contained_and_disjoint.
  - split; [simpl; tauto |]. split; [simpl; tauto |].
    apply normalized_pairwise_disjoint; simpl; tauto.
  - repeat constructor.
  - repeat constructor; unfold MinInt64, MaxInt64; simpl; lia.
  - split; [simpl; lia |]. split; [simpl; lia |].
    apply normalized_pairwise_disjoint; simpl; lia.
  - repeat constructor.
Defined.

End Minus.

(** ** Strings and decimal numbers *)

Section Strings.

Import gostrings strconv.

Implicit Types (s t : string) (c sep : ascii).

Lemma Split_no_sep s sep : has_byte sep s = false -> Split s sep = [s].
Proof.
  induction s as [|c s IH]; simpl; [reflexivity |]. intros H.
  apply orb_false_iff in H. destruct H as [Hc Hs].
  rewrite Hc, (IH Hs). reflexivity.
Qed.

Lemma Split_app_sep s t sep :
  has_byte sep s = false ->
  Split (s ++ String sep t) sep = s :: Split t sep.
Proof.
  induction s as [|c s IH]; simpl; intros H.
  - now rewrite Ascii.eqb_refl.
  - apply orb_false_iff in H. destruct H as [Hc Hs].
    rewrite Hc, (IH Hs). reflexivity.
Qed.

Lemma has_byte_app c s t : has_byte c (s ++ t) = has_byte c s || has_byte c t.
Proof.
  induction s as [|d s IH]; simpl; [reflexivity |].
  now rewrite IH, orb_assoc.
Qed.

Lemma all_bytes_app P s t :
  all_bytes P (s ++ t) = all_bytes P s && all_bytes P t.
Proof.
  induction s as [|d s IH]; simpl; [reflexivity |].
  now rewrite IH, andb_assoc.
Qed.

Lemma all_bytes_has_byte (P : ascii -> bool) c s :
  P c = false -> all_bytes P s = true -> has_byte c s = false.
Proof.
  intros Hc. induction s as [|d s IH]; simpl; [reflexivity |]. intros H.
  apply andb_true_iff in H. destruct H as [Hd Hs]. rewrite (IH Hs), orb_false_r.
  destruct (Ascii.eqb_spec d c); [congruence | reflexivity].
Qed.

Lemma byte_val_digit_char d : 0 <= d <= 9 -> byte_val (digit_char d) = 48 + d.
Proof.
  intros H. unfold byte_val, digit_char.
  rewrite N_ascii_embedding by lia. lia.
Qed.

Lemma is_digit_digit_char d : 0 <= d <= 9 -> is_digit (digit_char d) = true.
Proof.
  intros H. unfold is_digit. rewrite byte_val_digit_char by exact H.
  apply andb_true_iff. split; apply Z.leb_le; lia.
Qed.

Lemma all_digits_onto fuel : forall n acc,
  all_bytes is_digit acc = true ->
  all_bytes is_digit (digits_onto fuel n acc) = true.
Proof.
  induction fuel as [|fuel IH]; intros n acc Hacc; simpl; [exact Hacc |].
  assert (Hd : all_bytes is_digit (String (digit_char (n mod 10)) acc) = true).
  { simpl. rewrite Hacc, is_digit_digit_char; [reflexivity |].
    pose proof (Z.mod_pos_bound n 10). lia. }
  destruct (n <? 10); [exact Hd | now apply IH].
Qed.

Lemma digits_onto_nonempty fuel : forall n c acc,
  exists c' s', digits_onto fuel n (String c acc) = String c' s'.
Proof.
  induction fuel as [|fuel IH]; intros n c acc; simpl; [eauto |].
  destruct (n <? 10); [eauto | apply IH].
Qed.

Lemma FormatUint_digits n :
  exists c s, FormatUint n = String c s /\ is_digit c = true /\
              all_bytes is_digit s = true.
Proof.
  pose proof (all_digits_onto (S (Z.to_nat (Z.log2 n))) n EmptyString
                eq_refl) as H.
  unfold FormatUint in *.
  assert (exists c s, digits_onto (S (Z.to_nat (Z.log2 n))) n EmptyString
                      = String c s) as (c & s & E).
  { simpl. destruct (n <? 10); [eauto | apply digits_onto_nonempty]. }
  rewrite E in *. simpl in H. apply andb_true_iff in H.
  exists c, s. tauto.
Qed.

Lemma ParseUint_loop_digits fuel : forall n acc,
  0 <= n <= MaxUint64 -> Z.log2 n < Z.of_nat fuel ->
  ParseUint_loop (digits_onto fuel n acc) 0 = ParseUint_loop acc n.
Proof.
  induction fuel as [|fuel IH]; intros n acc Hn Hlog.
  - pose proof (Z.log2_nonneg n). lia.
  - cbn [digits_onto].
    pose proof (Z.mod_pos_bound n 10 ltac:(lia)) as Hmod.
    pose proof (Z_div_mod_eq_full n 10) as Hdiv.
    assert (Hstep : forall m, m * 10 + n mod 10 = n -> m <= MaxUint64 / 10 ->
              ParseUint_loop (String (digit_char (n mod 10)) acc) m
              = ParseUint_loop acc n).
    { intros m Hm Hsmall. cbn [ParseUint_loop].
      rewrite is_digit_digit_char, byte_val_digit_char by lia.
      replace (48 + n mod 10 - 48) with (n mod 10) by lia. rewrite Hm.
      destruct (Z.geb_spec m (MaxUint64 / 10 + 1)); [lia |].
      destruct (Z.gtb_spec n MaxUint64); [lia | reflexivity]. }
    change (MaxUint64 / 10) with 1844674407370955161 in Hstep.
    unfold MaxUint64 in Hn.
    destruct (Z.ltb_spec n 10) as [Hlt|Hge].
    + apply Hstep; [rewrite Z.mod_small by lia |]; lia.
    + rewrite IH.
      * apply Hstep; lia.
      * unfold MaxUint64. lia.
      * assert (0 < n / 10) by lia.
        pose proof (Z.log2_double (n / 10) ltac:(lia)) as Hd.
        pose proof (Z.log2_le_mono (2 * (n / 10)) n ltac:(lia)). lia.
Qed.

Lemma ParseUint_FormatUint n :
  0 <= n <= MaxUint64 -> ParseUint (FormatUint n) = (n, None).
Proof.
  intros Hn. destruct (FormatUint_digits n) as (c & s & E & _).
  unfold ParseUint. rewrite E, <- E. unfold FormatUint.
  rewrite ParseUint_loop_digits; [reflexivity | exact Hn |].
  pose proof (Z.log2_nonneg n). lia.
Qed.

Lemma is_digit_not_sign c :
  is_digit c = true -> Ascii.eqb c "-" = false /\ Ascii.eqb c "+" = false.
Proof.
  intros H. split.
  - destruct (Ascii.eqb_spec c "-"); [subst; discriminate | reflexivity].
  - destruct (Ascii.eqb_spec c "+"); [subst; discriminate | reflexivity].
Qed.

(** A number that [int64] holds and that is not negative is read back
    from its decimal form. *)
Lemma ParseInt_FormatInt z :
  0 <= z <= MaxInt64 -> ParseInt (FormatInt z) = (z, None).
Proof.
  intros Hz. unfold FormatInt. destruct (Z.ltb_spec z 0); [lia |].
  destruct (FormatUint_digits z) as (c & s & E & Hc & _).
  pose proof (ParseUint_FormatUint z) as HP. unfold MaxInt64, MaxUint64 in *.
  rewrite E in *. unfold ParseInt.
  destruct (is_digit_not_sign c Hc) as [-> ->]. cbn [orb negb andb].
  rewrite HP by lia.
  destruct (Z.geb_spec z (2 ^ 63)); [lia |].
  rewrite to_int64_id; [reflexivity |]. unfold is_int64, MinInt64, MaxInt64. lia.
Qed.

Lemma FormatInt_no_byte z c :
  0 <= z -> is_digit c = false -> has_byte c (FormatInt z) = false.
Proof.
  intros Hz Hc. unfold FormatInt. destruct (Z.ltb_spec z 0); [lia |].
  destruct (FormatUint_digits z) as (d & s & E & Hd & Hs). rewrite E.
  apply (all_bytes_has_byte is_digit); [exact Hc |]. simpl. now rewrite Hd, Hs.
Qed.

End Strings.

(** ** Interval text form *)

Example parseInterval_range : parseInterval "1-5" = Some (mkInterval 1 6).
Proof. reflexivity. Qed.

Example parseInterval_single : parseInterval "10" = Some (mkInterval 10 11).
Proof. reflexivity. Qed.

Example parseInterval_reversed : parseInterval "5-1" = None.
Proof. reflexivity. Qed.

Example parseInterval_three : parseInterval "1-2-3" = None.
Proof. reflexivity. Qed.

Example parseInterval_plus_sign : parseInterval "+5" = Some (mkInterval 5 6).
Proof. reflexivity. Qed.

Example parseInterval_MaxInt64 : parseInterval "9223372036854775807" = None.
Proof. reflexivity. Qed.

Example Interval_String_range : Interval_String (mkInterval 1 6) = "1-5"%string.
Proof. reflexivity. Qed.

Example Interval_String_single : Interval_String (mkInterval 3 4) = "3"%string.
Proof. reflexivity. Qed.

Example Interval_String_negative :
  Interval_String (mkInterval (-5) (-3)) = "-5--4"%string.
Proof. reflexivity. Qed.

Section IntervalText.

Import gostrings strconv.

(** ["n"] is read as [n, n+1) and ["n-m"] with [m >= n] as [n, m+1). *)
Lemma parseInterval_single_number n :
  0 <= n -> n < MaxInt64 ->
  parseInterval (FormatInt n) = Some (mkInterval n (n + 1)).
Proof.
  intros H0 Hmax. unfold parseInterval.
  rewrite Split_no_sep by (apply FormatInt_no_byte; auto).
  rewrite ParseInt_FormatInt by lia.
  rewrite (to_int64_id (n + 1))
    by (unfold is_int64, MinInt64, MaxInt64 in *; lia).
  destruct (Z.leb_spec (n + 1) n); [lia | reflexivity].
Qed.

Lemma parseInterval_number_range n m :
  0 <= n -> n <= m -> m < MaxInt64 ->
  parseInterval (FormatInt n ++ String "-" (FormatInt m))
  = Some (mkInterval n (m + 1)).
Proof.
  intros H0 Hnm Hmax. unfold parseInterval.
  rewrite Split_app_sep by (apply FormatInt_no_byte; auto).
  rewrite Split_no_sep by (apply FormatInt_no_byte; [lia | auto]).
  rewrite !ParseInt_FormatInt by lia.
  rewrite (to_int64_id (m + 1))
    by (unfold is_int64, MinInt64, MaxInt64 in *; lia).
  destruct (Z.leb_spec (m + 1) n); [lia | reflexivity].
Qed.

(** The two shapes [Interval.String] prints. *)
Lemma Interval_String_cases (i : Interval) :
  0 <= Start i -> Start i < Stop i -> Stop i <= MaxInt64 ->
  (Interval_String i = FormatInt (Start i) /\ Stop i = Start i + 1) \/
  (Interval_String i
   = (FormatInt (Start i) ++ String "-" (FormatInt (Stop i - 1)))%string
   /\ Start i <= Stop i - 1).
Proof.
  intros H0 Hlt Hmax. unfold Interval_String.
  rewrite (to_int64_id (Start i + 1))
    by (unfold is_int64, MinInt64, MaxInt64 in *; lia).
  destruct (Z.eqb_spec (Stop i) (Start i + 1)); [now left |]. right.
  rewrite (to_int64_id (Stop i - 1))
    by (unfold is_int64, MinInt64, MaxInt64 in *; lia).
  split; [reflexivity | lia].
Qed.

(** An interval of [int64] numbers with [0 <= Start < Stop] is read
    back from its text. *)
Lemma parseInterval_Interval_String (i : Interval) :
  0 <= Start i -> Start i < Stop i -> Stop i <= MaxInt64 ->
  parseInterval (Interval_String i) = Some i.
Proof.
  intros H0 Hlt Hmax.
  destruct (Interval_String_cases i H0 Hlt Hmax) as [[-> Hs]|[-> Hs]].
  - rewrite parseInterval_single_number by lia.
    destruct i as [a b]; simpl in *. now subst b.
  - rewrite parseInterval_number_range by lia.
    destruct i as [a b]; simpl in *. do 2 f_equal. lia.
Qed.

(** The interval [-1, 0) has [Stop > Start]; it prints as ["-1"], which
    [parseInterval] splits at the sign and rejects. *)
Lemma parseInterval_String_negative_fails :
  let i := mkInterval (-1) 0 in
  Start i < Stop i /\ is_int64 (Start i) /\ is_int64 (Stop i) /\
  Interval_String i = "-1"%string /\
  parseInterval (Interval_String i) = None /\
  parseInterval (Interval_String i) <> Some i.
Proof.
  unfold is_int64, MinInt64, MaxInt64. simpl.
  repeat split; try lia; try reflexivity; discriminate.
Qed.

End IntervalText.

(** ** Pool limits *)

Section PoolLimits.

Import client.

Lemma clamp_limits_ordered (po : poolOptions) :
  po_minAlive (clamp_limits po) <= po_maxAlive (clamp_limits po) /\
  po_maxIdle (clamp_limits po) <= po_maxAlive (clamp_limits po) /\
  po_minAlive (clamp_limits po) <= po_maxIdle (clamp_limits po).
Proof.
  destruct po as [mn mx idle t]. unfold clamp_limits. simpl.
  destruct (Z.gtb_spec mn mx); simpl;
    repeat match goal with
           | |- context [Z.gtb ?u ?v] => destruct (Z.gtb_spec u v); simpl
           | |- context [Z.leb ?u ?v] => destruct (Z.leb_spec u v); simpl
           end; lia.
Qed.

Example NewPool_limits_example :
  NewPoolWithOptions [set_limits 7 3 100] true
  = Some {| minAlive := 3; maxAlive := 3; maxIdle := 3 |}.
Proof. reflexivity. Qed.

(** C7: whatever the options ask for, a pool that
    [NewPoolWithOptions] constructs stores limits with
    [minAlive <= maxAlive], [maxIdle <= maxAlive] and
    [maxIdle >= minAlive]. *)
Theorem NewPoolWithOptions_limits (options : list PoolOption)
    (checkConnection : bool) (pool : Pool) :
  NewPoolWithOptions options checkConnection = Some pool ->
  minAlive pool <= maxAlive pool /\
  maxIdle pool <= maxAlive pool /\
  maxIdle pool >= minAlive pool.
Proof.
  unfold NewPoolWithOptions.
  set (po := fold_left (fun po o => o po) options getDefaultPoolOptions).
  intros H. destruct (clamp_limits_ordered po) as (H1 & H2 & H3).
  cbv zeta in H. cbn [maxIdle] in H.
  destruct ((po_maxIdle (clamp_limits po) <? 0)
            || (16 * po_maxIdle (clamp_limits po) >? MaxInt64));
    [discriminate |].
  destruct ((po_newPoolPingTimeout (clamp_limits po) >? 0)
            && negb checkConnection); [discriminate |].
  injection H as <-. simpl. lia.
Qed.

Lemma NewPoolWithOptions_limits_witness :
  minAlive {| minAlive := 3; maxAlive := 3; maxIdle := 3 |}
    <= maxAlive {| minAlive := 3; maxAlive := 3; maxIdle := 3 |} /\
  maxIdle {| minAlive := 3; maxAlive := 3; maxIdle := 3 |}
    <= maxAlive {| minAlive := 3; maxAlive := 3; maxIdle := 3 |} /\
  maxIdle {| minAlive := 3; maxAlive := 3; maxIdle := 3 |}
    >= minAlive {| minAlive := 3; maxAlive := 3; maxIdle := 3 |}.
Proof.
  apply (NewPoolWithOptions_limits [set_limits 7 3 100] true).
  reflexivity.
Defined.

(** With a first ping that succeeds, a pool is returned exactly when
    [make] accepts the clamped [maxIdle] as a capacity. *)
Lemma NewPoolWithOptions_constructs (options : list PoolOption) :
  let po :=
    clamp_limits (fold_left (fun po o => o po) options getDefaultPoolOptions) in
  (exists pool, NewPoolWithOptions options true = Some pool) <->
  0 <= po_maxIdle po /\ 16 * po_maxIdle po <= MaxInt64.
Proof.
  intros po. unfold NewPoolWithOptions. fold po. cbv zeta. cbn [maxIdle].
  rewrite andb_false_r.
  destruct (Z.ltb_spec (po_maxIdle po) 0);
    destruct (Z.gtb_spec (16 * po_maxIdle po) MaxInt64); cbn [orb];
    split; try (intros [pool H']; discriminate); try lia; eauto.
Qed.

Example NewPool_negative_maxIdle :
  NewPoolWithOptions [set_limits (-3) (-1) (-2)] true = None.
Proof. reflexivity. Qed.

End PoolLimits.

(** ** GTID sets *)

Section GtidExamples.

Import samples.

Example ParseUUIDSet_scenario :
  option_map UUIDSet_String
    (ParseUUIDSet no_trim no_trim "3E11FA47-71CA-11E1-9E33-C80AA9429562:1-5:10")
  = Some "3e11fa47-71ca-11e1-9e33-c80aa9429562:1-5:10"%string.
Proof. vm_compute. reflexivity. Qed.

Example ParseUUIDSet_scenario_intervals :
  option_map Intervals
    (ParseUUIDSet no_trim no_trim "3E11FA47-71CA-11E1-9E33-C80AA9429562:1-5:10")
  = Some [mkInterval 1 6; mkInterval 10 11].
Proof. vm_compute. reflexivity. Qed.

Example Parse_print_two_sets :
  option_map MysqlGTIDSet_String
    (ParseMysqlGTIDSet no_trim no_trim
       "de278ad0-2106-11e4-9f8e-6edd0ca20947:1-2,3e11fa47-71ca-11e1-9e33-c80aa9429562:1-5:7")
  = Some "3e11fa47-71ca-11e1-9e33-c80aa9429562:1-5:7,de278ad0-2106-11e4-9f8e-6edd0ca20947:1-2"%string.
Proof. vm_compute. reflexivity. Qed.

Example Decode_Encode_example :
  match ParseMysqlGTIDSet no_trim no_trim
       "de278ad0-2106-11e4-9f8e-6edd0ca20947:1-2,3e11fa47-71ca-11e1-9e33-c80aa9429562:1-5:7"
  with
  | Some g => DecodeMysqlGTIDSet (Encode g) = go.Ok g
  | None => False
  end.
Proof. vm_compute. reflexivity. Qed.

End GtidExamples.

Section GtidFrame.

Import samples.

Example MinusSet_drops_entry :
  MinusSet {[ uuid.UUID_String sample_sid := mkUUIDSet sample_sid [mkInterval 1 6] ]}
    (Some (mkUUIDSet sample_sid [mkInterval 1 10]))
  = Returns ∅.
Proof. vm_compute. reflexivity. Qed.

(** C10: [AddSet(nil)] and [MinusSet(nil)] return the set as it was;
    [MinusSet] of a set whose UUID is present deletes that entry exactly
    when the subtraction leaves an empty interval list, stores the
    list otherwise, and leaves every other entry alone; a UUID that is
    absent leaves the set as it was. *)
Theorem AddSet_MinusSet_frame :
  (forall s : MysqlGTIDSet, AddSet s None = s) /\
  (forall s : MysqlGTIDSet, MinusSet s None = Returns s) /\
  (forall (s : MysqlGTIDSet) (set uuidSet : UUIDSet),
     s !! uuid.UUID_String (SID set) = Some uuidSet ->
     int64_slice (Intervals uuidSet) ->
     exists (n : IntervalSlice) (s' : MysqlGTIDSet),
       MinusInterval (Intervals uuidSet) (Intervals set) = Returns n /\
       MinusSet s (Some set) = Returns s' /\
       (s' !! uuid.UUID_String (SID set) = None <-> n = []) /\
       (n <> [] ->
        s' !! uuid.UUID_String (SID set)
        = Some {| SID := SID uuidSet; Intervals := n |}) /\
       (forall k : string,
          k <> uuid.UUID_String (SID set) -> s' !! k = s !! k)) /\
  (forall (s : MysqlGTIDSet) (set : UUIDSet),
     s !! uuid.UUID_String (SID set) = None ->
     MinusSet s (Some set) = Returns s).
Proof.
  split; [reflexivity |]. split; [reflexivity |]. split.
  - intros s set uuidSet Hs HR.
    destruct (MinusInterval_returns (Intervals uuidSet) (Intervals set) HR)
      as (n & En).
    unfold MinusSet. rewrite Hs, En. destruct n as [|i n].
    + exists [], (delete (uuid.UUID_String (SID set)) s).
      split; [reflexivity |]. split; [reflexivity |]. split; [| split].
      * split; [reflexivity |]. intros _. apply lookup_delete_eq.
      * intros H. now contradiction H.
      * intros k Hk. now apply lookup_delete_ne.
    + eexists (i :: n), _. split; [reflexivity |]. split; [reflexivity |].
      rewrite lookup_insert_eq. split; [| split].
      * split; discriminate.
      * reflexivity.
      * intros k Hk. now apply lookup_insert_ne.
  - intros s set Hs. unfold MinusSet. now rewrite Hs.
Qed.

Lemma AddSet_MinusSet_frame_witness :
  exists (n : IntervalSlice) (s' : MysqlGTIDSet),
    MinusInterval [mkInterval 1 6] [mkInterval 1 10] = Returns n /\
    MinusSet {[ uuid.UUID_String sample_sid := mkUUIDSet sample_sid [mkInterval 1 6] ]}
      (Some (mkUUIDSet sample_sid [mkInterval 1 10])) = Returns s' /\
    (s' !! uuid.UUID_String sample_sid = None <-> n = []) /\
    (n <> [] ->
     s' !! uuid.UUID_String sample_sid = Some {| SID := sample_sid; Intervals := n |}) /\
    (forall k : string,
       k <> uuid.UUID_String sample_sid ->
       s' !! k
       = ({[ uuid.UUID_String sample_sid := mkUUIDSet sample_sid [mkInterval 1 6] ]}
            : MysqlGTIDSet) !! k).
Proof.
  apply (proj1 (proj2 (proj2 AddSet_MinusSet_frame))
           {[ uuid.UUID_String sample_sid := mkUUIDSet sample_sid [mkInterval 1 6] ]}
           (mkUUIDSet sample_sid [mkInterval 1 10])
           (mkUUIDSet sample_sid [mkInterval 1 6])).
  - apply lookup_singleton_eq.
  - repeat constructor; unfold MinInt64, MaxInt64; simpl; lia.
Defined.

End GtidFrame.

(** ** Binary form of a GTID set *)

Section Binary.

Import go binary.

Implicit Types (u : UUIDSet) (l : IntervalSlice) (data rest : list byte).

Lemma byte_Z_Z_byte z : byte_Z (Z_byte z) = z mod 256.
Proof.
  unfold byte_Z, Z_byte.
  pose proof (Z.mod_pos_bound z 256 ltac:(lia)) as Hb.
  destruct (Byte.of_N (Z.to_N (z mod 256))) as [b|] eqn:E.
  - apply Byte.to_of_N in E. rewrite E. lia.
  - apply Byte.of_N_None_iff in E. lia.
Qed.

Lemma length_le_bytes n : forall v, length (le_bytes n v) = n.
Proof. induction n as [|n IH]; intros v; simpl; [reflexivity | now rewrite IH]. Qed.

Lemma le_value_le_bytes n : forall v,
  le_value (le_bytes n v) = v mod 256 ^ Z.of_nat n.
Proof.
  induction n as [|n IH]; intros v.
  - simpl. now rewrite Z.mod_1_r.
  - cbn [le_bytes le_value]. rewrite byte_Z_Z_byte, IH, Z.mod_mod by lia.
    rewrite Nat2Z.inj_succ, Z.pow_succ_r by lia.
    rewrite Z.rem_mul_r by lia. reflexivity.
Qed.

Lemma length_Write64 x : length (Write64 x) = 8%nat.
Proof. apply length_le_bytes. Qed.

Lemma Uint64_Write64 x rest :
  Uint64 (Write64 x ++ rest) = Ok (to_uint64 x).
Proof.
  unfold Uint64. rewrite length_app, length_Write64.
  destruct (Nat.ltb_spec (8 + length rest) 8); [lia |].
  rewrite take_app_length' by now rewrite length_Write64.
  unfold Write64. rewrite le_value_le_bytes. f_equal.
  unfold to_uint64. change (256 ^ Z.of_nat 8) with (2 ^ 64).
  apply Z.mod_mod. lia.
Qed.

Lemma length_encode_intervals l :
  length (encode_intervals l) = (16 * length l)%nat.
Proof.
  induction l as [|i l IH]; [reflexivity |].
  cbn [encode_intervals]. rewrite !length_app, !length_Write64, IH.
  cbn [length]. lia.
Qed.

Lemma length_UUIDSet_encode u :
  length (UUIDSet_encode u)
  = (length (SID u) + 8 + 16 * length (Intervals u))%nat.
Proof.
  unfold UUIDSet_encode.
  rewrite !length_app, length_Write64, length_encode_intervals. lia.
Qed.

Lemma decode_encode_intervals l rest :
  int64_slice l ->
  decode_intervals (length l) (encode_intervals l ++ rest) = Ok l.
Proof.
  induction l as [|[a b] l IH]; intros Hl; [reflexivity |].
  inversion Hl as [|? ? [Ha Hb] Hl']; subst. simpl in Ha, Hb.
  cbn [length encode_intervals decode_intervals Start Stop].
  rewrite <- !app_assoc.
  rewrite Uint64_Write64.
  rewrite (drop_app_length' (Write64 a)) by now rewrite length_Write64.
  rewrite Uint64_Write64.
  replace (skipn 16 (Write64 a ++ Write64 b ++ encode_intervals l ++ rest))
    with (encode_intervals l ++ rest).
  - rewrite (IH Hl'), !to_int64_to_uint64 by assumption. reflexivity.
  - rewrite (app_assoc (Write64 a)). symmetry. apply drop_app_length'.
    now rewrite length_app, !length_Write64.
Qed.

Lemma UUIDSet_decode_encode u rest :
  typed u -> Z.of_nat (length (UUIDSet_encode u)) <= MaxInt64 ->
  UUIDSet_decode (UUIDSet_encode u ++ rest)
  = Ok (u, Z.of_nat (length (UUIDSet_encode u))).
Proof.
  intros [Hsid Hint] Hlen. pose proof (length_UUIDSet_encode u) as HL.
  destruct u as [sid l]. cbn [SID Intervals] in *.
  rewrite HL, Hsid in Hlen |- *.
  unfold UUIDSet_decode. rewrite length_app, HL, Hsid.
  destruct (Nat.ltb_spec (16 + 8 + 16 * length l + length rest) 24); [lia |].
  unfold UUIDSet_encode; cbn [SID Intervals]. rewrite <- !app_assoc.
  rewrite take_app_length' by now rewrite Hsid.
  unfold uuid.FromBytes. rewrite Hsid. cbn [Nat.eqb].
  rewrite drop_app_length' by now rewrite Hsid.
  rewrite Uint64_Write64.
  assert (Hn : to_int64 (to_uint64 (Z.of_nat (length l))) = Z.of_nat (length l)).
  { apply to_int64_to_uint64. unfold is_int64, MinInt64, MaxInt64 in *. lia. }
  rewrite Hn.
  rewrite (to_int64_id (16 * Z.of_nat (length l)))
    by (unfold is_int64, MinInt64, MaxInt64 in *; lia).
  rewrite (to_int64_id (16 * Z.of_nat (length l) + 24))
    by (unfold is_int64, MinInt64, MaxInt64 in *; lia).
  destruct (Z.ltb_spec (Z.of_nat (16 + 8 + 16 * length l + length rest))
              (16 * Z.of_nat (length l) + 24)); [lia |].
  destruct (Z.ltb_spec (Z.of_nat (length l)) 0); [lia |].
  destruct (Z.gtb_spec (16 * Z.of_nat (length l)) MaxInt64); [lia |].
  cbn [orb]. rewrite Nat2Z.id.
  replace (skipn 24 (sid ++ Write64 (Z.of_nat (length l))
                       ++ encode_intervals l ++ rest))
    with (encode_intervals l ++ rest).
  - rewrite decode_encode_intervals by exact Hint.
    do 2 f_equal. lia.
  - rewrite (app_assoc sid). symmetry. apply drop_app_length'.
    now rewrite length_app, length_Write64, Hsid.
Qed.

Lemma Decode_loop_encoded (sets : list UUIDSet) : forall fuel s,
  (length sets <= fuel)%nat ->
  Forall typed sets ->
  Z.of_nat (length (concat (map UUIDSet_encode sets))) <= MaxInt64 ->
  Decode_loop fuel (Z.of_nat (length sets)) (concat (map UUIDSet_encode sets)) s
  = Ok (AddSets sets s).
Proof.
  induction sets as [|u sets IH]; intros fuel s Hfuel Hwf Hlen.
  - destruct fuel; reflexivity.
  - destruct fuel as [|fuel]; [simpl in Hfuel; lia |].
    inversion Hwf as [|? ? Hu Hwf']; subst.
    cbn [map concat] in *. rewrite length_app in Hlen.
    cbn [Decode_loop].
    destruct (Z.leb_spec (Z.of_nat (length (u :: sets))) 0);
      [simpl length in *; lia |].
    rewrite UUIDSet_decode_encode by (auto; lia).
    rewrite Nat2Z.id, drop_app_length' by reflexivity.
    replace (Z.of_nat (length (u :: sets)) - 1) with (Z.of_nat (length sets))
      by (simpl length; lia).
    rewrite IH; [reflexivity | simpl in Hfuel; lia | exact Hwf' | lia].
Qed.

Lemma length_encoded_sets (sets : list UUIDSet) :
  (length sets <= length (concat (map UUIDSet_encode sets)))%nat.
Proof.
  induction sets as [|u sets IH]; simpl; [lia |].
  rewrite length_app, length_UUIDSet_encode. lia.
Qed.

Lemma DecodeMysqlGTIDSet_Encode_sets (sets : list UUIDSet) :
  Forall typed sets ->
  Z.of_nat (length (Encode_sets sets)) <= MaxInt64 ->
  DecodeMysqlGTIDSet (Encode_sets sets) = Ok (AddSets sets ∅).
Proof.
  intros Hwf Hlen. unfold DecodeMysqlGTIDSet, Encode_sets in *.
  rewrite length_app, length_Write64 in *.
  pose proof (length_encoded_sets sets) as Hsets.
  destruct (Nat.ltb_spec (8 + length (concat (map UUIDSet_encode sets))) 8);
    [lia |].
  rewrite Uint64_Write64.
  rewrite to_int64_to_uint64
    by (unfold is_int64, MinInt64, MaxInt64 in *; lia).
  rewrite drop_app_length' by now rewrite length_Write64.
  apply Decode_loop_encoded; [lia | exact Hwf | lia].
Qed.

(** Adding sets with fresh, distinct keys rebuilds the map of the
    entries. *)
Lemma AddSets_entries (entries : list (string * UUIDSet)) :
  forall s : MysqlGTIDSet,
  NoDup entries.*1 ->
  Forall (fun e => e.1 = uuid.UUID_String (SID e.2)) entries ->
  Forall (fun e => s !! e.1 = None) entries ->
  AddSets entries.*2 s = list_to_map entries ∪ s.
Proof.
  induction entries as [|[k u] entries IH]; intros s Hnd Hkey Hfresh.
  - simpl. now rewrite (left_id_L ∅ (∪)).
  - inversion Hkey as [|? ? Hk Hkey']; subst.
    inversion Hfresh as [|? ? Hf Hfresh']; subst.
    rewrite fmap_cons in Hnd. apply NoDup_cons in Hnd. destruct Hnd as [Hnotin Hnd].
    simpl in Hk, Hf. cbn [fmap list_fmap AddSets fold_left snd].
    unfold AddSet at 2. rewrite <- Hk, Hf.
    change (fold_left (fun s set => AddSet s (Some set)) (entries.*2)
              (<[k:=u]> s)) with (AddSets entries.*2 (<[k:=u]> s)).
    rewrite IH; auto.
    + cbn [list_to_map foldr uncurry fst snd].
      rewrite <- insert_union_r, <- insert_union_l; [reflexivity |].
      apply not_elem_of_list_to_map. exact Hnotin.
    + rewrite List.Forall_forall in Hfresh' |- *. intros [k' u'] Hin. simpl.
      rewrite lookup_insert_ne; [exact (Hfresh' _ Hin) |].
      intros ->. apply Hnotin. apply list_elem_of_fmap.
      exists (k', u'). split; [reflexivity |]. now apply list_elem_of_In.
Qed.

Lemma AddSets_map_entries (g : MysqlGTIDSet)
    (entries : list (string * UUIDSet)) :
  keyed g -> entries ≡ₚ map_to_list g -> AddSets entries.*2 ∅ = g.
Proof.
  intros Hkey HP.
  assert (Hnd : NoDup entries.*1).
  { rewrite HP. apply NoDup_fst_map_to_list. }
  rewrite AddSets_entries; auto.
  - rewrite (right_id_L ∅ (∪)).
    rewrite (list_to_map_proper _ _ Hnd HP). apply list_to_map_to_list.
  - rewrite List.Forall_forall. intros [k u] Hin. simpl. apply Hkey.
    apply elem_of_map_to_list. rewrite <- HP. now apply list_elem_of_In.
  - rewrite List.Forall_forall. intros e _. apply lookup_empty.
Qed.

(** C4: a [MysqlGTIDSet] whose entries are filed under the string of
    their SID and hold 16-byte SIDs and [int64] bounds is read back from
    its binary encoding, in whatever order [Encode] visits the map; the
    encoding is a byte slice, so its length is an [int]. *)
Theorem DecodeMysqlGTIDSet_Encode_roundtrip (g : MysqlGTIDSet)
    (entries : list (string * UUIDSet)) :
  keyed g ->
  (forall k u, g !! k = Some u -> typed u) ->
  entries ≡ₚ map_to_list g ->
  Z.of_nat (length (Encode_sets entries.*2)) <= MaxInt64 ->
  DecodeMysqlGTIDSet (Encode_sets entries.*2) = Ok g.
Proof.
  intros Hkey Hwf HP Hlen.
  rewrite DecodeMysqlGTIDSet_Encode_sets; auto.
  - f_equal. now apply AddSets_map_entries.
  - rewrite List.Forall_forall. intros u Hu.
    apply list_elem_of_In, list_elem_of_fmap in Hu.
    destruct Hu as ([k u'] & -> & Hin). simpl.
    apply (Hwf k). apply elem_of_map_to_list. now rewrite <- HP.
Qed.

Lemma DecodeMysqlGTIDSet_Encode_roundtrip_witness :
  let sid := [x3e; x11; xfa; x47; x71; xca; x11; xe1; x9e; x33; xc8; x0a;
              xa9; x42; x95; x62]%byte in
  let u := mkUUIDSet sid [mkInterval 1 6; mkInterval 10 11] in
  DecodeMysqlGTIDSet (Encode_sets [(uuid.UUID_String sid, u)].*2)
  = Ok {[ uuid.UUID_String sid := u ]}.
Proof.
  intros sid u.
  apply (DecodeMysqlGTIDSet_Encode_roundtrip
           {[ uuid.UUID_String sid := u ]} [(uuid.UUID_String sid, u)]).
  - intros k u' H. apply lookup_singleton_Some in H. destruct H as [<- <-].
    reflexivity.
  - intros k u' H. apply lookup_singleton_Some in H. destruct H as [_ <-].
    split; [reflexivity |].
    repeat constructor; unfold MinInt64, MaxInt64; simpl; lia.
  - now rewrite map_to_list_singleton.
  - vm_compute. discriminate.
Defined.

End Binary.

(** ** Text form of a GTID set *)

Section StringOrder.

Lemma string_compare_Lt_trans : forall a b c : string,
  String.compare a b = Lt -> String.compare b c = Lt ->
  String.compare a c = Lt.
Proof.
  induction a as [|x a IH]; intros [|y b] [|z c]; simpl; try congruence.
  unfold Ascii.compare.
  destruct (N.compare_spec (N_of_ascii x) (N_of_ascii y)) as [E1|L1|G1];
    destruct (N.compare_spec (N_of_ascii y) (N_of_ascii z)) as [E2|L2|G2];
    try congruence; intros H1 H2.
  - rewrite E1, E2, N.compare_refl. eauto.
  - rewrite E1. now apply N.compare_lt_iff in L2 as ->.
  - rewrite <- E2. now apply N.compare_lt_iff in L1 as ->.
  - assert (L : (N_of_ascii x < N_of_ascii z)%N) by lia.
    now apply N.compare_lt_iff in L as ->.
Qed.

Lemma string_ltb_asym (a b : string) :
  String.ltb a b = true -> String.ltb b a = false.
Proof.
  unfold String.ltb. rewrite (String.compare_antisym b a).
  destruct (String.compare a b); simpl; congruence.
Qed.

Lemma string_ltb_antisym (a b : string) :
  String.ltb a b = false -> String.ltb b a = false -> a = b.
Proof.
  unfold String.ltb. rewrite (String.compare_antisym b a).
  destruct (String.compare a b) eqn:E; simpl; try congruence.
  intros _ _. now apply String.compare_eq_iff.
Qed.

Lemma string_ltb_trans (a b c : string) :
  String.ltb b a = false -> String.ltb c b = false -> String.ltb c a = false.
Proof.
  unfold String.ltb. intros H1 H2.
  destruct (String.compare c a) eqn:Eca; try reflexivity. exfalso.
  destruct (String.compare c b) eqn:Ecb; try discriminate.
  - apply String.compare_eq_iff in Ecb. subst. now rewrite Eca in H1.
  - rewrite String.compare_antisym in Ecb.
    destruct (String.compare b c) eqn:Ebc; try discriminate.
    rewrite (string_compare_Lt_trans b c a Ebc Eca) in H1. discriminate.
Qed.

(** The result of [sort.Strings] depends on the strings only, not on
    the order in which they were collected. *)
Lemma Sort_strings_perm (l l' : list string) :
  Permutation l l' -> gosort.Sort String.ltb l = gosort.Sort String.ltb l'.
Proof.
  apply Sort_perm_eq;
    [apply string_ltb_asym | apply string_ltb_antisym | apply string_ltb_trans].
Qed.

End StringOrder.

Section UuidText.

Import go gostrings uuid.

Lemma xtob_hex (b : byte) : xtob (hex_hi b) (hex_lo b) = (b, true).
Proof. destruct b; vm_compute; reflexivity. Qed.

Lemma is_hex_hex_hi (b : byte) : is_hex (hex_hi b) = true.
Proof. destruct b; vm_compute; reflexivity. Qed.

Lemma is_hex_hex_lo (b : byte) : is_hex (hex_lo b) = true.
Proof. destruct b; vm_compute; reflexivity. Qed.

Lemma all_hex_Encode (src : list byte) : all_bytes is_hex (hex_Encode src) = true.
Proof.
  induction src as [|b src IH]; [reflexivity |].
  cbn [hex_Encode all_bytes]. now rewrite is_hex_hex_hi, is_hex_hex_lo, IH.
Qed.

Lemma all_bytes_weaken (P Q : ascii -> bool) (s : string) :
  (forall c, P c = true -> Q c = true) ->
  all_bytes P s = true -> all_bytes Q s = true.
Proof.
  intros HPQ. induction s as [|c s IH]; simpl; [reflexivity |].
  intros H. apply andb_true_iff in H. destruct H as [Hc Hs].
  now rewrite (HPQ c Hc), (IH Hs).
Qed.

Lemma UUID_String_hex_or_dash (u : UUID) :
  all_bytes is_hex_or_dash (UUID_String u) = true.
Proof.
  assert (H : forall src, all_bytes is_hex_or_dash (hex_Encode src) = true).
  { intros src. apply (all_bytes_weaken is_hex); [| apply all_hex_Encode].
    intros c Hc. unfold is_hex_or_dash. now rewrite Hc. }
  unfold UUID_String. rewrite !all_bytes_app, !H. reflexivity.
Qed.

(** [uuid.Parse] reads back what [UUID.String] prints. *)
Lemma Parse_UUID_String (u : UUID) :
  length u = 16%nat -> Parse (UUID_String u) = Some u.
Proof.
  intros H.
  do 16 (destruct u as [|? u]; [discriminate H |]).
  destruct u; [| discriminate H]. clear H.
  unfold Parse, UUID_String. cbv [firstn skipn hex_Encode String.append].
  cbn [String.length Nat.eqb].
  unfold parse_dashed. cbn [byte_at String.get is_dash Ascii.eqb Bool.eqb negb orb].
  cbn [decode_pairs byte_at String.get].
  rewrite !xtob_hex. reflexivity.
Qed.

Lemma UUID_String_head (u : UUID) :
  length u = 16%nat ->
  exists c s, UUID_String u = String c s /\ is_hex c = true.
Proof.
  intros H. destruct u as [|b u]; [discriminate H |].
  do 3 (destruct u as [|? u]; [discriminate H |]).
  unfold UUID_String. cbv [firstn hex_Encode String.append].
  eexists _, _. split; [reflexivity | apply is_hex_hex_hi].
Qed.

End UuidText.

Section SetText.

Import go gostrings strconv uuid.

Variable TrimFunc_IsSpace : string -> string.
Variable TrimRightFunc_IsSpace : string -> string.

Implicit Types (c d : ascii) (s t : string) (u : UUIDSet) (l : IntervalSlice).

Lemma string_app_nil_r s : (s ++ "")%string = s.
Proof.
  induction s as [|c s IH]; [reflexivity |].
  change (String c (s ++ "") = String c s). now rewrite IH.
Qed.

Lemma last_byte_app c s d t : last_byte c (s ++ String d t) = last_byte d t.
Proof.
  revert c. induction s as [|e s IH]; intros c; [reflexivity |]. apply (IH e).
Qed.

Lemma last_ok_app P s t : last_ok P t = true -> last_ok P (s ++ t) = true.
Proof.
  destruct t as [|d t]; [discriminate |]. intros H.
  destruct s as [|c s]; [exact H |].
  change (P (last_byte c (s ++ String d t)) = true).
  now rewrite last_byte_app.
Qed.

Lemma all_bytes_last P c s :
  all_bytes P (String c s) = true -> P (last_byte c s) = true.
Proof.
  revert c. induction s as [|d s IH]; intros c H; simpl in *.
  - now apply andb_true_iff in H.
  - apply andb_true_iff in H. destruct H as [_ H]. now apply IH.
Qed.

Lemma is_digit_plain c :
  is_digit c = true -> (byte_val c >=? RuneSelf) = false /\ asciiSpace c = false.
Proof.
  unfold is_digit, asciiSpace, RuneSelf. intros H.
  apply andb_true_iff in H. rewrite !Z.leb_le in H.
  split; [rewrite Z.geb_leb; apply Z.leb_gt; lia |].
  repeat (apply orb_false_iff; split); apply Z.eqb_neq; lia.
Qed.

Lemma is_hex_plain c :
  is_hex c = true -> (byte_val c >=? RuneSelf) = false /\ asciiSpace c = false.
Proof.
  unfold is_hex, asciiSpace, RuneSelf. intros H.
  apply orb_true_iff in H. rewrite !andb_true_iff, !Z.leb_le in H.
  split; [rewrite Z.geb_leb; apply Z.leb_gt; lia |].
  repeat (apply orb_false_iff; split); apply Z.eqb_neq; lia.
Qed.

(** [TrimSpace] returns a string that starts with a hexadecimal digit
    and ends with a decimal digit as it is. *)
Lemma TrimSpace_plain c s :
  is_hex c = true -> last_ok is_digit (String c s) = true ->
  TrimSpace TrimFunc_IsSpace TrimRightFunc_IsSpace (String c s) = String c s.
Proof.
  intros Hc Hl. destruct (is_hex_plain c Hc) as [H1 H2].
  destruct (is_digit_plain _ Hl) as [H3 H4].
  cbn [TrimSpace]. rewrite H1, H2.
  cbn [String.length TrimSpace_right]. now rewrite H3, H4.
Qed.

Lemma FormatInt_last_digit z : 0 <= z -> last_ok is_digit (FormatInt z) = true.
Proof.
  intros Hz. unfold FormatInt. destruct (Z.ltb_spec z 0); [lia |].
  destruct (FormatUint_digits z) as (c & s & E & Hc & Hs). rewrite E.
  apply all_bytes_last. simpl. now rewrite Hc, Hs.
Qed.

Lemma FormatInt_digits_or_dash z :
  0 <= z -> all_bytes is_digit_or_dash (FormatInt z) = true.
Proof.
  intros Hz. unfold FormatInt. destruct (Z.ltb_spec z 0); [lia |].
  destruct (FormatUint_digits z) as (c & s & E & Hc & Hs). rewrite E.
  apply (all_bytes_weaken is_digit).
  - intros d Hd. unfold is_digit_or_dash. now rewrite Hd.
  - simpl. now rewrite Hc, Hs.
Qed.

Lemma Interval_String_chars (i : Interval) :
  0 <= Start i -> Start i < Stop i -> Stop i <= MaxInt64 ->
  all_bytes is_digit_or_dash (Interval_String i) = true /\
  last_ok is_digit (Interval_String i) = true.
Proof.
  intros H0 Hlt Hmax.
  destruct (Interval_String_cases i H0 Hlt Hmax) as [[-> _]|[-> Hs]].
  - split; [now apply FormatInt_digits_or_dash | now apply FormatInt_last_digit].
  - split.
    + rewrite all_bytes_app. cbn [all_bytes].
      rewrite !FormatInt_digits_or_dash by lia. reflexivity.
    + apply last_ok_app.
      pose proof (FormatInt_last_digit (Stop i - 1) ltac:(lia)) as HL.
      destruct (FormatInt (Stop i - 1)) as [|d t]; [discriminate |]. exact HL.
Qed.

Lemma Intervals_String_last l :
  l <> [] ->
  Forall (fun i => 0 <= Start i /\ Stop i <= MaxInt64) l -> valid l ->
  last_ok is_digit (Intervals_String l) = true.
Proof.
  induction l as [|i l IH]; intros Hne HR HV; [congruence |].
  inversion HR as [|? ? [H0 Hmax] HR']; subst.
  inversion HV as [|? ? Hlt HV']; subst.
  cbn [Intervals_String].
  change (":" ++ Interval_String i ++ Intervals_String l)%string
    with (String ":" (Interval_String i ++ Intervals_String l)).
  destruct l as [|j l].
  - cbn [Intervals_String].
    replace (Interval_String i ++ "")%string with (Interval_String i).
    + destruct (Interval_String_chars i H0 Hlt Hmax) as [_ HL].
      destruct (Interval_String i) as [|d t]; [discriminate |].
      exact HL.
    + symmetry. apply string_app_nil_r.
  - apply (last_ok_app _ (String ":" (Interval_String i))).
    apply IH; [discriminate | exact HR' | exact HV'].
Qed.

Lemma Split_Intervals_String l : forall s,
  has_byte ":" s = false ->
  Forall (fun i => 0 <= Start i /\ Stop i <= MaxInt64) l -> valid l ->
  Split (s ++ Intervals_String l) ":" = s :: map Interval_String l.
Proof.
  induction l as [|i l IH]; intros s Hs HR HV.
  - cbn [Intervals_String map].
    rewrite string_app_nil_r. now apply Split_no_sep.
  - inversion HR as [|? ? [H0 Hmax] HR']; subst.
    inversion HV as [|? ? Hlt HV']; subst.
    cbn [Intervals_String map].
    change (":" ++ Interval_String i ++ Intervals_String l)%string
      with (String ":" (Interval_String i ++ Intervals_String l)).
    rewrite Split_app_sep by exact Hs. f_equal.
    apply IH; auto.
    apply (all_bytes_has_byte is_digit_or_dash); [reflexivity |].
    now apply Interval_String_chars.
Qed.

Lemma parse_intervals_String l :
  Forall (fun i => 0 <= Start i /\ Stop i <= MaxInt64) l -> valid l ->
  parse_intervals (map Interval_String l) = Some l.
Proof.
  induction l as [|i l IH]; intros HR HV; [reflexivity |].
  inversion HR as [|? ? [H0 Hmax] HR']; subst.
  inversion HV as [|? ? Hlt HV']; subst.
  cbn [map parse_intervals].
  assert (Hi : parseInterval (Interval_String i) = Some i).
  { destruct (Interval_String_cases i H0 Hlt Hmax) as [[-> Hs]|[-> Hs]].
    - rewrite parseInterval_single_number by lia.
      destruct i as [a b]; simpl in *. now subst b.
    - rewrite parseInterval_number_range by lia.
      destruct i as [a b]; simpl in *. do 2 f_equal. lia. }
  rewrite Hi. now rewrite IH.
Qed.

(** [ParseUUIDSet] reads back what [UUIDSet.String] prints. *)
Lemma ParseUUIDSet_String u :
  printable u ->
  ParseUUIDSet TrimFunc_IsSpace TrimRightFunc_IsSpace (UUIDSet_String u)
  = Some u.
Proof.
  intros (Hsid & Hne & HV & HS & HR). destruct u as [sid l]. simpl in *.
  unfold ParseUUIDSet, UUIDSet_String. cbn [SID Intervals].
  destruct (UUID_String_head sid Hsid) as (c & s & E & Hc).
  assert (HT : TrimSpace TrimFunc_IsSpace TrimRightFunc_IsSpace
                 (UUID_String sid ++ Intervals_String l)
               = (UUID_String sid ++ Intervals_String l)%string).
  { pose proof (last_ok_app is_digit (UUID_String sid) (Intervals_String l)
                  (Intervals_String_last l Hne HR HV)) as HL.
    rewrite E in *.
    change (String c s ++ Intervals_String l)%string
      with (String c (s ++ Intervals_String l)) in *.
    now apply TrimSpace_plain. }
  rewrite HT.
  rewrite Split_Intervals_String; auto.
  - destruct l as [|i l]; [congruence |]. cbn [map].
    rewrite Parse_UUID_String by exact Hsid.
    change (Interval_String i :: map Interval_String l)
      with (map Interval_String (i :: l)).
    rewrite parse_intervals_String by assumption.
    rewrite Normalize_fixed; auto using valid_separated_Less_sorted.
  - apply (all_bytes_has_byte is_hex_or_dash); [reflexivity |].
    apply UUID_String_hex_or_dash.
Qed.

Lemma Split_Join (strs : list string) :
  strs <> [] -> Forall (fun x => has_byte "," x = false) strs ->
  Split (Join strs ",") "," = strs.
Proof.
  induction strs as [|x strs IH]; intros Hne HF; [congruence |].
  inversion HF as [|? ? Hx HF']; subst.
  destruct strs as [|y strs]; [now apply Split_no_sep |].
  change (Join (x :: y :: strs) ",")
    with (x ++ String "," (Join (y :: strs) ","))%string.
  rewrite Split_app_sep by exact Hx. f_equal. now apply IH.
Qed.

Lemma Intervals_String_no_comma l :
  Forall (fun i => 0 <= Start i /\ Stop i <= MaxInt64) l -> valid l ->
  has_byte "," (Intervals_String l) = false.
Proof.
  induction l as [|i l IH]; intros HR HV; [reflexivity |].
  inversion HR as [|? ? [H0 Hmax] HR']; subst.
  inversion HV as [|? ? Hlt HV']; subst.
  cbn [Intervals_String].
  change (":" ++ Interval_String i ++ Intervals_String l)%string
    with (String ":" (Interval_String i ++ Intervals_String l)).
  cbn [has_byte]. rewrite has_byte_app, IH by assumption.
  rewrite (all_bytes_has_byte is_digit_or_dash); [reflexivity | reflexivity |].
  now apply Interval_String_chars.
Qed.

Lemma UUIDSet_String_no_comma u :
  printable u -> has_byte "," (UUIDSet_String u) = false.
Proof.
  intros (_ & _ & HV & _ & HR). unfold UUIDSet_String.
  rewrite has_byte_app, Intervals_String_no_comma by assumption.
  rewrite (all_bytes_has_byte is_hex_or_dash); [reflexivity | reflexivity |].
  apply UUID_String_hex_or_dash.
Qed.

Lemma UUIDSet_String_nonempty u :
  printable u -> exists c s, UUIDSet_String u = String c s.
Proof.
  intros (Hsid & _). destruct (UUID_String_head (SID u) Hsid) as (c & s & E & _).
  unfold UUIDSet_String. rewrite E. eexists _, _. reflexivity.
Qed.

Lemma Parse_loop_printed (sets : list UUIDSet) : forall g : MysqlGTIDSet,
  Forall printable sets ->
  Parse_loop TrimFunc_IsSpace TrimRightFunc_IsSpace
    (map UUIDSet_String sets) g
  = Some (AddSets sets g).
Proof.
  induction sets as [|u sets IH]; intros g HF; [reflexivity |].
  inversion HF as [|? ? Hu HF']; subst.
  cbn [map Parse_loop]. rewrite ParseUUIDSet_String by exact Hu.
  now rewrite IH.
Qed.

(** However the map is visited, [String] joins the sorted strings of
    the sets. *)
Lemma String_sets_sorted (sets : list UUIDSet) :
  String_sets sets
  = Join (gosort.Sort String.ltb (map UUIDSet_String sets)) ",".
Proof. destruct sets as [|u [|v sets]]; reflexivity. Qed.

Lemma String_sets_perm (sets sets' : list UUIDSet) :
  Permutation sets sets' -> String_sets sets = String_sets sets'.
Proof.
  intros HP. rewrite !String_sets_sorted. f_equal.
  apply Sort_strings_perm. now apply Permutation_map.
Qed.

Lemma ParseMysqlGTIDSet_printed (sets : list UUIDSet) :
  Forall printable sets ->
  exists sets', Permutation sets sets' /\
    ParseMysqlGTIDSet TrimFunc_IsSpace TrimRightFunc_IsSpace (String_sets sets)
    = Some (AddSets sets' ∅).
Proof.
  intros HF. rewrite String_sets_sorted.
  pose proof (Sort_perm String.ltb (map UUIDSet_String sets)) as HP.
  apply Permutation_map_inv in HP. destruct HP as (sets' & E & HP).
  rewrite E. exists sets'. split; [exact HP |].
  assert (HF' : Forall printable sets').
  { rewrite List.Forall_forall in HF |- *. intros u Hu. apply HF.
    eapply Permutation_in; [symmetry; exact HP | exact Hu]. }
  unfold ParseMysqlGTIDSet.
  destruct sets' as [|u sets']; [reflexivity |].
  assert (Hne : String.eqb (Join (map UUIDSet_String (u :: sets')) ",") ""
                = false).
  { inversion HF' as [|? ? Hu _]; subst.
    destruct (UUIDSet_String_nonempty u Hu) as (c & s & Eu).
    cbn [map]. destruct (map UUIDSet_String sets'); cbn [Join]; rewrite Eu;
      reflexivity. }
  rewrite Hne, Split_Join.
  - now apply Parse_loop_printed.
  - discriminate.
  - rewrite List.Forall_forall in HF' |- *. intros x Hx.
    apply in_map_iff in Hx. destruct Hx as (v & <- & Hv).
    apply UUIDSet_String_no_comma. now apply HF'.
Qed.

(** C5 (as amended): a [MysqlGTIDSet] whose entries are filed under the
    string of their SID and hold a non-empty normalized list of intervals
    with [0 <= Start < Stop] is parsed back from its printed form, in
    whatever order [String] visits the map; so printing the parsed set,
    again in any order, gives the same string. *)
Theorem ParseMysqlGTIDSet_String_roundtrip (g : MysqlGTIDSet)
    (entries : list (string * UUIDSet)) :
  keyed g ->
  (forall k u, g !! k = Some u -> printable u) ->
  entries ≡ₚ map_to_list g ->
  ParseMysqlGTIDSet TrimFunc_IsSpace TrimRightFunc_IsSpace
    (String_sets entries.*2) = Some g /\
  (forall entries' : list (string * UUIDSet),
     entries' ≡ₚ map_to_list g ->
     String_sets entries'.*2 = String_sets entries.*2).
Proof.
  intros Hkey Hwf HP. split.
  - assert (HF : Forall printable entries.*2).
    { rewrite List.Forall_forall. intros u Hu.
      apply list_elem_of_In, list_elem_of_fmap in Hu.
      destruct Hu as ([k u'] & -> & Hin). simpl.
      apply (Hwf k). apply elem_of_map_to_list. now rewrite <- HP. }
    destruct (ParseMysqlGTIDSet_printed _ HF) as (sets' & HP' & ->).
    f_equal.
    change (entries.*2) with (map snd entries) in HP'. symmetry in HP'.
    apply Permutation_map_inv in HP'. destruct HP' as (entries' & -> & HPe).
    apply (AddSets_map_entries g entries' Hkey).
    now rewrite <- HPe.
  - intros entries' HP'. apply String_sets_perm.
    apply fmap_Permutation. now rewrite HP, HP'.
Qed.

End SetText.

Section SetTextExamples.

Import samples.

Lemma ParseMysqlGTIDSet_String_roundtrip_witness :
  let u := mkUUIDSet sample_sid [mkInterval 1 6; mkInterval 10 11] in
  ParseMysqlGTIDSet no_trim no_trim
    (String_sets [(uuid.UUID_String sample_sid, u)].*2)
  = Some {[ uuid.UUID_String sample_sid := u ]} /\
  (forall entries' : list (string * UUIDSet),
     entries' ≡ₚ map_to_list ({[ uuid.UUID_String sample_sid := u ]} : MysqlGTIDSet) ->
     String_sets entries'.*2
     = String_sets [(uuid.UUID_String sample_sid, u)].*2).
Proof.
  intros u.
  apply (ParseMysqlGTIDSet_String_roundtrip no_trim no_trim
           {[ uuid.UUID_String sample_sid := u ]} [(uuid.UUID_String sample_sid, u)]).
  - intros k u' H. apply lookup_singleton_Some in H. destruct H as [<- <-].
    reflexivity.
  - intros k u' H. apply lookup_singleton_Some in H. destruct H as [_ <-].
    split; [reflexivity |]. split; [discriminate |].
    split; [repeat constructor |]. split; [simpl; lia |].
    repeat constructor; unfold MaxInt64; simpl; lia.
  - now rewrite map_to_list_singleton.
Defined.

(** A set whose UUID has no interval prints as the bare UUID, and a set
    with the interval [-1, 0) prints as ["...:-1"]; [ParseMysqlGTIDSet]
    rejects both, so there is no parsed set to print. *)
Lemma ParseMysqlGTIDSet_String_fails :
  MysqlGTIDSet_String {[ uuid.UUID_String sample_sid := mkUUIDSet sample_sid [] ]}
  = "3e11fa47-71ca-11e1-9e33-c80aa9429562"%string /\
  ParseMysqlGTIDSet no_trim no_trim
    (MysqlGTIDSet_String {[ uuid.UUID_String sample_sid := mkUUIDSet sample_sid [] ]})
  = None /\
  MysqlGTIDSet_String
    {[ uuid.UUID_String sample_sid := mkUUIDSet sample_sid [mkInterval (-1) 0] ]}
  = "3e11fa47-71ca-11e1-9e33-c80aa9429562:-1"%string /\
  ParseMysqlGTIDSet no_trim no_trim
    (MysqlGTIDSet_String
       {[ uuid.UUID_String sample_sid := mkUUIDSet sample_sid [mkInterval (-1) 0] ]})
  = None.
Proof. repeat split; vm_compute; reflexivity. Qed.

End SetTextExamples.

(** ** FormatDescriptionEvent: server version and checksum fields *)

Section FormatDescription.

Import go gostrings strconv replication.

Variable DecodeRuneInString : string -> Z * nat.
Variable IsNumber : Z -> bool.
Variable ToLower_Map : string -> string.

Implicit Types (c : ascii) (s t rest : string).

Lemma is_digit_ascii c : is_digit c = true -> (byte_val c <? RuneSelf) = true.
Proof.
  unfold is_digit, RuneSelf. intros H. apply andb_true_iff in H.
  rewrite !Z.leb_le in H. apply Z.ltb_lt. lia.
Qed.

(** On a string of digits the loop of [splitServerVersion] never
    breaks. *)
Lemma first_non_number_digits s : forall fuel i,
  all_bytes is_digit s = true ->
  first_non_number DecodeRuneInString IsNumber fuel s i = None.
Proof.
  induction s as [|c s IH]; intros fuel i H; destruct fuel; try reflexivity.
  simpl in H. apply andb_true_iff in H. destruct H as [Hc Hs].
  cbn [first_non_number]. rewrite (is_digit_ascii c Hc), Hc. now apply IH.
Qed.

(** It breaks at the first ASCII byte that is not a digit. *)
Lemma first_non_number_suffix s c rest : forall fuel i,
  all_bytes is_digit s = true ->
  is_digit c = false -> (byte_val c <? RuneSelf) = true ->
  (String.length s < fuel)%nat ->
  first_non_number DecodeRuneInString IsNumber fuel (s ++ String c rest) i
  = Some (i + String.length s)%nat.
Proof.
  induction s as [|d s IH]; intros fuel i H Hc Hascii Hfuel;
    (destruct fuel as [|fuel]; [simpl in Hfuel; lia |]).
  - change ("" ++ String c rest)%string with (String c rest).
    cbn [first_non_number]. rewrite Hascii, Hc. simpl. f_equal. lia.
  - simpl in H. apply andb_true_iff in H. destruct H as [Hd Hs].
    change (String d s ++ String c rest)%string
      with (String d (s ++ String c rest)).
    cbn [first_non_number]. rewrite (is_digit_ascii d Hd), Hd.
    rewrite IH; auto; try (simpl in Hfuel; lia).
Qed.

Lemma take_bytes_app s t : take_bytes (String.length s) (s ++ t) = s.
Proof.
  induction s as [|c s IH]; [now destruct t |].
  change (String c s ++ t)%string with (String c (s ++ t)).
  simpl. now rewrite IH.
Qed.

Lemma length_string_app s t :
  String.length (s ++ t) = (String.length s + String.length t)%nat.
Proof.
  induction s as [|c s IH]; [reflexivity |].
  change (String c s ++ t)%string with (String c (s ++ t)).
  simpl. now rewrite IH.
Qed.

Lemma FormatInt_all_digits z : 0 <= z -> all_bytes is_digit (FormatInt z) = true.
Proof.
  intros Hz. unfold FormatInt. destruct (Z.ltb_spec z 0); [lia |].
  destruct (FormatUint_digits z) as (c & s & E & Hc & Hs). rewrite E.
  simpl. now rewrite Hc, Hs.
Qed.

Lemma Split_version x y s2 :
  0 <= x -> 0 <= y -> has_byte "." s2 = false ->
  Split (FormatInt x ++ String "." (FormatInt y ++ String "." s2)) "."
  = [FormatInt x; FormatInt y; s2].
Proof.
  intros Hx Hy Hs.
  rewrite Split_app_sep by (apply FormatInt_no_byte; auto).
  rewrite Split_app_sep by (apply FormatInt_no_byte; auto).
  now rewrite Split_no_sep.
Qed.

(** A version [X.Y.Z] followed by a suffix that starts with an ASCII
    byte other than a digit yields the three numbers ... *)
Lemma splitServerVersion_suffixed x y z c rest :
  0 <= x <= MaxInt64 -> 0 <= y <= MaxInt64 -> 0 <= z <= MaxInt64 ->
  is_digit c = false -> (byte_val c <? RuneSelf) = true ->
  has_byte "." (String c rest) = false ->
  splitServerVersion DecodeRuneInString IsNumber
    (FormatInt x ++ String "." (FormatInt y ++ String "."
       (FormatInt z ++ String c rest)))
  = [x; y; z].
Proof.
  intros Hx Hy Hz Hc Hascii Hrest. unfold splitServerVersion.
  rewrite Split_version; try lia.
  - unfold Atoi. rewrite !ParseInt_FormatInt by lia. cbn [fst].
    rewrite first_non_number_suffix; auto.
    + cbn [Nat.add]. rewrite take_bytes_app, ParseInt_FormatInt by lia.
      reflexivity.
    + now apply FormatInt_all_digits.
    + rewrite length_string_app. simpl. lia.
  - rewrite has_byte_app, Hrest, FormatInt_no_byte by (auto; lia).
    reflexivity.
Qed.

(** ... while a version [X.Y.Z] with nothing after the digits of [Z]
    yields [X, Y, 0]: the loop ends without a break, [index] stays 0 and
    [Atoi] is given the empty string. *)
Lemma splitServerVersion_unsuffixed x y z :
  0 <= x <= MaxInt64 -> 0 <= y <= MaxInt64 -> 0 <= z ->
  splitServerVersion DecodeRuneInString IsNumber
    (FormatInt x ++ String "." (FormatInt y ++ String "." (FormatInt z)))
  = [x; y; 0].
Proof.
  intros Hx Hy Hz. unfold splitServerVersion.
  rewrite Split_version; try lia.
  - unfold Atoi. rewrite !ParseInt_FormatInt by lia. cbn [fst].
    rewrite first_non_number_digits by now apply FormatInt_all_digits.
    reflexivity.
  - apply FormatInt_no_byte; auto.
Qed.

(** The decision [Decode] takes follows the version product that
    [calcVersionProduct] computes. *)
Lemma FormatDescriptionEvent_Decode_decision (data : list byte)
    (e : FormatDescriptionEvent) :
  FormatDescriptionEvent_Decode DecodeRuneInString IsNumber ToLower_Map data
    = Ok e ->
  if uses_checksum DecodeRuneInString IsNumber ToLower_Map (ServerVersion e)
  then ChecksumAlgorithm e = byte_Z (nth (length data - 5) data Byte.x00) /\
       EventTypeHeaderLengths e
       = firstn (length data - 5 - 57) (skipn 57 data)
  else ChecksumAlgorithm e = BINLOG_CHECKSUM_ALG_UNDEF /\
       EventTypeHeaderLengths e = skipn 57 data.
Proof.
  unfold FormatDescriptionEvent_Decode.
  destruct (length data <? 57)%nat; [discriminate |].
  destruct (negb _); [discriminate |].
  destruct (uses_checksum _ _ _ _) eqn:E.
  - destruct (length data - 5 <? 57)%nat; [discriminate |].
    intros H. injection H as <-. cbn [ServerVersion]. rewrite E.
    split; reflexivity.
  - intros H. injection H as <-. cbn [ServerVersion]. rewrite E.
    split; reflexivity.
Qed.

Example splitServerVersion_5_6_10 :
  splitServerVersion DecodeRuneInString IsNumber "5.6.10" = [5; 6; 0].
Proof. vm_compute. reflexivity. Qed.

Example splitServerVersion_5_6_10_log :
  splitServerVersion DecodeRuneInString IsNumber "5.6.10-log" = [5; 6; 10].
Proof. vm_compute. reflexivity. Qed.

Example Decode_5_6_10_log :
  FormatDescriptionEvent_Decode DecodeRuneInString IsNumber ToLower_Map
    (samples.fde_body "5.6.10-log")
  = Ok {| Version := 4; ServerVersion := "5.6.10-log"; CreateTimestamp := 0;
          EventHeaderLength := 19;
          EventTypeHeaderLengths := [x38; x0d; x00]%byte;
          ChecksumAlgorithm := 1 |}.
Proof. vm_compute. reflexivity. Qed.

Example Decode_mariadb :
  option_map ChecksumAlgorithm
    (match FormatDescriptionEvent_Decode DecodeRuneInString IsNumber
             ToLower_Map (samples.fde_body "5.5.5-10.1.0-MariaDB-log") with
     | Ok e => Some e
     | _ => None
     end)
  = Some 1.
Proof. vm_compute. reflexivity. Qed.

(** C6 (the code departs from it): the server version ["5.6.10"] is
    MySQL 5.6.10, at least 5.6.1, and the body ends with the algorithm
    byte 1 and a checksum; [Decode] computes the version product of
    5.6.0, reports [ChecksumAlgorithm] 255 and leaves the five trailing
    bytes in the header-length table. *)
Theorem FormatDescriptionEvent_Decode_unsuffixed_version :
  calcVersionProduct DecodeRuneInString IsNumber "5.6.10"
    = (5 * 256 + 6) * 256 + 0 /\
  checksumVersionProductMysql = (5 * 256 + 6) * 256 + 1 /\
  FormatDescriptionEvent_Decode DecodeRuneInString IsNumber ToLower_Map
    (samples.fde_body "5.6.10")
  = Ok {| Version := 4; ServerVersion := "5.6.10"; CreateTimestamp := 0;
          EventHeaderLength := 19;
          EventTypeHeaderLengths :=
            [x38; x0d; x00; x01; xaa; xbb; xcc; xdd]%byte;
          ChecksumAlgorithm := 255 |}.
Proof. repeat split; vm_compute; reflexivity. Qed.

End FormatDescription.

(** ** JSON diff records *)

Section JsonDiffProps.

Import go replication.

Variable E : Type.
Variable LengthEncodedInt : list byte -> result (Z * bool * Z).

(** C8: [decodeJsonPartialBinary] returns [ErrCorruptedJSONDiff] exactly
    when the leading byte is none of 0, 1, 2; with the path read, an
    operation 2 (Remove) returns the diff with the path and an empty
    value whatever [decodeJsonBinary] is, and the operations 0 and 1
    read a length-prefixed value, decode it with [decodeJsonBinary] and
    return its text as the value (or its error, wrapped). *)
Theorem decodeJsonPartialBinary_spec (decodeJsonBinary : list byte -> E + list byte) :
  (forall data : list byte,
     decodeJsonPartialBinary E LengthEncodedInt decodeJsonBinary data
       = Failed ErrCorruptedJSONDiff <->
     exists b rest, data = b :: rest /\
       byte_Z b <> 0 /\ byte_Z b <> 1 /\ byte_Z b <> 2) /\
  (forall (b : byte) (rest : list byte) (pathLength : Z) (isNull : bool)
          (n : Z) (data1 path data2 : list byte),
     byte_Z b = 0 \/ byte_Z b = 1 \/ byte_Z b = 2 ->
     LengthEncodedInt rest = Ok (pathLength, isNull, n) ->
     slice_from rest n = Some data1 ->
     slice_to data1 pathLength = Some path ->
     slice_from data1 pathLength = Some data2 ->
     (byte_Z b = 2 ->
      forall decodeAny : list byte -> E + list byte,
        decodeJsonPartialBinary E LengthEncodedInt decodeAny (b :: rest)
        = Decoded {| Op := JsonDiffOperationRemove;
                     Path := string_of_list_byte path;
                     Value := EmptyString |}) /\
     (byte_Z b <> 2 ->
      forall (valueLength : Z) (isNull' : bool) (n' : Z)
             (data3 value : list byte),
        LengthEncodedInt data2 = Ok (valueLength, isNull', n') ->
        slice_from data2 n' = Some data3 ->
        slice_to data3 valueLength = Some value ->
        decodeJsonPartialBinary E LengthEncodedInt decodeJsonBinary (b :: rest)
        = match decodeJsonBinary value with
          | inl err => Failed (ErrCannotReadDiff path err)
          | inr d =>
              Decoded {| Op := byte_Z b;
                         Path := string_of_list_byte path;
                         Value := string_of_list_byte d |}
          end)).
Proof.
  split.
  - intros data. split.
    + destruct data as [|b rest]; [discriminate |]. intros H.
      exists b, rest. split; [reflexivity |].
      unfold decodeJsonPartialBinary, JsonDiffOperationReplace,
        JsonDiffOperationInsert, JsonDiffOperationRemove in H.
      destruct (Z.eqb_spec (byte_Z b) 0) as [E0|N0];
        destruct (Z.eqb_spec (byte_Z b) 1) as [E1|N1];
        destruct (Z.eqb_spec (byte_Z b) 2) as [E2|N2];
        cbn [orb] in H; try (repeat split; assumption); exfalso;
        repeat match type of H with
               | match ?x with _ => _ end = _ => destruct x; try discriminate
               | (let '(_, _) := ?x in _) = _ => destruct x
               end.
    + intros (b & rest & -> & N0 & N1 & N2).
      unfold decodeJsonPartialBinary, JsonDiffOperationReplace,
        JsonDiffOperationInsert, JsonDiffOperationRemove.
      destruct (Z.eqb_spec (byte_Z b) 0); [contradiction |].
      destruct (Z.eqb_spec (byte_Z b) 1); [contradiction |].
      destruct (Z.eqb_spec (byte_Z b) 2); [contradiction |]. reflexivity.
  - intros b rest pathLength isNull n data1 path data2 Hop HL H1 H2 H3.
    assert (Hsw : (byte_Z b =? JsonDiffOperationReplace)
                  || (byte_Z b =? JsonDiffOperationInsert)
                  || (byte_Z b =? JsonDiffOperationRemove) = true).
    { unfold JsonDiffOperationReplace, JsonDiffOperationInsert,
        JsonDiffOperationRemove.
      destruct Hop as [-> | [-> | ->]]; reflexivity. }
    split.
    + intros Hrm decodeAny. unfold decodeJsonPartialBinary.
      rewrite Hsw, HL, H1, H2, H3, Hrm. reflexivity.
    + intros Hrm valueLength isNull' n' data3 value HL' H4 H5.
      unfold decodeJsonPartialBinary.
      rewrite Hsw, HL, H1, H2, H3, HL', H4, H5.
      unfold JsonDiffOperationRemove.
      destruct (Z.eqb_spec (byte_Z b) 2); [contradiction | reflexivity].
Qed.

End JsonDiffProps.

Section JsonDiffExamples.

Import go replication samples.

Example decodeJsonPartialBinary_replace :
  decodeJsonPartialBinary unit one_byte_length keep_bytes
    [x00; x03; x24; x2e; x61; x02; x31; x32]%byte
  = Decoded {| Op := 0; Path := "$.a"; Value := "12" |}.
Proof. vm_compute. reflexivity. Qed.

Example decodeJsonPartialBinary_bad_op :
  decodeJsonPartialBinary unit one_byte_length keep_bytes
    [x03; x03; x24; x2e; x61]%byte
  = Failed ErrCorruptedJSONDiff.
Proof. vm_compute. reflexivity. Qed.

Lemma decodeJsonPartialBinary_spec_witness :
  decodeJsonPartialBinary unit one_byte_length keep_bytes
    [x02; x03; x24; x2e; x61]%byte
  = Decoded {| Op := JsonDiffOperationRemove; Path := "$.a";
               Value := EmptyString |}.
Proof.
  apply (proj1
           (proj2 (decodeJsonPartialBinary_spec unit one_byte_length keep_bytes)
              x02%byte [x03; x24; x2e; x61]%byte 3 false 1
              [x24; x2e; x61]%byte [x24; x2e; x61]%byte []
              (or_intror (or_intror eq_refl)) eq_refl eq_refl eq_refl eq_refl)
           eq_refl keep_bytes).
Defined.

End JsonDiffExamples.

(** ** Tagged GTID events *)

Section TaggedProps.

Import go replication.

Variable Unmarshal : list byte -> Message -> option Message.
Variable GetFieldByName : Message -> string -> option Field.

Ltac step H :=
  match type of H with
  | bind ?r _ = Ok _ =>
      let v := fresh "v" in
      let Hv := fresh "Hv" in
      destruct r as [v| |] eqn:Hv; cbn [bind] in H; [| discriminate H ..]
  end.

(** C9: when [Decode] succeeds on an event whose
    [original_commit_timestamp] field was skipped, the decoded
    [OriginalCommitTimestamp] is the [ImmediateCommitTimestamp]; and a
    skipped [original_server_version] gives an [OriginalServerVersion]
    equal to the [ImmediateServerVersion]. *)
Theorem GtidTaggedLogEvent_Decode_skipped_defaults (data : list byte)
    (e : GTIDEvent) (msg : Message) :
  GtidTaggedLogEvent_Decode Unmarshal GetFieldByName data = Ok e ->
  Unmarshal data tagged_format = Some msg ->
  (forall f : Field,
     GetFieldByName msg "original_commit_timestamp" = Some f ->
     Skipped f = true ->
     OriginalCommitTimestamp e = ImmediateCommitTimestamp e) /\
  (forall f : Field,
     GetFieldByName msg "original_server_version" = Some f ->
     Skipped f = true ->
     OriginalServerVersion e = ImmediateServerVersion e).
Proof.
  intros H HU. unfold GtidTaggedLogEvent_Decode in H. rewrite HU in H.
  step H. destruct v as [|flag0 flags]; [discriminate H |].
  do 10 step H. injection H as <-. cbn [OriginalCommitTimestamp
    ImmediateCommitTimestamp OriginalServerVersion ImmediateServerVersion].
  split; intros f Hf Hs.
  - unfold field_UintVar in Hv6. rewrite Hf in Hv6.
    destruct (Type_ f) as [[| |x|]|]; try discriminate.
    injection Hv6 as <-. cbn [fst snd]. now rewrite Hs.
  - unfold field_UintVar in Hv8. rewrite Hf in Hv8.
    destruct (Type_ f) as [[| |x|]|]; try discriminate.
    injection Hv8 as <-. cbn [fst snd]. now rewrite Hs.
Qed.

End TaggedProps.

Section TaggedExamples.

Import go replication samples.

Example GtidTaggedLogEvent_Decode_filled :
  GtidTaggedLogEvent_Decode unmarshal_filled find_field []
  = Ok {| CommitFlag := 1; SID := repeat x07%byte 16; Tag := "blue";
          GNO := 42; LastCommitted := 5; SequenceNumber := 6;
          ImmediateCommitTimestamp := 1700000000000000;
          OriginalCommitTimestamp := 1700000000000000;
          TransactionLength := 300;
          ImmediateServerVersion := 80300;
          OriginalServerVersion := 80300 |}.
Proof. vm_compute. reflexivity. Qed.

Lemma GtidTaggedLogEvent_Decode_skipped_defaults_witness :
  let e := {| CommitFlag := 1; SID := repeat x07%byte 16; Tag := "blue";
              GNO := 42; LastCommitted := 5; SequenceNumber := 6;
              ImmediateCommitTimestamp := 1700000000000000;
              OriginalCommitTimestamp := 1700000000000000;
              TransactionLength := 300;
              ImmediateServerVersion := 80300;
              OriginalServerVersion := 80300 |} in
  (forall f : Field,
     find_field filled "original_commit_timestamp" = Some f ->
     Skipped f = true ->
     OriginalCommitTimestamp e = ImmediateCommitTimestamp e) /\
  (forall f : Field,
     find_field filled "original_server_version" = Some f ->
     Skipped f = true ->
     OriginalServerVersion e = ImmediateServerVersion e).
Proof.
  intros e.
  apply (GtidTaggedLogEvent_Decode_skipped_defaults unmarshal_filled
           find_field [] e filled).
  - vm_compute. reflexivity.
  - reflexivity.
Defined.

End TaggedExamples.

(** ** Containment and equality of interval slices *)

Section ContainProps.

Implicit Types s sub o : IntervalSlice.

Lemma Contain_true_within : forall sub s,
  Contain s sub = true ->
  Forall (fun x => exists h, In h s /\ Start h <= Start x /\ Stop x <= Stop h)
         sub.
Proof.
  induction sub as [|x sub IH]; intros s H; [constructor |].
  cbn [Contain] in H.
  destruct (Contain_skip_spec (Start x) s) as (d & E & _ & _).
  destruct (Contain_skip (Start x) s) as [|sj s'] eqn:Es; [discriminate |].
  destruct (Z.ltb_spec (Start x) (Start sj)); [discriminate |].
  destruct (Z.gtb_spec (Stop x) (Stop sj)); [discriminate |].
  cbn [orb] in H. constructor.
  - exists sj. split; [| lia]. rewrite E. apply in_or_app. right. now left.
  - eapply List.Forall_impl; [| exact (IH _ H)].
    intros y (h & Hh & Hy). exists h. split; [| exact Hy].
    rewrite E. apply in_or_app. now right.
Qed.

(** In a normalized slice an interval whose points are all covered lies
    inside a single element. *)
Lemma covered_within s (x : Interval) :
  valid s -> separated s -> Start x < Stop x ->
  (forall p, contains_point x p = true -> covers s p = true) ->
  within s x.
Proof.
  intros HV HS Hx Hcov.
  assert (H0 : covers s (Start x) = true)
    by (apply Hcov, contains_point_true; lia).
  apply covers_true in H0. destruct H0 as (h & Hh & H0).
  exists h. split; [exact Hh |]. split; [lia |]. split; [lia |].
  destruct (Z.le_gt_cases (Stop x) (Stop h)) as [|Hlt]; [assumption |].
  exfalso.
  assert (H1 : covers s (Stop h) = true)
    by (apply Hcov, contains_point_true; lia).
  apply covers_true in H1. destruct H1 as (h' & Hh' & H1).
  destruct (valid_separated_apart s h h' HV HS Hh Hh') as [->|[?|?]]; lia.
Qed.

Lemma Equal_loop_eq : forall s o,
  length s = length o -> (Equal_loop s o = true <-> s = o).
Proof.
  induction s as [|a s IH]; intros [|b o] Hlen; try discriminate.
  - split; reflexivity.
  - cbn [Equal_loop]. injection Hlen as Hlen. specialize (IH o Hlen).
    destruct (Z.eqb_spec (Start a) (Start b)) as [E1|E1]; cbn [negb orb].
    + destruct (Z.eqb_spec (Stop a) (Stop b)) as [E2|E2]; cbn [negb].
      * rewrite IH. destruct a, b; simpl in *; subst.
        split; [intros -> | intros [= ->]]; reflexivity.
      * split; [discriminate | intros [= -> ->]; congruence].
    + split; [discriminate | intros [= -> ->]; congruence].
Qed.

Lemma Equal_eq s o : Equal s o = true <-> s = o.
Proof.
  unfold Equal. destruct (Nat.eqb_spec (length s) (length o)) as [E|E];
    cbn [negb].
  - now apply Equal_loop_eq.
  - split; [discriminate | intros ->; congruence].
Qed.

(** Two normalized slices of valid intervals that cover the same points
    are the same slice. *)
Lemma canonical_unique : forall s o,
  valid s -> separated s -> valid o -> separated o ->
  (forall p, covers s p = covers o p) -> s = o.
Proof.
  assert (Hhead : forall a s p, valid (a :: s) -> separated (a :: s) ->
            covers (a :: s) p = true -> Start a <= p).
  { intros a s p HV HS Hp. apply covers_true in Hp.
    destruct Hp as (i & [<-|Hi] & Hp); [lia |].
    pose proof (valid_separated_head _ _ HV HS) as F.
    rewrite List.Forall_forall in F. specialize (F i Hi).
    assert (Start a < Stop a) by now inversion HV. lia. }
  assert (Hself : forall a s, valid (a :: s) ->
            covers (a :: s) (Start a) = true).
  { intros a s HV. apply covers_true. exists a. split; [now left |].
    assert (Start a < Stop a) by now inversion HV. lia. }
  assert (Hstop : forall a s b o, valid (a :: s) -> separated (a :: s) ->
            valid (b :: o) -> Start a = Start b ->
            (forall p, covers (a :: s) p = covers (b :: o) p) ->
            Stop b <= Stop a).
  { intros a s b o HV HS HVo E Hcov.
    destruct (Z.le_gt_cases (Stop b) (Stop a)) as [|Hlt]; [assumption |].
    exfalso.
    assert (Start a < Stop a) by now inversion HV.
    assert (Hp : covers (a :: s) (Stop a) = true).
    { rewrite Hcov. apply covers_true. exists b. split; [now left | lia]. }
    apply covers_true in Hp. destruct Hp as (i & [<-|Hi] & Hp); [lia |].
    pose proof (valid_separated_head _ _ HV HS) as F.
    rewrite List.Forall_forall in F. specialize (F i Hi). lia. }
  induction s as [|a s IH]; intros [|b o] HV HS HVo HSo Hcov.
  - reflexivity.
  - specialize (Hcov (Start b)). rewrite (Hself b o HVo) in Hcov.
    discriminate.
  - specialize (Hcov (Start a)). rewrite (Hself a s HV) in Hcov.
    discriminate.
  - assert (E1 : Start a = Start b).
    { pose proof (Hhead b o (Start a) HVo HSo) as H1.
      rewrite <- Hcov in H1. specialize (H1 (Hself a s HV)).
      pose proof (Hhead a s (Start b) HV HS) as H2.
      rewrite Hcov in H2. specialize (H2 (Hself b o HVo)). lia. }
    assert (E2 : Stop a = Stop b).
    { pose proof (Hstop a s b o HV HS HVo E1 Hcov).
      pose proof (Hstop b o a s HVo HSo HV (eq_sym E1)
                    (fun p => eq_sym (Hcov p))). lia. }
    assert (a = b) as -> by (destruct a, b; simpl in *; congruence).
    f_equal. apply IH.
    + eapply valid_tail; eauto.
    + eapply separated_tail; eauto.
    + eapply valid_tail; eauto.
    + eapply separated_tail; eauto.
    + intros p. specialize (Hcov p). cbn [covers existsb] in Hcov.
      fold (covers s p) in Hcov. fold (covers o p) in Hcov.
      destruct (contains_point b p) eqn:Eb; [| exact Hcov].
      apply contains_point_true in Eb.
      assert (Hno : forall t, valid (b :: t) -> separated (b :: t) ->
                covers t p = false).
      { intros t HVt HSt. destruct (covers t p) eqn:Et; [| reflexivity].
        apply covers_true in Et. destruct Et as (i & Hi & Hp).
        pose proof (valid_separated_head _ _ HVt HSt) as F.
        rewrite List.Forall_forall in F. specialize (F i Hi). lia. }
      now rewrite (Hno s), (Hno o).
Qed.

(** X1: when [s.Contain(sub)] says true, every point of an interval of
    [sub] is a point of an interval of [s]; this holds for all slices,
    normalized or not. *)
Theorem Contain_covers s sub (p : Z) :
  Contain s sub = true -> covers sub p = true -> covers s p = true.
Proof.
  intros H Hp. apply covers_true in Hp. destruct Hp as (x & Hx & Hp).
  pose proof (Contain_true_within sub s H) as F.
  rewrite List.Forall_forall in F. destruct (F x Hx) as (h & Hh & H1).
  apply covers_true. exists h. split; [exact Hh | lia].
Qed.

Lemma Contain_covers_witness :
  covers [mkInterval 1 10; mkInterval 20 30] 22 = true.
Proof.
  apply (Contain_covers [mkInterval 1 10; mkInterval 20 30]
           [mkInterval 2 5; mkInterval 21 23] 22); reflexivity.
Defined.

(** X2: on normalized slices of valid intervals [Contain] is complete:
    if every point of [sub] is a point of [s], then [s.Contain(sub)]
    says true.  In particular such a slice contains itself. *)
Theorem Contain_of_covered s sub :
  valid s -> separated s -> valid sub -> separated sub ->
  (forall p : Z, covers sub p = true -> covers s p = true) ->
  Contain s sub = true.
Proof.
  intros HV HS HVsub HSsub Hcov. apply Contain_within; auto.
  - apply Less_sorted_start_sorted.
    now apply valid_separated_Less_sorted.
  - rewrite List.Forall_forall. intros x Hx.
    apply covered_within; auto.
    + unfold valid in HVsub. rewrite List.Forall_forall in HVsub. auto.
    + intros p Hp. apply Hcov. apply covers_true. exists x.
      split; [exact Hx | now apply contains_point_true].
Qed.

Lemma Contain_of_covered_witness :
  Contain [mkInterval 1 10; mkInterval 20 30]
          [mkInterval 1 10; mkInterval 20 30] = true.
Proof.
  apply (Contain_of_covered [mkInterval 1 10; mkInterval 20 30]
           [mkInterval 1 10; mkInterval 20 30]).
  - repeat constructor.
  - simpl; lia.
  - repeat constructor.
  - simpl; lia.
  - intros p Hp. exact Hp.
Defined.

(** X3: on normalized slices of valid intervals [Equal] decides equality
    of the sets of points: [s.Equal(o)] is true exactly when [s] and [o]
    cover the same points. *)
Theorem Equal_same_points s o :
  valid s -> separated s -> valid o -> separated o ->
  (Equal s o = true <-> forall p : Z, covers s p = covers o p).
Proof.
  intros HV HS HVo HSo. rewrite Equal_eq. split.
  - now intros ->.
  - now apply canonical_unique.
Qed.

Lemma Equal_same_points_witness :
  Equal [mkInterval 1 10] [mkInterval 1 5; mkInterval 7 10] = true <->
  forall p : Z,
    covers [mkInterval 1 10] p = covers [mkInterval 1 5; mkInterval 7 10] p.
Proof.
  apply (Equal_same_points [mkInterval 1 10]
           [mkInterval 1 5; mkInterval 7 10]).
  - repeat constructor.
  - simpl; tauto.
  - repeat constructor.
  - simpl; lia.
Defined.

(** X4: [Compare] returns 0 exactly for two slices with the same
    elements, 1 exactly when they differ and [s.Contain(o)] holds (so
    every point of [o] is one of [s]), and -1 otherwise; -1 does not say
    that [o] contains [s]. *)
Theorem Compare_cases s o :
  (Compare s o = 0 <-> s = o) /\
  (Compare s o = 1 <-> s <> o /\ Contain s o = true) /\
  (Compare s o = -1 <-> s <> o /\ Contain s o = false) /\
  (Compare s o = 1 -> forall p : Z, covers o p = true -> covers s p = true) /\
  Compare [mkInterval 1 2] [mkInterval 5 6] = -1 /\
  Compare [mkInterval 5 6] [mkInterval 1 2] = -1.
Proof.
  unfold Compare.
  destruct (Equal s o) eqn:E.
  - apply Equal_eq in E. subst o.
    repeat split; try discriminate; try tauto; try (intros [H _]; congruence).
  - assert (Hne : s <> o).
    { intros <-. assert (Equal s s = true) by now apply Equal_eq.
      congruence. }
    destruct (Contain s o) eqn:C.
    + repeat split; try discriminate; try tauto; try (intros [_ H]; congruence).
      intros _ p. now apply Contain_covers.
    + repeat split; try discriminate; try tauto; try (intros [_ H]; congruence).
Qed.

End ContainProps.

Example Compare_incomparable :
  Compare [mkInterval 1 2] [mkInterval 5 6] = -1 /\
  Compare [mkInterval 5 6] [mkInterval 1 2] = -1.
Proof. split; reflexivity. Qed.

(** ** InsertInterval *)

Section Insert.

Implicit Types s L R M : IntervalSlice.

Lemma merge_from_valid s : forall l,
  valid (l :: s) -> valid (merge_from l s).
Proof.
  induction s as [|x s IH]; intros l HV; [exact HV |].
  simpl merge_from. inversion HV as [|? ? Hl HV']; subst.
  inversion HV' as [|? ? Hx HV'']; subst.
  destruct (Start x >? Stop l).
  - constructor; [exact Hl | now apply IH].
  - apply IH. constructor; [| exact HV'']. simpl.
    destruct (Z.gtb_spec (Stop l) (Stop x)); lia.
Qed.

Lemma Normalize_valid s : valid s -> valid (Normalize s).
Proof.
  intros HV. rewrite Normalize_merge.
  assert (HV' : valid (Sort s)).
  { unfold valid in *. rewrite List.Forall_forall in *. intros i Hi.
    apply HV. eapply Permutation_in; [apply Sort_Less_perm | exact Hi]. }
  destruct (Sort s) as [|s0 rest]; [constructor |].
  now apply merge_from_valid.
Qed.

Lemma at_index_middle L (c : Interval) R :
  at_index (L ++ c :: R) (length L) = c.
Proof. unfold at_index. induction L; simpl; auto. Qed.

Lemma insert_middle L (c d : Interval) R :
  <[length L := d]> (L ++ c :: R) = L ++ d :: R.
Proof. induction L as [|a L IH]; simpl; [reflexivity | now rewrite IH]. Qed.

Lemma separated_app_cons L (b : Interval) R :
  separated (L ++ b :: R) <-> separated (L ++ [b]) /\ separated (b :: R).
Proof.
  induction L as [|a L IH]; [simpl; destruct R; tauto |].
  destruct L as [|a' L].
  - simpl. destruct R; tauto.
  - simpl app in *. cbn [separated] in *.
    destruct L as [|a'' L]; simpl app in *; cbn [separated] in *; tauto.
Qed.

Lemma valid_separated_before L R :
  valid (L ++ R) -> separated (L ++ R) ->
  forall a b, In a L -> In b R -> Stop a < Start b.
Proof.
  induction L as [|x L IH]; intros HV HS a b Ha Hb; [destruct Ha |].
  simpl app in *. destruct Ha as [->|Ha].
  - pose proof (valid_separated_head _ _ HV HS) as F.
    rewrite List.Forall_forall in F. apply F, in_or_app. now right.
  - apply IH; auto; [eapply valid_tail | eapply separated_tail]; eauto.
Qed.

Lemma contains_point_hull (a b : Interval) (p : Z) :
  Start a < Stop a -> Start b < Stop b ->
  ~ (Stop b < Start a) -> ~ (Start b > Stop a) ->
  contains_point (mkInterval (min (Start a) (Start b))
                             (max (Stop a) (Stop b))) p
  = contains_point a p || contains_point b p.
Proof.
  intros Ha Hb H1 H2. apply eq_true_iff_eq.
  rewrite orb_true_iff, !contains_point_true. unfold min, max. simpl.
  destruct (Z.ltb_spec (Start a) (Start b));
    destruct (Z.gtb_spec (Stop a) (Stop b)); lia.
Qed.

Lemma valid_app L R : valid (L ++ R) <-> valid L /\ valid R.
Proof. unfold valid. apply Forall_app. Qed.

(** The loop of [InsertInterval] on a normalized slice.  The array is
    [L ++ cur :: stale ++ R]: [cur] at index [i] is the inserted
    interval joined with the elements [M] it has met, [stale] are the
    [count] slots they leave behind, [L] and [R] are the elements of the
    slice before and after them. *)
Lemma InsertInterval_loop_spec s0 (x : Interval) :
  valid s0 -> separated s0 ->
  forall i a count L cur stale R M,
    a = L ++ cur :: stale ++ R -> length L = i -> length stale = count ->
    s0 = L ++ M ++ R -> length M = count ->
    Start cur < Stop cur -> separated (cur :: R) ->
    (forall p, contains_point cur p = contains_point x p || covers M p) ->
    (count <> O -> Forall (fun l => Start l <= Stop cur) L) ->
    exists L' cur' stale' R',
      InsertInterval_loop i a count
      = (length L', L' ++ cur' :: stale' ++ R', length stale') /\
      length (L' ++ cur' :: stale' ++ R') = length a /\
      valid (L' ++ cur' :: R') /\ separated (L' ++ cur' :: R') /\
      forall p, covers (L' ++ cur' :: R') p
                = covers s0 p || contains_point x p.
Proof.
  intros HV0 HS0.
  assert (Hdone : forall L cur R M,
            s0 = L ++ M ++ R -> Start cur < Stop cur ->
            separated (L ++ [cur]) -> separated (cur :: R) ->
            (forall p, contains_point cur p
                       = contains_point x p || covers M p) ->
            valid (L ++ cur :: R) /\ separated (L ++ cur :: R) /\
            forall p, covers (L ++ cur :: R) p
                      = covers s0 p || contains_point x p).
  { intros L cur R M E Hcur HL HR Hc. subst s0.
    apply valid_app in HV0. destruct HV0 as [HVL HVR].
    apply valid_app in HVR. destruct HVR as [_ HVR].
    split; [| split].
    - apply valid_app. split; [exact HVL |]. now constructor.
    - now apply separated_app_cons.
    - intros p. rewrite !covers_app. cbn [covers existsb].
      fold (covers R p). rewrite Hc.
      destruct (covers L p), (contains_point x p), (covers M p),
        (covers R p); reflexivity. }
  induction i as [|i IH];
    intros a count L cur stale R M Ea HL Hst E0 HM Hcur HR Hc Hnoswap.
  - destruct L; [| discriminate]. cbn [InsertInterval_loop].
    exists [], cur, stale, R. subst a count.
    split; [reflexivity |]. split; [reflexivity |].
    apply (Hdone [] cur R M); auto. simpl. trivial.
  - destruct (exists_last (l := L)) as (L' & prev & ->);
      [intros ->; discriminate |].
    rewrite length_app in HL. simpl in HL.
    assert (HL' : length L' = i) by lia. clear HL.
    assert (Ea' : a = L' ++ prev :: cur :: stale ++ R)
      by (rewrite Ea, <- app_assoc; reflexivity).
    assert (Hat1 : at_index a (S i) = cur).
    { rewrite Ea. replace (S i) with (length (L' ++ [prev]))
        by (rewrite length_app; simpl; lia).
      apply at_index_middle. }
    assert (Hat0 : at_index a i = prev)
      by (rewrite Ea', <- HL'; apply at_index_middle).
    assert (Hprev : Start prev < Stop prev).
    { rewrite E0 in HV0. apply valid_app in HV0. destruct HV0 as [HVL _].
      apply valid_app in HVL. destruct HVL as [_ HVp]. now inversion HVp. }
    cbn [InsertInterval_loop]. cbv zeta. rewrite Hat1, Hat0.
    destruct (Z.ltb_spec (Stop cur) (Start prev)) as [Hswap|Hnsw].
    + assert (count = O) as ->.
      { destruct count; [reflexivity |]. exfalso.
        assert (F : Forall (fun l => Start l <= Stop cur) (L' ++ [prev]))
          by (apply Hnoswap; discriminate).
        rewrite Forall_app in F. destruct F as [_ F]. inversion F; subst. lia. }
      destruct stale; [| discriminate]. destruct M; [| discriminate].
      simpl app in *.
      match goal with |- context [InsertInterval_loop i ?t _] =>
        assert (Enew : t = L' ++ cur :: [] ++ prev :: R)
      end.
      { rewrite Ea'. replace (S i) with (length (L' ++ [prev]))
          by (rewrite length_app; simpl; lia).
        replace (L' ++ prev :: cur :: R) with ((L' ++ [prev]) ++ cur :: R)
          by (rewrite <- app_assoc; reflexivity).
        rewrite insert_middle, <- app_assoc. simpl app.
        rewrite <- HL'. apply insert_middle. }
      rewrite Enew.
      destruct (IH (L' ++ cur :: [] ++ prev :: R) O L' cur [] (prev :: R) [])
        as (L2 & cur2 & stale2 & R2 & E2 & Hlen2 & H2); auto.
      * rewrite E0, <- app_assoc. reflexivity.
      * split; [exact Hswap |]. rewrite E0 in HS0.
        rewrite <- app_assoc in HS0. simpl app in HS0.
        apply separated_app_cons in HS0. tauto.
      * congruence.
      * exists L2, cur2, stale2, R2. split; [exact E2 |].
        split; [| exact H2]. rewrite Hlen2, Ea'.
        repeat (rewrite length_app || cbn [length app]). lia.
    + destruct (Z.gtb_spec (Start cur) (Stop prev)) as [Hbrk|Hnbrk].
      * exists (L' ++ [prev]), cur, stale, R.
        rewrite length_app. simpl length. rewrite HL', Hst, <- Ea.
        replace (i + 1)%nat with (S i) by lia.
        split; [reflexivity |]. split; [reflexivity |].
        apply (Hdone (L' ++ [prev]) cur R M); auto.
        rewrite <- app_assoc. simpl app. apply separated_app_cons.
        split; [| simpl; lia].
        rewrite E0 in HS0. rewrite <- app_assoc in HS0.
        simpl app in HS0. apply separated_app_cons in HS0. tauto.
      * set (cur' := mkInterval (min (Start prev) (Start cur))
                                (max (Stop prev) (Stop cur))).
        match goal with |- context [InsertInterval_loop i ?t _] =>
          assert (Enew : t = L' ++ cur' :: (cur :: stale) ++ R)
            by (rewrite Ea', <- HL'; apply insert_middle)
        end.
        rewrite Enew.
        assert (Hstop : Stop cur' = Z.max (Stop prev) (Stop cur)).
        { unfold cur', max. simpl.
          destruct (Z.gtb_spec (Stop prev) (Stop cur)); lia. }
        assert (Hstart : Start cur' = Z.min (Start prev) (Start cur)).
        { unfold cur', min. simpl.
          destruct (Z.ltb_spec (Start prev) (Start cur)); lia. }
        assert (E0' : s0 = L' ++ (prev :: M) ++ R)
          by (rewrite E0, <- app_assoc; reflexivity).
        destruct (IH (L' ++ cur' :: (cur :: stale) ++ R) (S count) L' cur'
                    (cur :: stale) R (prev :: M))
          as (L2 & cur2 & stale2 & R2 & E2 & Hlen2 & H2); auto.
        -- simpl. lia.
        -- simpl. lia.
        -- lia.
        -- destruct R as [|r R']; [simpl; trivial |].
           split; [| eapply separated_tail; exact HR].
           destruct HR as [HR _]. rewrite Hstop.
           assert (Stop prev < Start r).
           { rewrite E0 in HV0, HS0.
             apply (valid_separated_before _ _ HV0 HS0).
             - apply in_or_app. right. now left.
             - apply in_or_app. right. now left. }
           lia.
        -- intros p. unfold cur'. rewrite contains_point_hull by lia.
           cbn [covers existsb]. fold (covers M p). rewrite Hc.
           destruct (contains_point prev p), (contains_point x p),
             (covers M p); reflexivity.
        -- intros _. rewrite List.Forall_forall. intros l Hl.
           assert (Stop l < Start prev).
           { rewrite E0' in HV0, HS0.
             apply (valid_separated_before _ _ HV0 HS0); [exact Hl |].
             now left. }
           assert (Start l < Stop l).
           { rewrite E0' in HV0. apply valid_app in HV0.
             destruct HV0 as [HVL _]. unfold valid in HVL.
             rewrite List.Forall_forall in HVL. auto. }
           lia.
        -- exists L2, cur2, stale2, R2. split; [exact E2 |].
           split; [| exact H2]. rewrite Hlen2, Ea'.
           repeat (rewrite length_app || cbn [length app]). lia.
Qed.

Lemma InsertInterval_result s (x : Interval) :
  valid s -> separated s -> Start x < Stop x ->
  valid (InsertInterval s x) /\ separated (InsertInterval s x) /\
  forall p, covers (InsertInterval s x) p = covers s p || contains_point x p.
Proof.
  intros HV HS Hx. unfold InsertInterval.
  destruct (InsertInterval_loop_spec s x HV HS (length s) (s ++ [x]) O
              s x [] [] [])
    as (L & cur & stale & R & E & Hlen & Hres); auto.
  - now rewrite app_nil_r.
  - simpl. trivial.
  - intros p. simpl. now rewrite orb_false_r.
  - congruence.
  - replace (length (s ++ [x]) - 1)%nat with (length s)
      by (rewrite length_app; simpl; lia).
    rewrite E. rewrite <- Hlen. cbv beta iota zeta.
    match goal with |- valid ?t /\ _ =>
      assert (Hout : t = L ++ cur :: R)
    end;
      [| rewrite Hout; exact Hres].
    assert (Hlen' : length (L ++ cur :: stale ++ R)
                    = (length L + 1 + length stale + length R)%nat)
      by (repeat (rewrite length_app || cbn [length app]); lia).
    assert (Hsplit : L ++ cur :: stale ++ R = (L ++ [cur]) ++ stale ++ R)
      by (rewrite <- app_assoc; reflexivity).
    assert (Hhead : length (L ++ [cur]) = S (length L))
      by (rewrite length_app; simpl; lia).
    destruct (Nat.ltb_spec 0 (length stale)) as [Hpos|Hzero].
    + rewrite Hlen'.
      replace (length L + 1 + length stale + length R - length stale)%nat
        with (length (L ++ [cur]) + length R)%nat by lia.
      destruct (Nat.ltb_spec (S (length L) + length stale)
                  (length L + 1 + length stale + length R)) as [Hlt|Hge].
      * unfold copy_down. rewrite Hsplit at 1 2.
        rewrite <- Hhead at 1 2.
        rewrite take_app_length.
        rewrite drop_app_add, drop_app_length.
        rewrite app_assoc.
        replace (length (L ++ [cur]) + length R)%nat
          with (length ((L ++ [cur]) ++ R)) by (rewrite length_app; lia).
        rewrite take_app_length, <- app_assoc. reflexivity.
      * assert (R = []) as -> by (destruct R; [reflexivity | simpl in Hge; lia]).
        rewrite Hsplit, app_nil_r. simpl length at 2. rewrite Nat.add_0_r.
        now rewrite take_app_length.
    + destruct stale; [reflexivity | simpl in Hzero; lia].
Qed.

(** X5: inserting a valid interval into a normalized slice of valid
    intervals leaves a normalized slice of valid intervals whose points
    are those of the slice and those of the interval. *)
Theorem InsertInterval_union s (x : Interval) :
  valid s -> separated s -> Start x < Stop x ->
  valid (InsertInterval s x) /\ normalized (InsertInterval s x) /\
  forall p : Z,
    covers (InsertInterval s x) p = true <->
    covers s p = true \/ Start x <= p < Stop x.
Proof.
  intros HV HS Hx.
  destruct (InsertInterval_result s x HV HS Hx) as (HV' & HS' & Hc).
  split; [exact HV' |]. split.
  - pose proof (valid_separated_Less_sorted _ HV' HS') as HL.
    apply Less_sorted_start_sorted in HL.
    split; [exact HL |]. split; [exact HS' |].
    now apply normalized_pairwise_disjoint.
  - intros p. rewrite Hc, orb_true_iff, contains_point_true. reflexivity.
Qed.

Lemma InsertInterval_union_witness :
  valid (InsertInterval [mkInterval 1 3; mkInterval 5 7; mkInterval 20 30]
           (mkInterval 2 6)) /\
  normalized (InsertInterval [mkInterval 1 3; mkInterval 5 7; mkInterval 20 30]
                (mkInterval 2 6)) /\
  forall p : Z,
    covers (InsertInterval [mkInterval 1 3; mkInterval 5 7; mkInterval 20 30]
              (mkInterval 2 6)) p = true <->
    covers [mkInterval 1 3; mkInterval 5 7; mkInterval 20 30] p = true \/
    Start (mkInterval 2 6) <= p < Stop (mkInterval 2 6).
Proof.
  apply (InsertInterval_union
           [mkInterval 1 3; mkInterval 5 7; mkInterval 20 30]
           (mkInterval 2 6)).
  - repeat constructor.
  - simpl; lia.
  - simpl; lia.
Defined.

(** X6: on a normalized slice of valid intervals, [InsertInterval] of a
    valid interval gives the slice that appending the interval and
    calling [Normalize] gives (what [AddInterval] does with a list of
    one interval). *)
Theorem InsertInterval_Normalize s (x : Interval) :
  valid s -> separated s -> Start x < Stop x ->
  InsertInterval s x = Normalize (s ++ [x]).
Proof.
  intros HV HS Hx.
  destruct (InsertInterval_result s x HV HS Hx) as (HV' & HS' & Hc).
  apply canonical_unique; auto.
  - apply Normalize_valid, valid_app. split; [exact HV |]. now constructor.
  - apply Normalize_shape.
  - intros p. rewrite Hc, Normalize_covers, covers_app. simpl.
    now rewrite orb_false_r.
Qed.

Lemma InsertInterval_Normalize_witness :
  InsertInterval [mkInterval 1 3; mkInterval 5 7] (mkInterval 3 5)
  = Normalize ([mkInterval 1 3; mkInterval 5 7] ++ [mkInterval 3 5]).
Proof.
  apply (InsertInterval_Normalize [mkInterval 1 3; mkInterval 5 7]
           (mkInterval 3 5)).
  - repeat constructor.
  - simpl; lia.
  - simpl; lia.
Defined.

Example InsertInterval_merges_two :
  InsertInterval [mkInterval 1 3; mkInterval 5 7; mkInterval 20 30]
    (mkInterval 2 6) = [mkInterval 1 7; mkInterval 20 30].
Proof. reflexivity. Qed.

End Insert.

(** ** AddInterval and AddGTID *)

Section AddProps.

Implicit Types (u : UUIDSet) (s : MysqlGTIDSet) (a b : IntervalSlice).

(** X7: [AddInterval] leaves the SID alone and a normalized interval
    list whose points are those of the set and those of the intervals
    added; valid intervals stay valid. *)
Theorem AddInterval_union u a :
  SID (AddInterval u a) = SID u /\
  normalized (Intervals (AddInterval u a)) /\
  (forall p : Z,
     covers (Intervals (AddInterval u a)) p = true <->
     covers (Intervals u) p = true \/ covers a p = true) /\
  (valid (Intervals u) -> valid a -> valid (Intervals (AddInterval u a))).
Proof.
  unfold AddInterval. cbn [SID Intervals].
  destruct (Normalize_shape (Intervals u ++ a)) as [HL HS].
  split; [reflexivity |]. split; [| split].
  - split; [now apply Less_sorted_start_sorted |]. split; [exact HS |].
    apply normalized_pairwise_disjoint; auto.
    now apply Less_sorted_start_sorted.
  - intros p. rewrite Normalize_covers, covers_app, orb_true_iff. reflexivity.
  - intros Hu Ha. apply Normalize_valid, valid_app. now split.
Qed.

(** X8: for valid intervals, adding [a] and then [b] gives the set that
    adding them at once gives, and the order of the two calls does not
    matter. *)
Theorem AddInterval_twice u a b :
  valid (Intervals u) -> valid a -> valid b ->
  AddInterval (AddInterval u a) b = AddInterval u (a ++ b) /\
  AddInterval (AddInterval u a) b = AddInterval (AddInterval u b) a.
Proof.
  intros Hu Ha Hb.
  assert (Hcanon : forall x y : IntervalSlice, valid x -> valid y ->
            (forall p, covers x p = covers y p) -> Normalize x = Normalize y).
  { intros x y Hx Hy Hc. apply canonical_unique.
    - now apply Normalize_valid.
    - apply Normalize_shape.
    - now apply Normalize_valid.
    - apply Normalize_shape.
    - intros p. now rewrite !Normalize_covers. }
  assert (Hva : valid (Normalize (Intervals u ++ a) ++ b)).
  { apply valid_app. split; [| exact Hb].
    apply Normalize_valid, valid_app. now split. }
  assert (Hvb : valid (Normalize (Intervals u ++ b) ++ a)).
  { apply valid_app. split; [| exact Ha].
    apply Normalize_valid, valid_app. now split. }
  unfold AddInterval. cbn [SID Intervals]. split; f_equal.
  - apply Hcanon; auto.
    + apply valid_app. split; [exact Hu |]. apply valid_app. now split.
    + intros p. rewrite !covers_app, Normalize_covers, !covers_app.
      now rewrite orb_assoc.
  - apply Hcanon; auto.
    intros p. rewrite !covers_app, !Normalize_covers, !covers_app.
    destruct (covers (Intervals u) p), (covers a p), (covers b p);
      reflexivity.
Qed.

Lemma AddInterval_twice_witness :
  let u := mkUUIDSet samples.sample_sid [mkInterval 1 5] in
  AddInterval (AddInterval u [mkInterval 5 8]) [mkInterval 20 30; mkInterval 2 3]
  = AddInterval u ([mkInterval 5 8] ++ [mkInterval 20 30; mkInterval 2 3]) /\
  AddInterval (AddInterval u [mkInterval 5 8]) [mkInterval 20 30; mkInterval 2 3]
  = AddInterval (AddInterval u [mkInterval 20 30; mkInterval 2 3])
      [mkInterval 5 8].
Proof.
  intros u.
  apply (AddInterval_twice u [mkInterval 5 8]
           [mkInterval 20 30; mkInterval 2 3]); repeat constructor.
Defined.

(** X9: [AddGTID] files under the string of the UUID a set that covers
    the transaction number [gno] besides what the set of that UUID
    covered before, keeps its interval list normalized and valid, and
    leaves every other entry alone.  [gno] is below the largest [int64],
    so that [gno + 1] does not wrap. *)
Theorem AddGTID_covers s (id : uuid.UUID) (gno : Z) :
  MinInt64 <= gno < MaxInt64 ->
  (forall o, s !! uuid.UUID_String id = Some o ->
             valid (Intervals o) /\ separated (Intervals o)) ->
  (exists o',
     AddGTID s id gno !! uuid.UUID_String id = Some o' /\
     valid (Intervals o') /\ separated (Intervals o') /\
     forall p : Z,
       covers (Intervals o') p = true <->
       p = gno \/
       exists o, s !! uuid.UUID_String id = Some o /\
                 covers (Intervals o) p = true) /\
  forall k, k <> uuid.UUID_String id -> AddGTID s id gno !! k = s !! k.
Proof.
  intros Hgno Hs. unfold AddGTID.
  rewrite (to_int64_id (gno + 1))
    by (unfold is_int64, MinInt64, MaxInt64 in *; lia).
  destruct (s !! uuid.UUID_String id) as [o|] eqn:E.
  - destruct (Hs o eq_refl) as [HV HS].
    destruct (InsertInterval_result (Intervals o) (mkInterval gno (gno + 1))
                HV HS) as (HV' & HS' & Hc); [simpl; lia |].
    split.
    + eexists. split; [apply lookup_insert_eq |]. cbn [Intervals].
      split; [exact HV' |]. split; [exact HS' |].
      intros p. rewrite Hc, orb_true_iff, contains_point_true. simpl.
      split.
      * intros [H|H]; [right; eauto | left; lia].
      * intros [->|(o0 & [= <-] & H)]; [right; lia | now left].
    + intros k Hk. now rewrite lookup_insert_ne.
  - split.
    + eexists. split; [apply lookup_insert_eq |]. cbn [Intervals].
      split; [repeat constructor; simpl; lia |]. split; [simpl; trivial |].
      intros p. rewrite covers_true. split.
      * intros (i & [<-|[]] & Hp). simpl in Hp. left. lia.
      * intros [->|(o0 & [=] & _)].
        exists (mkInterval gno (gno + 1)). split; [now left | simpl; lia].
    + intros k Hk. now rewrite lookup_insert_ne.
Qed.

Lemma AddGTID_covers_witness :
  let s : MysqlGTIDSet :=
    {[ uuid.UUID_String samples.sample_sid
       := mkUUIDSet samples.sample_sid [mkInterval 1 5] ]} in
  (exists o',
     AddGTID s samples.sample_sid 5 !! uuid.UUID_String samples.sample_sid
     = Some o' /\
     valid (Intervals o') /\ separated (Intervals o') /\
     forall p : Z,
       covers (Intervals o') p = true <->
       p = 5 \/
       exists o, s !! uuid.UUID_String samples.sample_sid = Some o /\
                 covers (Intervals o) p = true) /\
  forall k, k <> uuid.UUID_String samples.sample_sid ->
            AddGTID s samples.sample_sid 5 !! k = s !! k.
Proof.
  intros s. apply (AddGTID_covers s samples.sample_sid 5).
  - unfold MinInt64, MaxInt64. lia.
  - intros o H. apply lookup_singleton_Some in H. destruct H as [_ <-].
    split; [repeat constructor | simpl; trivial].
Defined.

Example AddGTID_wraps_at_MaxInt64 :
  AddGTID ∅ samples.sample_sid MaxInt64
    !! uuid.UUID_String samples.sample_sid
  = Some (mkUUIDSet samples.sample_sid [mkInterval MaxInt64 MinInt64]).
Proof. reflexivity. Qed.

End AddProps.

(** ** UUIDSet.Decode and the bytes that decode uses *)

Section DecodeProps.

Import go binary.

Implicit Types (u : UUIDSet) (data rest : list byte).

Lemma decode_intervals_length (count : nat) : forall data l,
  decode_intervals count data = Ok l ->
  length l = count /\ (16 * count <= length data)%nat.
Proof.
  induction count as [|count IH]; intros data l H.
  - injection H as <-. simpl. lia.
  - cbn [decode_intervals] in H. unfold Uint64 in H.
    destruct (Nat.ltb_spec (length data) 8); [discriminate |].
    destruct (Nat.ltb_spec (length (skipn 8 data)) 8); [discriminate |].
    destruct (decode_intervals count (skipn 16 data)) as [l'| |] eqn:E;
      try discriminate.
    injection H as <-. destruct (IH _ _ E) as [Hl Hd].
    rewrite length_skipn in *. simpl. lia.
Qed.

(** X10: [UUIDSet.Decode] reads back a set from its encoding, and
    refuses the encoding followed by any further byte. *)
Theorem UUIDSet_Decode_exact u rest :
  typed u -> Z.of_nat (length (UUIDSet_encode u)) <= MaxInt64 ->
  UUIDSet_Decode (UUIDSet_encode u) = Ok u /\
  (rest <> [] -> UUIDSet_Decode (UUIDSet_encode u ++ rest) = Err).
Proof.
  intros Hu Hlen. unfold UUIDSet_Decode. split.
  - rewrite <- (app_nil_r (UUIDSet_encode u)) at 1.
    rewrite UUIDSet_decode_encode by assumption.
    now rewrite Z.eqb_refl.
  - intros Hrest. rewrite UUIDSet_decode_encode by assumption.
    rewrite length_app.
    destruct (Z.eqb_spec (Z.of_nat (length (UUIDSet_encode u)))
                (Z.of_nat (length (UUIDSet_encode u) + length rest)));
      [| reflexivity].
    destruct rest; [congruence | simpl in *; lia].
Qed.

Lemma UUIDSet_Decode_exact_witness :
  let u := mkUUIDSet samples.sample_sid [mkInterval 1 6; mkInterval 10 11] in
  UUIDSet_Decode (UUIDSet_encode u) = Ok u /\
  ([Byte.x00] <> [] -> UUIDSet_Decode (UUIDSet_encode u ++ [Byte.x00]) = Err).
Proof.
  intros u. apply (UUIDSet_Decode_exact u [Byte.x00]).
  - split; [reflexivity |].
    repeat constructor; unfold MinInt64, MaxInt64; simpl; lia.
  - vm_compute. discriminate.
Defined.

(** X11: when [decode] succeeds it has read a 16-byte SID, the count
    and that many intervals: the number of bytes it reports is
    [24 + 16 * len(Intervals)] and lies within the buffer. *)
Theorem UUIDSet_decode_consumed data u (n : Z) :
  UUIDSet_decode data = Ok (u, n) ->
  length (SID u) = 16%nat /\
  n = 24 + 16 * Z.of_nat (length (Intervals u)) /\
  n <= Z.of_nat (length data).
Proof.
  unfold UUIDSet_decode. intros H.
  destruct (Nat.ltb_spec (length data) 24); [discriminate |].
  unfold uuid.FromBytes in H.
  destruct (Nat.eqb_spec (length (firstn 16 data)) 16) as [Hsid|];
    [| discriminate].
  destruct (Uint64 (skipn 16 data)) as [v| |]; try discriminate.
  destruct (_ <? _); [discriminate |].
  destruct (Z.ltb_spec (to_int64 v) 0); [discriminate |].
  cbn [orb] in H.
  destruct (16 * to_int64 v >? MaxInt64); [discriminate |].
  destruct (decode_intervals _ _) as [l| |] eqn:E; try discriminate.
  injection H as <- <-. cbn [SID Intervals].
  destruct (decode_intervals_length _ _ _ E) as [Hl Hd].
  rewrite length_skipn in Hd.
  split; [exact Hsid |]. rewrite Hl, Z2Nat.id by lia. split; lia.
Qed.

Lemma UUIDSet_decode_consumed_witness :
  let u := mkUUIDSet samples.sample_sid [mkInterval 1 6] in
  length (SID u) = 16%nat /\
  40 = 24 + 16 * Z.of_nat (length (Intervals u)) /\
  40 <= Z.of_nat (length (UUIDSet_encode u ++ [Byte.x01])).
Proof.
  intros u.
  apply (UUIDSet_decode_consumed (UUIDSet_encode u ++ [Byte.x01]) u 40).
  reflexivity.
Defined.

(** A count whose sixteenfold wraps around passes the length check, and
    [make] panics on it. *)
Example UUIDSet_decode_count_wraps :
  UUIDSet_decode
    (samples.sample_sid
     ++ Write64 (2 ^ 60) ++ Write64 0)
  = Panic.
Proof. reflexivity. Qed.

End DecodeProps.

(** ** Whole GTID sets: Contain, Equal, Add, Minus *)

Section SetProps.

Implicit Types (u o : UUIDSet) (s sub : MysqlGTIDSet)
  (entries : list (string * UUIDSet)).

Lemma UUIDSet_Contain_true o u :
  UUIDSet_Contain o u = true <->
  SID o = SID u /\ Contain (Intervals o) (Intervals u) = true.
Proof.
  unfold UUIDSet_Contain. destruct (bool_decide_reflect (SID o = SID u));
    cbn [negb]; [tauto |].
  split; [discriminate | tauto].
Qed.

Lemma Contain_entries_true s entries :
  Contain_entries s entries = true <->
  forall key set, In (key, set) entries ->
    exists o, s !! key = Some o /\ UUIDSet_Contain o set = true.
Proof.
  induction entries as [|[k u] entries IH]; cbn [Contain_entries].
  - split; [intros _ ? ? [] | reflexivity].
  - destruct (s !! k) as [o|] eqn:E.
    + destruct (UUIDSet_Contain o u) eqn:C; cbn [negb].
      * rewrite IH. split.
        -- intros H key set [[= <- <-]|Hin]; eauto.
        -- intros H key set Hin. apply H. now right.
      * split; [discriminate |]. intros H.
        destruct (H k u (or_introl eq_refl)) as (o' & Ho' & C').
        congruence.
    + split; [discriminate |]. intros H.
      destruct (H k u (or_introl eq_refl)) as (o' & Ho' & _). congruence.
Qed.

Lemma entries_lookup sub entries key set :
  entries ≡ₚ map_to_list sub ->
  In (key, set) entries <-> sub !! key = Some set.
Proof.
  intros HP. rewrite <- list_elem_of_In, HP. apply elem_of_map_to_list.
Qed.

(** X12: [MysqlGTIDSet.Contain] says true exactly when every entry of
    [sub] has an entry under the same key in [s] with the same SID whose
    intervals [Contain] those of the entry; the order in which [range]
    visits [sub.Sets] does not matter. *)
Theorem MysqlGTIDSet_Contain_spec s sub entries :
  entries ≡ₚ map_to_list sub ->
  (Contain_entries s entries = true <->
   forall key set, sub !! key = Some set ->
     exists o, s !! key = Some o /\ SID o = SID set /\
               Contain (Intervals o) (Intervals set) = true).
Proof.
  intros HP. rewrite Contain_entries_true. split; intros H key set Hin.
  - apply (entries_lookup sub entries key set HP) in Hin.
    destruct (H key set Hin) as (o & Ho & C).
    apply UUIDSet_Contain_true in C. eauto.
  - apply (entries_lookup sub entries key set HP) in Hin.
    destruct (H key set Hin) as (o & Ho & C).
    exists o. split; [exact Ho |]. now apply UUIDSet_Contain_true.
Qed.

Lemma MysqlGTIDSet_Contain_spec_witness :
  let k := uuid.UUID_String samples.sample_sid in
  let s : MysqlGTIDSet := {[ k := mkUUIDSet samples.sample_sid [mkInterval 1 10] ]} in
  let sub : MysqlGTIDSet := {[ k := mkUUIDSet samples.sample_sid [mkInterval 2 5] ]} in
  Contain_entries s [(k, mkUUIDSet samples.sample_sid [mkInterval 2 5])] = true <->
  forall key set, sub !! key = Some set ->
    exists o, s !! key = Some o /\ SID o = SID set /\
              Contain (Intervals o) (Intervals set) = true.
Proof.
  intros k s sub.
  apply (MysqlGTIDSet_Contain_spec s sub
           [(k, mkUUIDSet samples.sample_sid [mkInterval 2 5])]).
  unfold sub. now rewrite map_to_list_singleton.
Defined.

Lemma Equal_entries_true s entries :
  Equal_entries s entries = true <->
  forall key set, In (key, set) entries ->
    exists o, s !! key = Some o /\ Intervals o = Intervals set.
Proof.
  induction entries as [|[k u] entries IH]; cbn [Equal_entries].
  - split; [intros _ ? ? [] | reflexivity].
  - destruct (s !! k) as [o|] eqn:E.
    + destruct (Equal (Intervals o) (Intervals u)) eqn:C; cbn [negb].
      * apply Equal_eq in C. rewrite IH. split.
        -- intros H key set [[= <- <-]|Hin]; eauto.
        -- intros H key set Hin. apply H. now right.
      * split; [discriminate |]. intros H.
        destruct (H k u (or_introl eq_refl)) as (o' & Ho' & C').
        assert (o' = o) as -> by congruence.
        apply Equal_eq in C'. congruence.
    + split; [discriminate |]. intros H.
      destruct (H k u (or_introl eq_refl)) as (o' & Ho' & _). congruence.
Qed.

(** X13: [MysqlGTIDSet.Equal] says true exactly when the two sets have
    the same keys and, under each key, the same list of intervals; it
    does not look at the SID fields, and the order in which [range]
    visits the map does not matter. *)
Theorem MysqlGTIDSet_Equal_spec s sub entries :
  entries ≡ₚ map_to_list sub ->
  (MysqlGTIDSet_Equal_entries s sub entries = true <->
   Intervals <$> s = Intervals <$> sub).
Proof.
  intros HP. unfold MysqlGTIDSet_Equal_entries.
  destruct (Nat.eqb_spec (size sub) (size s)) as [Hsize|Hsize]; cbn [negb].
  - rewrite Equal_entries_true. split.
    + intros H. symmetry. apply map_subseteq_size_eq.
      * apply map_subseteq_spec. intros key v Hv.
        rewrite lookup_fmap in Hv |- *.
        destruct (sub !! key) as [set|] eqn:E; [| discriminate].
        injection Hv as <-.
        apply (entries_lookup sub entries key set HP) in E.
        destruct (H key set E) as (o & -> & Ho). simpl. now rewrite Ho.
      * rewrite !map_size_fmap. lia.
    + intros Heq key set Hin.
      apply (entries_lookup sub entries key set HP) in Hin.
      assert (Hk : (Intervals <$> s) !! key = Some (Intervals set))
        by (rewrite Heq, lookup_fmap, Hin; reflexivity).
      rewrite lookup_fmap in Hk. destruct (s !! key) as [o|]; [| discriminate].
      injection Hk as Hk. eauto.
  - split; [discriminate |]. intros Heq. exfalso. apply Hsize.
    rewrite <- (map_size_fmap Intervals sub), <- (map_size_fmap Intervals s).
    now rewrite Heq.
Qed.

Lemma MysqlGTIDSet_Equal_spec_witness :
  let k := uuid.UUID_String samples.sample_sid in
  let s : MysqlGTIDSet := {[ k := mkUUIDSet samples.sample_sid [mkInterval 1 10] ]} in
  let sub : MysqlGTIDSet := {[ k := mkUUIDSet [] [mkInterval 1 10] ]} in
  MysqlGTIDSet_Equal_entries s sub [(k, mkUUIDSet [] [mkInterval 1 10])] = true
  <-> Intervals <$> s = Intervals <$> sub.
Proof.
  intros k s sub.
  apply (MysqlGTIDSet_Equal_spec s sub [(k, mkUUIDSet [] [mkInterval 1 10])]).
  unfold sub. now rewrite map_to_list_singleton.
Defined.

Lemma AddSets_lookup entries : forall s k,
  NoDup entries.*1 ->
  Forall (fun e => e.1 = uuid.UUID_String (SID e.2)) entries ->
  AddSets entries.*2 s !! k
  = match (list_to_map entries : MysqlGTIDSet) !! k with
    | Some set => Some (added s k set)
    | None => s !! k
    end.
Proof.
  induction entries as [|[k0 u0] entries IH]; intros s k Hnd Hkey.
  - simpl. now rewrite lookup_empty.
  - inversion Hkey as [|? ? Hk Hkey']; subst. simpl in Hk.
    rewrite fmap_cons in Hnd. apply NoDup_cons in Hnd.
    destruct Hnd as [Hnotin Hnd].
    cbn [fmap list_fmap AddSets fold_left snd].
    change (fold_left (fun s set => AddSet s (Some set)) (entries.*2)
              (AddSet s (Some u0)))
      with (AddSets entries.*2 (AddSet s (Some u0))).
    rewrite IH by assumption.
    cbn [list_to_map foldr uncurry fst snd].
    assert (Hat : AddSet s (Some u0) = <[k0 := added s k0 u0]> s).
    { unfold AddSet, added. rewrite <- Hk. now destruct (s !! k0). }
    destruct (decide (k = k0)) as [->|Hne].
    + rewrite lookup_insert_eq.
      rewrite (not_elem_of_list_to_map_1 _ k0 Hnotin).
      now rewrite Hat, lookup_insert_eq.
    + rewrite lookup_insert_ne by congruence.
      unfold added at 1. rewrite Hat, lookup_insert_ne by congruence.
      reflexivity.
Qed.

(** X14: [MysqlGTIDSet.Add] works key by key, whatever the order in
    which [range] visits the addend: under a key of the addend the
    result holds the set found there joined (by [AddInterval]) with the
    intervals of the addend's set, or the addend's set itself when the
    key is new; every other entry stays as it is.  The addend files each
    set under the string of its SID. *)
Theorem Add_lookup s (addend : MysqlGTIDSet) entries (k : string) :
  keyed addend -> entries ≡ₚ map_to_list addend ->
  Add_sets s entries.*2 !! k
  = match addend !! k with
    | Some set =>
        Some (match s !! k with
              | Some o => AddInterval o (Intervals set)
              | None => set
              end)
    | None => s !! k
    end.
Proof.
  intros Hkey HP. unfold Add_sets.
  assert (Hnd : NoDup entries.*1).
  { rewrite HP. apply NoDup_fst_map_to_list. }
  rewrite AddSets_lookup; auto.
  - rewrite (list_to_map_proper _ _ Hnd HP), list_to_map_to_list.
    reflexivity.
  - rewrite List.Forall_forall. intros [k' u] Hin. simpl. apply Hkey.
    apply elem_of_map_to_list. rewrite <- HP. now apply list_elem_of_In.
Qed.

Lemma Add_lookup_witness :
  let k := uuid.UUID_String samples.sample_sid in
  let s : MysqlGTIDSet := {[ k := mkUUIDSet samples.sample_sid [mkInterval 1 5] ]} in
  let addend : MysqlGTIDSet :=
    {[ k := mkUUIDSet samples.sample_sid [mkInterval 5 8] ]} in
  Add_sets s [(k, mkUUIDSet samples.sample_sid [mkInterval 5 8])].*2 !! k
  = match addend !! k with
    | Some set =>
        Some (match s !! k with
              | Some o => AddInterval o (Intervals set)
              | None => set
              end)
    | None => s !! k
    end.
Proof.
  intros k s addend.
  apply (Add_lookup s addend
           [(k, mkUUIDSet samples.sample_sid [mkInterval 5 8])] k).
  - intros k' u H. apply lookup_singleton_Some in H. destruct H as [<- <-].
    reflexivity.
  - unfold addend. now rewrite map_to_list_singleton.
Defined.

Lemma Minus_sets_lookup entries : forall s,
  NoDup entries.*1 ->
  Forall (fun e => e.1 = uuid.UUID_String (SID e.2)) entries ->
  Forall (fun e => forall o, s !! e.1 = Some o -> int64_slice (Intervals o))
         entries ->
  exists r, Minus_sets s entries.*2 = Returns r /\
    forall k,
      r !! k = match (list_to_map entries : MysqlGTIDSet) !! k, s !! k with
               | Some set, Some o => left_over o set
               | _, _ => s !! k
               end.
Proof.
  induction entries as [|[k0 u0] entries IH]; intros s Hnd Hkey Hint.
  - exists s. split; [reflexivity |]. intros k. simpl.
    rewrite lookup_empty. reflexivity.
  - inversion Hkey as [|? ? Hk Hkey']; subst.
    inversion Hint as [|? ? Hi Hint']; subst. simpl in Hk, Hi.
    rewrite fmap_cons in Hnd. apply NoDup_cons in Hnd.
    destruct Hnd as [Hnotin Hnd].
    cbn [fmap list_fmap Minus_sets snd].
    assert (Hstep : exists s', MinusSet s (Some u0) = Returns s' /\
              s' !! k0 = match s !! k0 with
                         | Some o => left_over o u0
                         | None => None
                         end /\
              forall k, k <> k0 -> s' !! k = s !! k).
    { unfold MinusSet, left_over. rewrite <- Hk.
      destruct (s !! k0) as [o|] eqn:E.
      - destruct (MinusInterval_returns (Intervals o) (Intervals u0)
                    (Hi o eq_refl)) as (n & ->).
        destruct n as [|i n]; eexists; (split; [reflexivity |]).
        + split; [apply lookup_delete_eq |].
          intros k Hne. now rewrite lookup_delete_ne.
        + split; [apply lookup_insert_eq |].
          intros k Hne. now rewrite lookup_insert_ne.
      - exists s. repeat split; auto. }
    destruct Hstep as (s' & -> & Hk0 & Hother).
    destruct (IH s' Hnd Hkey') as (r & Er & Hr).
    { rewrite List.Forall_forall in Hint' |- *. intros [k u] Hin o Ho.
      simpl in *. apply (Hint' _ Hin). simpl.
      rewrite <- Hother; [exact Ho |].
      intros ->. apply Hnotin. apply list_elem_of_fmap.
      exists (k0, u). split; [reflexivity |]. now apply list_elem_of_In. }
    exists r. split; [exact Er |]. intros k. rewrite Hr.
    cbn [list_to_map foldr uncurry fst snd].
    destruct (decide (k = k0)) as [->|Hne].
    + rewrite lookup_insert_eq.
      rewrite (not_elem_of_list_to_map_1 _ k0 Hnotin), Hk0.
      now destruct (s !! k0).
    + rewrite lookup_insert_ne by congruence. rewrite Hother by exact Hne.
      reflexivity.
Qed.

(** X15: [MysqlGTIDSet.Minus] returns, and works key by key, whatever
    the order in which [range] visits the subtrahend: under a key that
    both sets have, the result holds what [MinusInterval] leaves of the
    intervals, or nothing when it leaves none; every other entry stays
    as it is.  The subtrahend files each set under the string of its
    SID, and the interval bounds are [int64] values. *)
Theorem Minus_lookup s (subtrahend : MysqlGTIDSet) entries :
  keyed subtrahend -> entries ≡ₚ map_to_list subtrahend ->
  (forall k o, s !! k = Some o -> int64_slice (Intervals o)) ->
  exists r,
    Minus_sets s entries.*2 = Returns r /\
    forall k : string,
      r !! k = match subtrahend !! k, s !! k with
               | Some set, Some o =>
                   match MinusInterval (Intervals o) (Intervals set) with
                   | Returns (i :: n) =>
                       Some {| SID := SID o; Intervals := i :: n |}
                   | _ => None
                   end
               | _, _ => s !! k
               end.
Proof.
  intros Hkey HP Hint.
  assert (Hnd : NoDup entries.*1).
  { rewrite HP. apply NoDup_fst_map_to_list. }
  destruct (Minus_sets_lookup entries s Hnd) as (r & Er & Hr).
  - rewrite List.Forall_forall. intros [k' u] Hin. simpl. apply Hkey.
    apply elem_of_map_to_list. rewrite <- HP. now apply list_elem_of_In.
  - rewrite List.Forall_forall. intros [k' u] _ o Ho. eapply Hint; eauto.
  - exists r. split; [exact Er |]. intros k. rewrite Hr.
    rewrite (list_to_map_proper _ _ Hnd HP), list_to_map_to_list.
    reflexivity.
Qed.

Lemma Minus_lookup_witness :
  let k := uuid.UUID_String samples.sample_sid in
  let s : MysqlGTIDSet := {[ k := mkUUIDSet samples.sample_sid [mkInterval 1 9] ]} in
  let subtrahend : MysqlGTIDSet :=
    {[ k := mkUUIDSet samples.sample_sid [mkInterval 3 5] ]} in
  exists r,
    Minus_sets s [(k, mkUUIDSet samples.sample_sid [mkInterval 3 5])].*2
    = Returns r /\
    forall k : string,
      r !! k = match subtrahend !! k, s !! k with
               | Some set, Some o =>
                   match MinusInterval (Intervals o) (Intervals set) with
                   | Returns (i :: n) =>
                       Some {| SID := SID o; Intervals := i :: n |}
                   | _ => None
                   end
               | _, _ => s !! k
               end.
Proof.
  intros k s subtrahend.
  apply (Minus_lookup s subtrahend
           [(k, mkUUIDSet samples.sample_sid [mkInterval 3 5])]).
  - intros k' u H. apply lookup_singleton_Some in H. destruct H as [<- <-].
    reflexivity.
  - unfold subtrahend. now rewrite map_to_list_singleton.
  - intros k' o H. apply lookup_singleton_Some in H. destruct H as [_ <-].
    repeat constructor; unfold MinInt64, MaxInt64; simpl; lia.
Defined.

End SetProps.

(** ** More on MinusInterval and on the text form *)

Section MinusExact.

(** X16: for normalized slices of valid intervals, [MinusInterval]
    returns a normalized slice whose points are exactly the points of
    [a] that are not points of [b].  The first interval of [a] does not
    stop at 0: the zero value of [minuend] would pass for it (see
    [MinusInterval_first_stop_zero]). *)
Theorem MinusInterval_exact (a b : IntervalSlice) :
  valid a -> separated a -> int64_slice a -> valid b -> separated b ->
  match a with h :: _ => Stop h <> 0 | [] => True end ->
  exists r,
    MinusInterval a b = Returns r /\
    Less_sorted r /\ separated r /\
    forall p : Z,
      covers r p = true <-> covers a p = true /\ covers b p = false.
Proof.
  intros HVa HSa HRa HVb HSb H0.
  destruct (MinusInterval_returns a b HRa) as (r & E).
  exists r. split; [exact E |].
  assert (Hshape : Less_sorted r /\ separated r).
  { unfold MinusInterval in E.
    destruct (MinusInterval_loop _ _ _ _ _); try discriminate.
    injection E as <-. apply Normalize_shape. }
  split; [apply Hshape |]. split; [apply Hshape |].
  now apply MinusInterval_set_difference.
Qed.

Lemma MinusInterval_exact_witness :
  exists r,
    MinusInterval [mkInterval 1 10; mkInterval 20 30]
      [mkInterval 3 5; mkInterval 8 25] = Returns r /\
    Less_sorted r /\ separated r /\
    forall p : Z,
      covers r p = true <->
      covers [mkInterval 1 10; mkInterval 20 30] p = true /\
      covers [mkInterval 3 5; mkInterval 8 25] p = false.
Proof.
  apply (MinusInterval_exact [mkInterval 1 10; mkInterval 20 30]
           [mkInterval 3 5; mkInterval 8 25]).
  - repeat constructor.
  - simpl; lia.
  - repeat constructor; unfold MinInt64, MaxInt64; simpl; lia.
  - repeat constructor.
  - simpl; lia.
  - simpl; lia.
Defined.

End MinusExact.

Section TextErrors.

Import gostrings strconv.

(** X17: [parseInterval] returns an error for a range whose end is
    below its start, and for a range that ends at the largest [int64]
    (adding one to the end wraps around). *)
Theorem parseInterval_bad_range (n m : Z) :
  0 <= n <= MaxInt64 -> 0 <= m <= MaxInt64 ->
  m < n \/ m = MaxInt64 ->
  parseInterval (FormatInt n ++ String "-" (FormatInt m)) = None.
Proof.
  intros Hn Hm Hbad. unfold parseInterval.
  rewrite Split_app_sep by (apply FormatInt_no_byte; [lia | auto]).
  rewrite Split_no_sep by (apply FormatInt_no_byte; [lia | auto]).
  rewrite !ParseInt_FormatInt
    by (unfold is_int64, MinInt64, MaxInt64 in *; lia).
  assert (Hstop : to_int64 (m + 1) <= n).
  { destruct Hbad as [Hlt|Hmax].
    - rewrite to_int64_id
        by (unfold is_int64, MinInt64, MaxInt64 in *; lia).
      lia.
    - assert (Hwrap : to_int64 (MaxInt64 + 1) = MinInt64) by reflexivity.
      rewrite Hmax, Hwrap. unfold MinInt64. lia. }
  destruct (Z.leb_spec (to_int64 (m + 1)) n); [reflexivity | lia].
Qed.

Lemma parseInterval_bad_range_witness :
  parseInterval (FormatInt 7 ++ String "-" (FormatInt 3)) = None.
Proof.
  apply (parseInterval_bad_range 7 3); unfold MaxInt64; lia.
Defined.

End TextErrors.

Section UuidSetText.

Variable TrimFunc_IsSpace : string -> string.
Variable TrimRightFunc_IsSpace : string -> string.

(** X18: [ParseUUIDSet] reads back what [UUIDSet.String] prints, for a
    set with a 16-byte SID and a non-empty normalized list of intervals
    with [0 <= Start < Stop]. *)
Theorem ParseUUIDSet_String_roundtrip (u : UUIDSet) :
  printable u ->
  ParseUUIDSet TrimFunc_IsSpace TrimRightFunc_IsSpace (UUIDSet_String u)
  = Some u.
Proof. apply ParseUUIDSet_String. Qed.

End UuidSetText.

Section UuidSetTextExamples.

Lemma ParseUUIDSet_String_roundtrip_witness :
  let u := mkUUIDSet samples.sample_sid [mkInterval 1 6; mkInterval 10 11] in
  ParseUUIDSet samples.no_trim samples.no_trim (UUIDSet_String u) = Some u.
Proof.
  intros u.
  apply (ParseUUIDSet_String_roundtrip samples.no_trim samples.no_trim u).
  split; [reflexivity |]. split; [discriminate |].
  split; [repeat constructor |]. split; [simpl; lia |].
  repeat constructor; unfold MaxInt64; simpl; lia.
Defined.

End UuidSetTextExamples.

(** ** Event header and classic GTID event *)

Section HeaderProps.

Import go replication.

Implicit Types (data b : list byte).

Lemma byte_Z_range (x : byte) : 0 <= byte_Z x < 256.
Proof. unfold byte_Z. destruct x; simpl; lia. Qed.

Lemma le_value_range b : 0 <= binary.le_value b < 256 ^ Z.of_nat (length b).
Proof.
  induction b as [|x b IH]; [simpl; lia |].
  cbn [binary.le_value length]. rewrite Nat2Z.inj_succ, Z.pow_succ_r by lia.
  pose proof (byte_Z_range x). lia.
Qed.

Lemma bytes_from_ok data (lo : Z) :
  0 <= lo <= Z.of_nat (length data) ->
  bytes_from data lo = Ok (skipn (Z.to_nat lo) data).
Proof.
  intros H. unfold bytes_from, slice_from.
  destruct (Z.ltb_spec lo 0); [lia |].
  destruct (Z.gtb_spec lo (Z.of_nat (length data))); [lia | reflexivity].
Qed.

Lemma index_byte_ok data (i : Z) :
  0 <= i < Z.of_nat (length data) ->
  index_byte data i = Ok (byte_Z (nth (Z.to_nat i) data Byte.x00)).
Proof.
  intros H. unfold index_byte.
  destruct (Z.ltb_spec i 0); [lia |].
  destruct (Z.geb_spec i (Z.of_nat (length data))); [lia | reflexivity].
Qed.

Lemma Uint32_ok b :
  (4 <= length b)%nat -> binary.Uint32 b = Ok (binary.le_value (firstn 4 b)).
Proof.
  intros H. unfold binary.Uint32.
  destruct (Nat.ltb_spec (length b) 4); [lia | reflexivity].
Qed.

Lemma Uint16_ok b :
  (2 <= length b)%nat -> binary.Uint16 b = Ok (binary.le_value (firstn 2 b)).
Proof.
  intros H. unfold binary.Uint16.
  destruct (Nat.ltb_spec (length b) 2); [lia | reflexivity].
Qed.

Lemma le_value_firstn_range (n : nat) b :
  0 <= binary.le_value (firstn n b) < 256 ^ Z.of_nat n.
Proof.
  pose proof (le_value_range (firstn n b)) as H.
  assert (256 ^ Z.of_nat (length (firstn n b)) <= 256 ^ Z.of_nat n).
  { apply Z.pow_le_mono_r; [lia |]. rewrite length_firstn. lia. }
  lia.
Qed.

(** What [EventHeader.Decode] computes on a buffer of at least 19
    bytes. *)
Lemma EventHeader_Decode_long data :
  (19 <= length data)%nat ->
  EventHeader_Decode data
  = let eventSize := binary.le_value (firstn 4 (skipn 9 data)) in
    if eventSize <? EventHeaderSize then Err
    else
      Ok {| Timestamp := binary.le_value (firstn 4 data);
            EventType := byte_Z (nth 4 data Byte.x00);
            ServerID := binary.le_value (firstn 4 (skipn 5 data));
            EventSize := eventSize;
            LogPos := binary.le_value (firstn 4 (skipn 13 data));
            Flags := binary.le_value (firstn 2 (skipn 17 data)) |}.
Proof.
  intros Hlen. unfold EventHeader_Decode, EventHeaderSize.
  destruct (Z.ltb_spec (Z.of_nat (length data)) 19); [lia |].
  cbv zeta.
  rewrite !bytes_from_ok by lia. rewrite index_byte_ok by lia.
  cbn [bind]. rewrite !Uint32_ok by (rewrite ?length_skipn; simpl; lia).
  cbn [bind]. rewrite Uint16_ok by (rewrite ?length_skipn; simpl; lia).
  cbn [bind]. reflexivity.
Qed.

(** X19: [EventHeader.Decode] never panics; it returns an error exactly
    when the buffer has fewer than 19 bytes or the event size read from
    bytes 9 to 12 is below 19; a header it returns has an event size of
    at least 19 and every field within the range of its type. *)
Theorem EventHeader_Decode_outcome data :
  EventHeader_Decode data <> Panic /\
  (EventHeader_Decode data = Err <->
   (length data < 19)%nat \/
   binary.le_value (firstn 4 (skipn 9 data)) < 19) /\
  forall h, EventHeader_Decode data = Ok h ->
    19 <= EventSize h < 2 ^ 32 /\
    0 <= Timestamp h < 2 ^ 32 /\ 0 <= EventType h < 2 ^ 8 /\
    0 <= ServerID h < 2 ^ 32 /\ 0 <= LogPos h < 2 ^ 32 /\
    0 <= Flags h < 2 ^ 16.
Proof.
  destruct (Nat.lt_ge_cases (length data) 19) as [Hshort|Hlong].
  - assert (E : EventHeader_Decode data = Err).
    { unfold EventHeader_Decode, EventHeaderSize.
      destruct (Z.ltb_spec (Z.of_nat (length data)) 19); [reflexivity | lia]. }
    rewrite E. split; [discriminate |]. split; [| discriminate].
    split; auto.
  - rewrite (EventHeader_Decode_long data Hlong). cbv zeta.
    unfold EventHeaderSize.
    destruct (Z.ltb_spec (binary.le_value (firstn 4 (skipn 9 data))) 19)
      as [Hsmall|Hbig].
    + split; [discriminate |]. split; [| discriminate]. split; auto.
    + split; [discriminate |]. split.
      * split; [discriminate | intros [?|?]; lia].
      * intros h [= <-]. cbn [EventSize Timestamp EventType ServerID LogPos Flags].
        pose proof (le_value_firstn_range 4 (skipn 9 data)).
        pose proof (le_value_firstn_range 4 data).
        pose proof (le_value_firstn_range 4 (skipn 5 data)).
        pose proof (le_value_firstn_range 4 (skipn 13 data)).
        pose proof (le_value_firstn_range 2 (skipn 17 data)).
        pose proof (byte_Z_range (nth 4 data Byte.x00)).
        change (256 ^ Z.of_nat 4) with (2 ^ 32) in *.
        change (256 ^ Z.of_nat 2) with (2 ^ 16) in *.
        change (2 ^ 8) with 256. lia.
Qed.

Example EventHeader_Decode_size_too_small :
  EventHeader_Decode (repeat Byte.x00 19) = Err.
Proof. reflexivity. Qed.

End HeaderProps.

Section ClassicProps.

Import go replication.

Variable FixedLengthInt : list byte -> Z.
Variable LengthEncodedInt : list byte -> result (Z * bool * Z).

Lemma testbit_clear_bit_64 (x : Z) : Z.testbit (clear_bit 64 x 55) 55 = false.
Proof. unfold clear_bit. rewrite Z.land_spec. apply andb_false_r. Qed.

Lemma testbit_clear_bit_32 (x : Z) : Z.testbit (clear_bit 32 x 31) 31 = false.
Proof. unfold clear_bit. rewrite Z.land_spec. apply andb_false_r. Qed.

Lemma bytes_between_inv (data d : list byte) (lo hi : Z) :
  bytes_between data lo hi = Ok d ->
  0 <= lo <= hi /\ hi <= Z.of_nat (length data) /\
  d = firstn (Z.to_nat (hi - lo)) (skipn (Z.to_nat lo) data).
Proof.
  unfold bytes_between.
  destruct (Z.ltb_spec lo 0); [discriminate |].
  destruct (Z.ltb_spec hi lo); [discriminate |].
  destruct (Z.gtb_spec hi (Z.of_nat (length data))); [discriminate |].
  intros [= <-]. repeat split; lia.
Qed.

Ltac open_bind H x E :=
  match type of H with
  | bind ?r _ = Ok _ =>
      destruct r as [x| |] eqn:E; cbn [bind] in H;
      [| discriminate | discriminate]
  end.

(** X20: an event that the classic [GTIDEvent.Decode] returns has a
    16-byte SID, never keeps the flag bits (bit 55 of the immediate
    commit timestamp, bit 31 of the immediate server version), has the
    original commit timestamp equal to the immediate one unless bit 55
    of the seven bytes at offset 42 is set, and from a buffer of fewer
    than 42 bytes only the commit flag, the SID and the GNO are read. *)
Theorem GTIDEvent_Decode_flags (data : list byte) (e : GTIDEvent) :
  GTIDEvent_Decode FixedLengthInt LengthEncodedInt data = Ok e ->
  length (SID e) = 16%nat /\
  Z.testbit (ImmediateCommitTimestamp e) 55 = false /\
  Z.testbit (ImmediateServerVersion e) 31 = false /\
  (OriginalCommitTimestamp e = ImmediateCommitTimestamp e \/
   Z.testbit (FixedLengthInt (firstn 7 (skipn 42 data))) 55 = true) /\
  ((length data < 42)%nat ->
   LastCommitted e = 0 /\ SequenceNumber e = 0 /\
   ImmediateCommitTimestamp e = 0 /\ OriginalCommitTimestamp e = 0 /\
   TransactionLength e = 0 /\
   ImmediateServerVersion e = 0 /\ OriginalServerVersion e = 0).
Proof.
  unfold GTIDEvent_Decode, SidLength, LogicalTimestampTypeCode,
    PartLogicalTimestampLength. cbv zeta. intros H.
  open_bind H commitFlag E0. open_bind H sid Esid.
  open_bind H d0 E1. open_bind H gno E2.
  apply bytes_between_inv in Esid. destruct Esid as (_ & Hlen17 & ->).
  assert (Hsidlen : length (firstn (Z.to_nat (0 + 1 + 16 - (0 + 1)))
                             (skipn (Z.to_nat (0 + 1)) data)) = 16%nat).
  { rewrite length_firstn, length_skipn. lia. }
  destruct (Z.geb_spec (Z.of_nat (length data)) 42) as [Hlong|Hshort].
  2:{ injection H as <-. cbn. repeat split; auto. }
  open_bind H code E3.
  destruct (code =? 2).
  2:{ injection H as <-. cbn. repeat split; auto; lia. }
  open_bind H d1 E4. open_bind H lc E5.
  open_bind H d2 E6. open_bind H seqno E7.
  destruct (_ <? 7).
  { injection H as <-. cbn. repeat split; auto; lia. }
  open_bind H d3 E8.
  apply bytes_between_inv in E8. destruct E8 as (_ & _ & ->).
  replace (Z.to_nat (0 + 1 + 16 + 8 + 1 + 8 + 8 + 7
                     - (0 + 1 + 16 + 8 + 1 + 8 + 8))) with 7%nat in * by lia.
  replace (Z.to_nat (0 + 1 + 16 + 8 + 1 + 8 + 8)) with 42%nat in * by lia.
  set (raw := FixedLengthInt (firstn 7 (skipn 42 data))) in *.
  open_bind H ts E9. destruct ts as [[ict oct] pos].
  assert (Hts : Z.testbit ict 55 = false /\
                (oct = ict \/ Z.testbit raw 55 = true)).
  { destruct (Z.testbit raw 55) eqn:Eb.
    - open_bind E9 d4 E9'. injection E9 as <- <- <-.
      split; [apply testbit_clear_bit_64 | now right].
    - injection E9 as <- <- <-. split; [exact Eb | now left]. }
  clear E9. destruct Hts as [Hict Hoct].
  destruct (_ <? 1).
  { injection H as <-. cbn. repeat split; auto; lia. }
  open_bind H d5 E10. open_bind H lei E11. destruct lei as [[tl isNull] n].
  destruct (_ <? 4).
  { injection H as <-. cbn. repeat split; auto; lia. }
  open_bind H d6 E12. open_bind H isv E13.
  destruct (Z.testbit isv 31) eqn:Eisv.
  - open_bind H d7 E14. open_bind H osv E15. injection H as <-. cbn.
    repeat split; auto; try lia. apply testbit_clear_bit_32.
  - injection H as <-. cbn. repeat split; auto; lia.
Qed.

End ClassicProps.

Section ClassicExamples.

Import go replication.

Lemma GTIDEvent_Decode_flags_witness :
  let data :=
    [Byte.x01] ++ samples.sample_sid ++ binary.Write64 5 ++ [Byte.x02]
    ++ binary.Write64 3 ++ binary.Write64 4 ++ binary.le_bytes 7 1000 in
  let e :=
    {| CommitFlag := 1; SID := samples.sample_sid; Tag := EmptyString;
       GNO := 5; LastCommitted := 3; SequenceNumber := 4;
       ImmediateCommitTimestamp := 1000; OriginalCommitTimestamp := 1000;
       TransactionLength := 0;
       ImmediateServerVersion := 0; OriginalServerVersion := 0 |} in
  length (SID e) = 16%nat /\
  Z.testbit (ImmediateCommitTimestamp e) 55 = false /\
  Z.testbit (ImmediateServerVersion e) 31 = false /\
  (OriginalCommitTimestamp e = ImmediateCommitTimestamp e \/
   Z.testbit (binary.le_value (firstn 7 (skipn 42 data))) 55 = true) /\
  ((length data < 42)%nat ->
   LastCommitted e = 0 /\ SequenceNumber e = 0 /\
   ImmediateCommitTimestamp e = 0 /\ OriginalCommitTimestamp e = 0 /\
   TransactionLength e = 0 /\
   ImmediateServerVersion e = 0 /\ OriginalServerVersion e = 0).
Proof.
  intros data e.
  apply (GTIDEvent_Decode_flags binary.le_value samples.one_byte_length
           data e).
  reflexivity.
Defined.

End ClassicExamples.

(** ** The previous-GTIDs event reads what MysqlGTIDSet.Encode writes *)

Section PreviousGtids.

Import go replication.

Implicit Types (data pre rest a : list byte) (l : mysql.IntervalSlice)
  (u : mysql.UUIDSet) (buf : string).

Lemma string_app_assoc (s t r : string) :
  ((s ++ t) ++ r)%string = (s ++ t ++ r)%string.
Proof.
  induction s as [|c s IH]; [reflexivity |].
  change (String c ((s ++ t) ++ r) = String c (s ++ t ++ r)).
  now rewrite IH.
Qed.

Lemma bytes_between_app pre a rest :
  bytes_between (pre ++ a ++ rest) (Z.of_nat (length pre))
    (Z.of_nat (length pre) + Z.of_nat (length a)) = Ok a.
Proof.
  unfold bytes_between. rewrite !length_app.
  destruct (Z.ltb_spec (Z.of_nat (length pre)) 0); [lia |].
  destruct (Z.ltb_spec (Z.of_nat (length pre) + Z.of_nat (length a))
              (Z.of_nat (length pre))); [lia |].
  destruct (Z.gtb_spec (Z.of_nat (length pre) + Z.of_nat (length a))
              (Z.of_nat (length pre + (length a + length rest))));
    [lia |].
  cbn [orb]. rewrite Nat2Z.id.
  replace (Z.to_nat (Z.of_nat (length pre) + Z.of_nat (length a)
                     - Z.of_nat (length pre))) with (length a) by lia.
  now rewrite drop_app_length, take_app_length.
Qed.

Lemma to_uint64_id (z : Z) : 0 <= z < 2 ^ 64 -> to_uint64 z = z.
Proof. intros H. unfold to_uint64. now apply Z.mod_small. Qed.

Lemma Uint64_Write64_exact (x : Z) :
  binary.Uint64 (binary.Write64 x) = Ok (to_uint64 x).
Proof.
  rewrite <- (app_nil_r (binary.Write64 x)). apply Uint64_Write64.
Qed.

Lemma Uint16_Write64 (v : Z) :
  0 <= v < 65536 -> binary.Uint16 (binary.Write64 v) = Ok v.
Proof.
  intros Hv. unfold binary.Uint16. rewrite length_Write64. cbn [Nat.ltb Nat.leb].
  unfold binary.Write64. rewrite to_uint64_id by lia.
  cbn [binary.le_bytes firstn binary.le_value].
  rewrite !byte_Z_Z_byte, !Z.mod_mod by lia. f_equal.
  pose proof (Z.div_mod v 256 ltac:(lia)).
  assert (v / 256 mod 256 = v / 256).
  { apply Z.mod_small. split; [apply Z.div_pos; lia |].
    apply Z.div_lt_upper_bound; lia. }
  lia.
Qed.

(** The text of one interval, from the two [uint64] numbers. *)
Lemma interval_text (i : mysql.Interval) (b : string) :
  0 <= Start i < Stop i -> Stop i <= MaxInt64 ->
  (if to_uint64 (Stop i) =? to_uint64 (to_uint64 (Start i) + 1)
   then (b ++ strconv.FormatUint (to_uint64 (Start i)))%string
   else (b ++ strconv.FormatUint (to_uint64 (Start i)) ++ "-"
         ++ strconv.FormatUint (to_uint64 (to_uint64 (Stop i) - 1)))%string)
  = (b ++ Interval_String i)%string.
Proof.
  intros H Hmax. unfold MaxInt64 in Hmax.
  rewrite (to_uint64_id (Start i)), (to_uint64_id (Stop i)),
    (to_uint64_id (Start i + 1)), (to_uint64_id (Stop i - 1)) by lia.
  unfold Interval_String.
  rewrite !to_int64_id by (unfold is_int64, MinInt64, MaxInt64; lia).
  unfold strconv.FormatInt.
  destruct (Z.ltb_spec (Start i) 0); [lia |].
  destruct (Z.ltb_spec (Stop i - 1) 0); [lia |].
  now destruct (Stop i =? Start i + 1).
Qed.

Lemma decode_slices_encoded l : forall pre rest buf,
  Forall (fun i => 0 <= Start i < Stop i /\ Stop i <= MaxInt64) l ->
  decode_slices (length l) (pre ++ encode_intervals l ++ rest)
    (Z.of_nat (length pre)) buf
  = Ok (Z.of_nat (length pre) + 16 * Z.of_nat (length l),
        (buf ++ Intervals_String l)%string).
Proof.
  induction l as [|i l IH]; intros pre rest buf Hl.
  - cbn [length decode_slices Intervals_String]. rewrite string_app_nil_r.
    do 2 f_equal. lia.
  - inversion Hl as [|? ? [Hi Hmax] Hl']; subst.
    cbn [length decode_slices encode_intervals]. rewrite <- !app_assoc.
    replace (Z.of_nat (length pre) + 8)
      with (Z.of_nat (length pre) + Z.of_nat (length (binary.Write64 (Start i))))
      by (rewrite length_Write64; lia).
    rewrite bytes_between_app. cbn [bind].
    rewrite Uint64_Write64_exact. cbn [bind].
    rewrite length_Write64.
    replace (Z.of_nat (length pre) + Z.of_nat 8)
      with (Z.of_nat (length (pre ++ binary.Write64 (Start i))))
      by (rewrite length_app, length_Write64; lia).
    rewrite (app_assoc pre).
    replace (Z.of_nat (length (pre ++ binary.Write64 (Start i))) + 8)
      with (Z.of_nat (length (pre ++ binary.Write64 (Start i)))
            + Z.of_nat (length (binary.Write64 (Stop i))))
      by (rewrite (length_Write64 (Stop i)); lia).
    rewrite bytes_between_app. cbn [bind].
    rewrite Uint64_Write64_exact. cbn [bind].
    cbv zeta. rewrite (interval_text i _ Hi Hmax).
    rewrite (length_Write64 (Stop i)).
    replace (Z.of_nat (length (pre ++ binary.Write64 (Start i))) + Z.of_nat 8)
      with (Z.of_nat (length ((pre ++ binary.Write64 (Start i))
                              ++ binary.Write64 (Stop i))))
      by (rewrite !length_app, !length_Write64; lia).
    rewrite (app_assoc (pre ++ binary.Write64 (Start i))).
    rewrite IH by exact Hl'. f_equal. f_equal.
    + rewrite !length_app, !length_Write64. lia.
    + cbn [Intervals_String]. now rewrite !string_app_assoc.
Qed.

Lemma bytes_between_at data pre a rest (lo hi : Z) :
  data = pre ++ a ++ rest ->
  lo = Z.of_nat (length pre) -> hi = lo + Z.of_nat (length a) ->
  bytes_between data lo hi = Ok a.
Proof. intros -> -> ->. apply bytes_between_app. Qed.

Lemma decode_sets_step u (k : nat) pre rest (n : Z) buf :
  length (mysql.SID u) = 16%nat ->
  Z.of_nat (length (Intervals u)) < 65536 ->
  Forall (fun i => 0 <= Start i < Stop i /\ Stop i <= MaxInt64) (Intervals u) ->
  decode_sets (S k) GtidFormatClassic (pre ++ UUIDSet_encode u ++ rest)
    (Z.of_nat (length pre)) n buf
  = decode_sets k GtidFormatClassic (pre ++ UUIDSet_encode u ++ rest)
      (Z.of_nat (length (pre ++ UUIDSet_encode u))) (n + 1 + 1)
      ((if negb (n =? 0)%Z then buf ++ "," else buf) ++ UUIDSet_String u)%string.
Proof.
  intros Hsid Hcnt Hl.
  set (W := binary.Write64 (Z.of_nat (length (Intervals u)))).
  assert (HW : length W = 8%nat) by apply length_Write64.
  assert (D : pre ++ UUIDSet_encode u ++ rest
              = pre ++ mysql.SID u ++ W ++ encode_intervals (Intervals u)
                ++ rest).
  { unfold UUIDSet_encode. now rewrite <- !app_assoc. }
  set (data := pre ++ UUIDSet_encode u ++ rest) in *.
  cbn [decode_sets].
  rewrite (bytes_between_at data pre (mysql.SID u)
             (W ++ encode_intervals (Intervals u) ++ rest))
    by (auto; lia).
  cbn [bind]. cbv zeta. cbn [bind Nat.ltb Nat.leb String.length].
  rewrite (bytes_between_at data (pre ++ mysql.SID u) W
             (encode_intervals (Intervals u) ++ rest))
    by (rewrite ?length_app, <- ?app_assoc; auto; lia).
  cbn [bind]. unfold W at 1.
  rewrite Uint16_Write64 by lia. cbn [bind]. rewrite Nat2Z.id.
  replace (Z.of_nat (length pre) + 16 + 8)
    with (Z.of_nat (length ((pre ++ mysql.SID u) ++ W)))
    by (rewrite !length_app; lia).
  replace data
    with (((pre ++ mysql.SID u) ++ W) ++ encode_intervals (Intervals u)
          ++ rest) at 1
    by (rewrite D, <- !app_assoc; reflexivity).
  rewrite decode_slices_encoded by exact Hl.
  cbn [bind Nat.eqb String.length]. f_equal.
  - unfold UUIDSet_encode. rewrite !length_app, length_encode_intervals.
    fold W. lia.
  - unfold UUIDSet_String. now rewrite string_app_assoc.
Qed.

Lemma Join_cons_comma (x y : string) (rest : list string) :
  gostrings.Join (x :: y :: rest) "," = gostrings.Join ((x ++ "," ++ y)%string :: rest) ",".
Proof.
  destruct rest as [|z rest]; cbn [gostrings.Join]; [reflexivity |].
  now rewrite !string_app_assoc.
Qed.

Lemma decode_sets_encoded (sets : list mysql.UUIDSet) : forall pre rest n buf,
  0 < n ->
  Forall (fun u =>
            length (mysql.SID u) = 16%nat /\
            Z.of_nat (length (Intervals u)) < 65536 /\
            Forall (fun i => 0 <= Start i < Stop i /\ Stop i <= MaxInt64)
                   (Intervals u)) sets ->
  decode_sets (length sets) GtidFormatClassic
    (pre ++ concat (map UUIDSet_encode sets) ++ rest)
    (Z.of_nat (length pre)) n buf
  = Ok (gostrings.Join (buf :: map UUIDSet_String sets) ",").
Proof.
  induction sets as [|u sets IH]; intros pre rest n buf Hn Hsets.
  - reflexivity.
  - inversion Hsets as [|? ? (Hsid & Hcnt & Hl) Hsets']; subst.
    cbn [length map concat]. rewrite <- app_assoc.
    rewrite decode_sets_step by assumption.
    rewrite (app_assoc pre).
    rewrite IH by (auto; lia).
    destruct (Z.eqb_spec n 0); [lia |]. cbn [negb].
    rewrite Join_cons_comma. now rewrite string_app_assoc.
Qed.

Lemma decodeSid_count (n : Z) rest :
  0 <= n < 2 ^ 56 ->
  decodeSid (binary.Write64 n ++ rest) = Ok (GtidFormatClassic, n).
Proof.
  intros Hn. unfold decodeSid.
  rewrite index_byte_ok by (rewrite length_app, length_Write64; lia).
  cbn [bind].
  assert (Htop : byte_Z (nth (Z.to_nat 7) (binary.Write64 n ++ rest) Byte.x00)
                 = 0).
  { unfold binary.Write64. rewrite to_uint64_id by lia.
    cbn [binary.le_bytes app]. change (Z.to_nat 7) with 7%nat. cbn [nth].
    rewrite byte_Z_Z_byte, Z.mod_mod by lia.
    rewrite !Z.div_div by lia. rewrite Z.div_small by lia. reflexivity. }
  rewrite Htop. cbn [Z.eqb].
  rewrite (bytes_between_at (binary.Write64 n ++ rest) []
             (binary.Write64 n) rest)
    by (try reflexivity; rewrite length_Write64; reflexivity).
  cbn [bind].
  rewrite Uint64_Write64_exact, to_uint64_id by lia. reflexivity.
Qed.

(** X21: [PreviousGTIDsEvent.Decode] reads the bytes that
    [MysqlGTIDSet.Encode] writes and yields the sets' text forms joined
    by commas, in the order of the encoding.  The sets have 16-byte
    SIDs, fewer than 65536 intervals each (the count is read with
    [Uint16]) with [0 <= Start < Stop], and there are fewer than 2^56
    of them (the top byte of the count tells the format). *)
Theorem PreviousGTIDsEvent_Decode_Encode (sets : list mysql.UUIDSet) :
  Z.of_nat (length sets) < 2 ^ 56 ->
  Forall (fun u =>
            length (mysql.SID u) = 16%nat /\
            Z.of_nat (length (Intervals u)) < 65536 /\
            Forall (fun i => 0 <= Start i < Stop i /\ Stop i <= MaxInt64)
                   (Intervals u)) sets ->
  PreviousGTIDsEvent_Decode (Encode_sets sets)
  = Ok (gostrings.Join (map UUIDSet_String sets) ",").
Proof.
  intros Hcount Hsets. unfold PreviousGTIDsEvent_Decode, Encode_sets.
  rewrite decodeSid_count by lia. cbn [bind]. cbv zeta. rewrite Nat2Z.id.
  set (pre := binary.Write64 (Z.of_nat (length sets))).
  assert (Hpre : 8 = Z.of_nat (length pre))
    by (unfold pre; rewrite length_Write64; lia).
  rewrite Hpre.
  rewrite <- (app_nil_r (concat (map UUIDSet_encode sets))).
  destruct sets as [|u sets]; [reflexivity |].
  inversion Hsets as [|? ? (Hsid & Hcnt & Hl) Hsets']; subst.
  cbn [length map concat]. rewrite <- app_assoc.
  rewrite decode_sets_step by assumption.
  rewrite (app_assoc pre).
  rewrite decode_sets_encoded by (auto; lia).
  reflexivity.
Qed.

End PreviousGtids.

Section PreviousGtidsExamples.

Import go replication.

Lemma PreviousGTIDsEvent_Decode_Encode_witness :
  let sets :=
    [mkUUIDSet samples.sample_sid [mkInterval 1 6; mkInterval 10 11]] in
  PreviousGTIDsEvent_Decode (Encode_sets sets)
  = Ok (gostrings.Join (map UUIDSet_String sets) ",").
Proof.
  intros sets. apply (PreviousGTIDsEvent_Decode_Encode sets).
  - simpl. lia.
  - repeat constructor; unfold MaxInt64; simpl; lia.
Defined.

End PreviousGtidsExamples.

(** ** JSON binary: variable-length numbers and strings *)

Section JsonVarLen.

Import go replication.

Implicit Types (data : list byte).

Lemma lor_shift_bound (len v pos : Z) :
  0 <= pos -> 0 <= len < 2 ^ (7 * pos) -> 0 <= v < 256 ->
  0 <= Z.lor len (Z.shiftl (Z.land v 127) (7 * pos)) < 2 ^ (7 * (pos + 1)).
Proof.
  intros Hpos Hlen Hv.
  assert (H127 : 0 <= Z.land v 127 <= 127).
  { split; [apply Z.land_nonneg; lia |].
    change 127 with (Z.ones 7). rewrite Z.land_ones by lia.
    pose proof (Z.mod_pos_bound v (2 ^ 7) ltac:(lia)).
    change (Z.ones 7) with (2 ^ 7 - 1). lia. }
  set (b := Z.shiftl (Z.land v 127) (7 * pos)).
  assert (Hb : 0 <= b <= 127 * 2 ^ (7 * pos)).
  { unfold b. rewrite Z.shiftl_mul_pow2 by lia.
    assert (0 < 2 ^ (7 * pos)) by (apply Z.pow_pos_nonneg; lia). nia. }
  pose proof (Z.add_lor_land len b) as Hadd.
  assert (0 <= Z.land len b) by (apply Z.land_nonneg; lia).
  assert (0 <= Z.lor len b) by (apply Z.lor_nonneg; lia).
  replace (7 * (pos + 1)) with (7 * pos + 7) by lia.
  rewrite Z.pow_add_r by lia. change (2 ^ 7) with 128. lia.
Qed.

Lemma decodeVariableLength_loop_bounds (turns : nat) data :
  forall (pos len l n : Z),
    0 <= pos -> 0 <= len < 2 ^ (7 * pos) ->
    decodeVariableLength_loop turns data pos len = Some (l, n) ->
    pos < n <= pos + Z.of_nat turns /\
    0 <= l <= MaxUint32 /\ l < 2 ^ (7 * n) /\
    Z.land (byte_Z (nth (Z.to_nat (n - 1)) data Byte.x00)) 128 = 0.
Proof.
  induction turns as [|turns IH]; intros pos len l n Hpos Hlen H;
    [discriminate |].
  cbn [decodeVariableLength_loop] in H. cbv zeta in H.
  set (v := byte_Z (nth (Z.to_nat pos) data Byte.x00)) in *.
  pose proof (lor_shift_bound len v pos Hpos Hlen (byte_Z_range _)) as Hb.
  destruct (Z.eqb_spec (Z.land v 128) 0) as [Hstop|Hmore].
  - destruct (Z.gtb_spec (Z.lor len (Z.shiftl (Z.land v 127) (7 * pos)))
                MaxUint32); [discriminate |].
    injection H as <- <-.
    replace (pos + 1 - 1) with pos by lia. fold v.
    repeat split; lia.
  - apply IH in H; [| lia | exact Hb]. lia.
Qed.

(** X22: when [decodeVariableLength] succeeds it has used between one
    and five bytes, none past the end of the buffer; the last byte used
    has its top bit clear, and the length is at most [MaxUint32] and
    below [2^(7n)] for [n] bytes used. *)
Theorem decodeVariableLength_bounds data (l n : Z) :
  decodeVariableLength data = Some (l, n) ->
  1 <= n <= 5 /\ n <= Z.of_nat (length data) /\
  0 <= l <= MaxUint32 /\ l < 2 ^ (7 * n) /\
  Z.land (byte_Z (nth (Z.to_nat (n - 1)) data Byte.x00)) 128 = 0.
Proof.
  unfold decodeVariableLength. cbv zeta. intros H.
  apply decodeVariableLength_loop_bounds in H; [| lia | simpl; lia].
  destruct (Nat.ltb_spec (length data) 5); lia.
Qed.

Lemma decodeVariableLength_bounds_witness :
  1 <= 2 <= 5 /\ 2 <= Z.of_nat (length [Byte.x81; Byte.x01; Byte.x41]) /\
  0 <= 129 <= MaxUint32 /\ 129 < 2 ^ (7 * 2) /\
  Z.land (byte_Z (nth (Z.to_nat (2 - 1)) [Byte.x81; Byte.x01; Byte.x41]
                    Byte.x00)) 128 = 0.
Proof.
  apply (decodeVariableLength_bounds [Byte.x81; Byte.x01; Byte.x41] 129 2).
  reflexivity.
Defined.

Example decodeVariableLength_too_large :
  decodeVariableLength [Byte.xff; Byte.xff; Byte.xff; Byte.xff; Byte.x7f]
  = None.
Proof. reflexivity. Qed.

(** X23: [decodeString] never panics.  With no error it returns the
    [l] bytes that follow the [n] bytes of the length, all inside the
    buffer; with an error, stored before or found now, it returns the
    empty string and the error stays. *)
Theorem decodeString_outcome (err : bool) data :
  exists (v : list byte) (err' : bool),
    decodeString err data = Ok (v, err') /\
    (err = true -> v = [] /\ err' = true) /\
    (err' = true -> v = []) /\
    (err' = false ->
     exists l n, decodeVariableLength data = Some (l, n) /\
                 v = firstn (Z.to_nat l) (skipn (Z.to_nat n) data) /\
                 Z.of_nat (length v) = l /\
                 n + l <= Z.of_nat (length data)).
Proof.
  unfold decodeString. destruct err.
  { exists [], true. repeat split; auto; discriminate. }
  destruct (decodeVariableLength data) as [[l n]|] eqn:E.
  2:{ exists [], true. cbn. repeat split; auto; discriminate. }
  destruct (decodeVariableLength_bounds data l n E)
    as (Hn & Hlen & Hl & _ & _).
  cbv beta iota zeta. unfold isDataShort.
  destruct (Z.ltb_spec (Z.of_nat (length data)) (l + n)) as [Hshort|Hfit].
  { exists [], true. repeat split; auto; discriminate. }
  rewrite bytes_from_ok by lia. cbn [bind].
  unfold bytes_between. rewrite length_skipn.
  destruct (Z.ltb_spec 0 0); [lia |].
  destruct (Z.ltb_spec l 0); [lia |].
  destruct (Z.gtb_spec l (Z.of_nat (length data - Z.to_nat n))); [lia |].
  cbn [orb bind]. eexists _, false. split; [reflexivity |].
  split; [discriminate |]. split; [discriminate |]. intros _.
  exists l, n. split; [reflexivity |].
  replace (Z.to_nat (l - 0)) with (Z.to_nat l) by lia.
  change (Z.to_nat 0) with 0%nat. cbn [skipn].
  split; [reflexivity |].
  split; [rewrite length_firstn, !length_skipn; lia | lia].
Qed.

End JsonVarLen.

(** ** The idle list of the pool *)

Section PoolIdle.

Import client.

Implicit Types (s : synchro) (c : Connection) (idle dst : list Connection).

(** X24: with the idle list within its capacity, [putConnectionUnsafe]
    keeps it within the capacity; below the capacity it closes nothing
    and [getIdleConnectionUnsafe] then hands back the connection just
    put and restores the state; at the capacity it closes the
    connection, counts it off and leaves the idle list as it is. *)
Theorem putConnectionUnsafe_spec s c :
  (length (idleConnections s) <= idleCap s)%nat ->
  (length (idleConnections (putConnectionUnsafe s c).1)
   <= idleCap (putConnectionUnsafe s c).1)%nat /\
  ((length (idleConnections s) < idleCap s)%nat ->
   (putConnectionUnsafe s c).2 = None /\
   getIdleConnectionUnsafe (putConnectionUnsafe s c).1 = (s, c)) /\
  (length (idleConnections s) = idleCap s ->
   (putConnectionUnsafe s c).2 = Some c /\
   idleConnections (putConnectionUnsafe s c).1 = idleConnections s /\
   TotalCount (putConnectionUnsafe s c).1 = Int.to_int64 (TotalCount s - 1)).
Proof.
  intros Hcap. destruct s as [idle cap total]. unfold putConnectionUnsafe.
  cbn [idleConnections idleCap TotalCount] in *.
  destruct (Nat.eqb_spec (length idle) cap) as [Hfull|Hroom];
    cbn [fst snd idleConnections idleCap TotalCount].
  - split; [lia |]. split; [lia |]. auto.
  - split; [rewrite length_app; simpl; lia |]. split; [| lia].
    intros _. split; [reflexivity |].
    unfold getIdleConnectionUnsafe. cbn [idleConnections idleCap TotalCount].
    rewrite length_app. cbn [length]. rewrite Nat.add_1_r.
    rewrite take_app_length. f_equal.
    rewrite app_nth2 by lia. now rewrite Nat.sub_diag.
Qed.

Lemma putConnectionUnsafe_spec_witness :
  let s := mkSynchro [mkConnection (Some 1) 10] 2 3 in
  let c := mkConnection (Some 2) 20 in
  (length (idleConnections (putConnectionUnsafe s c).1)
   <= idleCap (putConnectionUnsafe s c).1)%nat /\
  ((length (idleConnections s) < idleCap s)%nat ->
   (putConnectionUnsafe s c).2 = None /\
   getIdleConnectionUnsafe (putConnectionUnsafe s c).1 = (s, c)) /\
  (length (idleConnections s) = idleCap s ->
   (putConnectionUnsafe s c).2 = Some c /\
   idleConnections (putConnectionUnsafe s c).1 = idleConnections s /\
   TotalCount (putConnectionUnsafe s c).1 = Int.to_int64 (TotalCount s - 1)).
Proof.
  intros s c. apply (putConnectionUnsafe_spec s c). simpl. lia.
Defined.

Lemma insert_at_length {A : Type} (l : list A) (x y : A) (r : list A) :
  <[length l := y]> (l ++ x :: r) = l ++ y :: r.
Proof. induction l as [|a l IH]; simpl; [reflexivity | now rewrite IH]. Qed.

Lemma nth_at_length {A : Type} (l : list A) (x d : A) (r : list A) :
  nth (length l) (l ++ x :: r) d = x.
Proof. induction l; simpl; auto. Qed.

(** The loop of [getOldIdleConnections]: the slice is [A ++ B] with the
    connections [B] after the index already seen and kept. *)
Lemma getOldIdleConnections_loop_spec (checkBefore : Z) (turns : nat) :
  forall (A B dst : list Connection),
    length A = turns ->
    Forall (fun c => lastUseAt c > checkBefore) B ->
    exists idle' olds,
      getOldIdleConnections_loop turns (A ++ B) dst checkBefore
      = (idle', dst ++ olds) /\
      Forall (fun c => lastUseAt c <= checkBefore) olds /\
      Forall (fun c => lastUseAt c > checkBefore) idle' /\
      olds ++ idle' ≡ₚ A ++ B.
Proof.
  induction turns as [|i IH]; intros A B dst HA HB.
  - destruct A; [| discriminate]. exists B, []. cbn.
    rewrite app_nil_r. repeat split; auto.
  - destruct (exists_last (l := A)) as (A' & c & ->);
      [intros ->; discriminate |].
    rewrite length_app in HA. simpl in HA.
    assert (HA' : i = length A') by lia. clear HA. subst i.
    cbn [getOldIdleConnections_loop]. cbv zeta.
    rewrite <- (app_assoc A' [c] B). cbn [app].
    rewrite nth_at_length.
    destruct (Z.gtb_spec (lastUseAt c) checkBefore) as [Hfresh|Hold].
    + destruct (IH A' (c :: B) dst eq_refl) as (idle' & olds & E & H1 & H2 & H3).
      { constructor; [lia | exact HB]. }
      exists idle', olds. repeat split; auto.
    + assert (Hlen : (length (A' ++ c :: B) - 1 = length A' + length B)%nat)
        by (rewrite length_app; simpl; lia).
      rewrite Hlen.
      destruct B as [|b0 B0].
      * rewrite Nat.add_0_r. rewrite Nat.ltb_irrefl.
        rewrite take_app_length.
        destruct (IH A' [] (dst ++ [c]) eq_refl) as (idle' & olds & E & H1 & H2 & H3);
          [constructor |].
        rewrite app_nil_r in E. exists idle', (c :: olds).
        rewrite E, <- app_assoc. split; [reflexivity |].
        split; [constructor; [lia | exact H1] |]. split; [exact H2 |].
        cbn [app]. rewrite H3, app_nil_r.
        apply Permutation_cons_append.
      * destruct (exists_last (l := b0 :: B0)) as (B1 & bl & EB);
          [discriminate |].
        rewrite EB in *.
        assert (HlenB : length (B1 ++ [bl]) = S (length B1))
          by (rewrite length_app; simpl; lia).
        rewrite HlenB.
        destruct (Nat.ltb_spec (length A') (length A' + S (length B1)))
          as [_|]; [| lia].
        replace (A' ++ c :: B1 ++ [bl]) with ((A' ++ c :: B1) ++ bl :: [])
          by (rewrite <- app_assoc; reflexivity).
        replace (length A' + S (length B1))%nat with (length (A' ++ c :: B1))
          by (rewrite length_app; simpl; lia).
        rewrite nth_at_length.
        rewrite <- (app_assoc A' (c :: B1) [bl]). cbn [app].
        rewrite insert_at_length.
        replace (A' ++ bl :: B1 ++ [bl]) with ((A' ++ bl :: B1) ++ bl :: [])
          by (rewrite <- app_assoc; reflexivity).
        replace (length (A' ++ c :: B1)) with (length (A' ++ bl :: B1))
          by (rewrite !length_app; reflexivity).
        rewrite insert_at_length, take_app_length.
        apply Forall_app in HB. destruct HB as [HB1 Hbl].
        destruct (IH A' (bl :: B1) (dst ++ [c]) eq_refl)
          as (idle' & olds & E & H1 & H2 & H3).
        { constructor; [now inversion Hbl | exact HB1]. }
        exists idle', (c :: olds).
        rewrite E, <- app_assoc. split; [reflexivity |].
        split; [constructor; [lia | exact H1] |]. split; [exact H2 |].
        cbn [app]. rewrite H3.
        etransitivity; [| apply Permutation_middle].
        constructor. apply Permutation_app_head.
        apply Permutation_cons_append.
Qed.

(** X25: [getOldIdleConnections] splits the idle list: what it returns
    are the connections last used at or before [checkBefore], what it
    leaves idle are those used after it, and together they are the
    connections that were idle, each once.  The capacity and the
    counter stay as they are. *)
Theorem getOldIdleConnections_partition s (checkBefore : Z) :
  Forall (fun c => lastUseAt c <= checkBefore)
         (getOldIdleConnections s checkBefore).2 /\
  Forall (fun c => lastUseAt c > checkBefore)
         (idleConnections (getOldIdleConnections s checkBefore).1) /\
  (getOldIdleConnections s checkBefore).2
    ++ idleConnections (getOldIdleConnections s checkBefore).1
    ≡ₚ idleConnections s /\
  idleCap (getOldIdleConnections s checkBefore).1 = idleCap s /\
  TotalCount (getOldIdleConnections s checkBefore).1 = TotalCount s.
Proof.
  unfold getOldIdleConnections.
  destruct (getOldIdleConnections_loop_spec checkBefore
              (length (idleConnections s)) (idleConnections s) [] [])
    as (idle' & olds & E & H1 & H2 & H3); [reflexivity | constructor |].
  rewrite app_nil_r in E, H3. rewrite E. cbn. repeat split; auto.
Qed.

Example getOldIdleConnections_example :
  getOldIdleConnections
    (mkSynchro [mkConnection (Some 1) 5; mkConnection (Some 2) 50;
                mkConnection (Some 3) 7; mkConnection (Some 4) 60] 8 4) 10
  = (mkSynchro [mkConnection (Some 4) 60; mkConnection (Some 2) 50] 8 4,
     [mkConnection (Some 3) 7; mkConnection (Some 1) 5]).
Proof. reflexivity. Qed.

Lemma fold_closeConn (l : list Connection) : forall s,
  MinInt64 <= TotalCount s - Z.of_nat (length l) ->
  TotalCount s <= MaxInt64 ->
  fold_left (fun s _ => closeConn s) l s
  = {| idleConnections := idleConnections s; idleCap := idleCap s;
       TotalCount := TotalCount s - Z.of_nat (length l) |}.
Proof.
  induction l as [|c l IH]; intros s Hlo Hhi.
  - cbn. destruct s. cbn. f_equal. lia.
  - cbn [fold_left length] in *. rewrite Nat2Z.inj_succ in *.
    assert (E : TotalCount (closeConn s) = TotalCount s - 1).
    { unfold closeConn. cbn. apply to_int64_id.
      unfold is_int64, MinInt64, MaxInt64 in *. lia. }
    rewrite IH by (rewrite E; lia). rewrite E. unfold closeConn. cbn.
    f_equal. lia.
Qed.

(** X26: with counters that are counts (between 0 and the largest
    [int]), [closeIdleConnectionsIfCan] takes the connections it closes
    off the end of the idle list, at most a tenth of the list and at
    least one if it may, counts each of them off, and leaves more than
    [minAlive] connections in total; whenever it closes something,
    [spawnConnectionsIfNeeded] has nothing to spawn. *)
Theorem closeIdleConnectionsIfCan_spec (pool : Pool) s :
  0 <= minAlive pool <= MaxInt64 -> 0 <= TotalCount s <= MaxInt64 ->
  idleConnections s
  = idleConnections (closeIdleConnectionsIfCan pool s).1
    ++ (closeIdleConnectionsIfCan pool s).2 /\
  Z.of_nat (length (closeIdleConnectionsIfCan pool s).2)
  <= Z.max 1 (Z.of_nat (length (idleConnections s)) / 10) /\
  TotalCount (closeIdleConnectionsIfCan pool s).1
  = TotalCount s - Z.of_nat (length (closeIdleConnectionsIfCan pool s).2) /\
  ((closeIdleConnectionsIfCan pool s).2 <> [] ->
   minAlive pool < TotalCount (closeIdleConnectionsIfCan pool s).1 /\
   spawnConnectionsIfNeeded pool s = None).
Proof.
  intros Hmin Htotal. unfold closeIdleConnectionsIfCan. cbv zeta.
  set (len := Z.of_nat (length (idleConnections s))).
  assert (Hlen : 0 <= len) by (unfold len; lia).
  rewrite (to_int64_id (TotalCount s - minAlive pool))
    by (unfold is_int64, MinInt64, MaxInt64 in *; lia).
  rewrite (to_int64_id (TotalCount s - minAlive pool - 1))
    by (unfold is_int64, MinInt64, MaxInt64 in *; lia).
  rewrite Z.quot_div_nonneg by lia.
  assert (Hdiv : 0 <= len / 10) by (apply Z.div_pos; lia).
  set (tenth := if len / 10 =? 0 then 1 else len / 10).
  assert (Htenth : tenth = Z.max 1 (len / 10)).
  { unfold tenth. destruct (Z.eqb_spec (len / 10) 0); lia. }
  set (can := if TotalCount s - minAlive pool - 1 >? tenth then tenth
              else TotalCount s - minAlive pool - 1).
  assert (Hcan : can <= tenth /\ can <= TotalCount s - minAlive pool - 1).
  { unfold can. destruct (Z.gtb_spec (TotalCount s - minAlive pool - 1) tenth);
      lia. }
  destruct (Z.leb_spec can 0) as [Hnone|Hsome].
  - cbn [fst snd length]. rewrite app_nil_r.
    split; [reflexivity |]. split; [lia |]. split; [lia |].
    intros H. congruence.
  - set (from := if len - can <? 0 then 0 else len - can).
    assert (Hfrom : 0 <= from <= len /\ len - from <= can).
    { unfold from. destruct (Z.ltb_spec (len - can) 0); lia. }
    cbn [fst snd].
    assert (Hcount : Z.of_nat (length (skipn (Z.to_nat from) (idleConnections s)))
                     = len - from).
    { rewrite length_skipn. unfold len in *. lia. }
    rewrite fold_closeConn
      by (cbn [TotalCount idleConnections idleCap]; rewrite ?length_skipn;
          unfold MinInt64, MaxInt64, len in *; lia).
    cbn [idleConnections TotalCount]. rewrite Hcount.
    split; [now rewrite take_drop |]. split; [lia |]. split; [reflexivity |].
    intros _. split; [lia |].
    unfold spawnConnectionsIfNeeded.
    rewrite to_int64_id by (unfold is_int64, MinInt64, MaxInt64 in *; lia).
    destruct (Z.leb_spec (minAlive pool - TotalCount s) 0); [reflexivity | lia].
Qed.

Lemma closeIdleConnectionsIfCan_spec_witness :
  let pool := mkPool 1 10 5 in
  let s := mkSynchro [mkConnection (Some 1) 5; mkConnection (Some 2) 6;
                      mkConnection (Some 3) 7] 5 4 in
  idleConnections s
  = idleConnections (closeIdleConnectionsIfCan pool s).1
    ++ (closeIdleConnectionsIfCan pool s).2 /\
  Z.of_nat (length (closeIdleConnectionsIfCan pool s).2)
  <= Z.max 1 (Z.of_nat (length (idleConnections s)) / 10) /\
  TotalCount (closeIdleConnectionsIfCan pool s).1
  = TotalCount s - Z.of_nat (length (closeIdleConnectionsIfCan pool s).2) /\
  ((closeIdleConnectionsIfCan pool s).2 <> [] ->
   minAlive pool < TotalCount (closeIdleConnectionsIfCan pool s).1 /\
   spawnConnectionsIfNeeded pool s = None).
Proof.
  intros pool s. apply (closeIdleConnectionsIfCan_spec pool s);
    unfold MaxInt64; simpl; lia.
Defined.

Example closeIdleConnectionsIfCan_closes_one :
  closeIdleConnectionsIfCan (mkPool 1 10 5)
    (mkSynchro [mkConnection (Some 1) 5; mkConnection (Some 2) 6;
                mkConnection (Some 3) 7] 5 4)
  = (mkSynchro [mkConnection (Some 1) 5; mkConnection (Some 2) 6] 5 3,
     [mkConnection (Some 3) 7]).
Proof. reflexivity. Qed.

End PoolIdle.

(** ** MinusInterval at a first interval that stops at 0 *)

Section MinusEdge.

(** C1: [MinusInterval] is not the set-difference when the first
    interval of the minuend stops at 0.  The slices [a = [-5, 0)] and
    [b = []] are normalized slices of valid [int64] intervals, and the
    point -5 is in [a] and not in [b]; yet [MinusInterval] returns
    [[0, 0)], which does not cover it.  The zero value of [minuend]
    has the [Stop] of that first interval, so the test
    [minuend.Stop != s.Intervals[i].Stop] never loads the interval. *)
Theorem MinusInterval_misses_set_difference :
  let a := [mkInterval (-5) 0] in
  let b : IntervalSlice := [] in
  normalized a /\ valid a /\ int64_slice a /\
  normalized b /\ valid b /\
  MinusInterval a b = Returns [mkInterval 0 0] /\
  covers a (-5) = true /\ covers b (-5) = false /\
  covers [mkInterval 0 0] (-5) = false.
Proof.
  cbv zeta.
  assert (Hn : forall s : IntervalSlice,
            start_sorted s -> separated s -> normalized s).
  { intros s H1 H2. split; [exact H1 |]. split; [exact H2 |].
    now apply normalized_pairwise_disjoint. }
  split; [apply Hn; simpl; trivial |].
  split; [repeat constructor |].
  split; [repeat constructor; unfold MinInt64, MaxInt64; simpl; lia |].
  split; [apply Hn; simpl; trivial |].
  split; [constructor |].
  repeat split; reflexivity.
Qed.

End MinusEdge.

(** ** Every text that parseInterval accepts *)

Section IntervalTextAll.

Import gostrings strconv.

Lemma Split_nonempty (s : string) (sep : ascii) : Split s sep <> [].
Proof.
  destruct s as [|c s]; simpl; [discriminate |].
  destruct (Ascii.eqb c sep); [discriminate |].
  destruct (Split s sep); discriminate.
Qed.

(** The parts that [strings.Split] returns hold no separator, and
    joined by the separator they give the string back. *)
Lemma Split_parts (sep : ascii) : forall s : string,
  Forall (fun x => has_byte sep x = false) (Split s sep) /\
  Join (Split s sep) (String sep EmptyString) = s.
Proof.
  induction s as [|c s [IHF IHJ]]; [split; [repeat constructor | reflexivity] |].
  cbn [Split]. destruct (Ascii.eqb c sep) eqn:Ec.
  - apply Ascii.eqb_eq in Ec. subst c. split; [constructor; auto |].
    pose proof (Split_nonempty s sep) as Hne.
    destruct (Split s sep) as [|h t]; [congruence |].
    change (Join (EmptyString :: h :: t) (String sep EmptyString))
      with (String sep (Join (h :: t) (String sep EmptyString))).
    now rewrite IHJ.
  - pose proof (Split_nonempty s sep) as Hne.
    destruct (Split s sep) as [|h t]; [congruence |].
    apply List.Forall_cons_iff in IHF. destruct IHF as [Hh Ht]. split.
    + constructor; [| exact Ht]. cbn [has_byte]. now rewrite Ec, Hh.
    + destruct t as [|x t]; [cbn [Join] in *; now subst s |].
      change (Join (String c h :: x :: t) (String sep EmptyString))
        with (String c (Join (h :: x :: t) (String sep EmptyString))).
      now rewrite IHJ.
Qed.

Lemma Split_one (s p : string) (sep : ascii) :
  Split s sep = [p] -> s = p /\ has_byte sep s = false.
Proof.
  intros E. destruct (Split_parts sep s) as [HF HJ]. rewrite E in HF, HJ.
  cbn [Join] in HJ. subst p. split; [reflexivity | now inversion HF].
Qed.

Lemma Split_two (s p q : string) (sep : ascii) :
  Split s sep = [p; q] ->
  s = (p ++ String sep q)%string /\
  has_byte sep p = false /\ has_byte sep q = false.
Proof.
  intros E. destruct (Split_parts sep s) as [HF HJ]. rewrite E in HF, HJ.
  cbn [Join] in HJ. inversion HF as [|? ? Hp HF']; subst.
  inversion HF' as [|? ? Hq _]; subst. repeat split; auto.
Qed.

Lemma ParseUint_loop_nonneg : forall (s : string) (n r : Z),
  0 <= n -> ParseUint_loop s n = inr r -> 0 <= r.
Proof.
  induction s as [|c s IH]; intros n r Hn H; cbn [ParseUint_loop] in H.
  - injection H as <-. exact Hn.
  - destruct (is_digit c) eqn:Ed; [| discriminate].
    destruct (_ >=? _); [discriminate |].
    destruct (_ >? _); [discriminate |].
    apply IH in H; [exact H |].
    unfold is_digit in Ed. apply andb_true_iff in Ed. lia.
Qed.

(** A text without a minus sign that [ParseInt] reads is read as a
    number between 0 and the largest [int64]. *)
Lemma ParseInt_unsigned_range (s : string) (n : Z) :
  has_byte "-" s = false -> ParseInt s = (n, None) -> 0 <= n <= MaxInt64.
Proof.
  intros Hs H. destruct s as [|c s]; [discriminate |].
  cbn [has_byte] in Hs. apply orb_false_iff in Hs. destruct Hs as [Hc Hs].
  unfold ParseInt in H. rewrite Hc in H. rewrite orb_false_r in H.
  cbn [negb andb] in H.
  set (digits := if Ascii.eqb c "+" then s else String c s) in *.
  unfold ParseUint in H.
  destruct digits as [|d ds] eqn:Ed; [discriminate |].
  destruct (ParseUint_loop (String d ds) 0) as [[|]|un] eqn:El.
  - discriminate.
  - cbv beta iota in H. unfold MaxUint64 in H.
    destruct (Z.geb_spec 18446744073709551615 (2 ^ 63)); [discriminate | lia].
  - cbv beta iota in H.
    apply ParseUint_loop_nonneg in El; [| lia].
    destruct (Z.geb_spec un (2 ^ 63)); [discriminate |].
    injection H as <-.
    rewrite to_int64_id by (unfold is_int64, MinInt64, MaxInt64; lia).
    unfold MaxInt64. lia.
Qed.

(** C3 (as amended): an interval of [int64] numbers with
    [0 <= Start < Stop] is read back from its text.  [parseInterval]
    maps the decimal text of [n] to [n, n+1) and the texts of [n] and
    [m >= n] joined by a minus sign to [n, m+1), for non-negative
    numbers below the largest [int64]; and it fails on any other input:
    a text it accepts has no minus sign and is read by [ParseInt] as
    such an [n], or it is two such texts, of [n] and of [m >= n], with
    one minus sign between them. *)
Theorem parseInterval_String_roundtrip :
  (forall i : Interval,
     0 <= Start i -> Start i < Stop i -> Stop i <= MaxInt64 ->
     parseInterval (Interval_String i) = Some i) /\
  (forall n : Z,
     0 <= n < MaxInt64 ->
     parseInterval (FormatInt n) = Some (mkInterval n (n + 1))) /\
  (forall n m : Z,
     0 <= n <= m -> m < MaxInt64 ->
     parseInterval (FormatInt n ++ String "-" (FormatInt m))
     = Some (mkInterval n (m + 1))) /\
  (forall (str : string) (i : Interval),
     parseInterval str = Some i <->
     (has_byte "-" str = false /\
      exists n : Z,
        ParseInt str = (n, None) /\ 0 <= n < MaxInt64 /\
        i = mkInterval n (n + 1)) \/
     (exists (p q : string) (n m : Z),
        str = (p ++ String "-" q)%string /\
        has_byte "-" p = false /\ has_byte "-" q = false /\
        ParseInt p = (n, None) /\ ParseInt q = (m, None) /\
        0 <= n <= m /\ m < MaxInt64 /\ i = mkInterval n (m + 1))).
Proof.
  split; [exact parseInterval_Interval_String |].
  split; [intros n Hn; apply parseInterval_single_number; lia |].
  split; [intros n m Hn Hm; apply parseInterval_number_range; lia |].
  assert (Hnext : forall z, 0 <= z <= MaxInt64 ->
            (to_int64 (z + 1) = z + 1 /\ z < MaxInt64) \/
            (to_int64 (z + 1) = MinInt64 /\ z = MaxInt64)).
  { intros z Hz. destruct (Z.eq_dec z MaxInt64) as [->|Hne].
    - right. split; reflexivity.
    - left. split; [| lia]. apply to_int64_id.
      unfold is_int64, MinInt64, MaxInt64 in *. lia. }
  intros str i. split.
  - unfold parseInterval. intros H.
    destruct (Split str "-") as [|p [|q [|r rest]]] eqn:E; try discriminate.
    + apply Split_one in E. destruct E as [<- Hno]. left.
      split; [exact Hno |].
      destruct (ParseInt str) as [n [e|]] eqn:EP; [discriminate |].
      pose proof (ParseInt_unsigned_range str n Hno EP) as Hn.
      exists n. split; [reflexivity |].
      destruct (Z.leb_spec (to_int64 (n + 1)) n) as [|Hgt]; [discriminate |].
      injection H as <-.
      destruct (Hnext n Hn) as [[-> Hlt]|[Ew ->]].
      * split; [lia | reflexivity].
      * rewrite Ew in Hgt. unfold MinInt64, MaxInt64 in Hgt. lia.
    + apply Split_two in E. destruct E as (-> & Hp & Hq). right.
      destruct (ParseInt p) as [n [e|]] eqn:EP; [discriminate |].
      destruct (ParseInt q) as [m [e|]] eqn:EQ; [discriminate |].
      pose proof (ParseInt_unsigned_range p n Hp EP) as Hn.
      pose proof (ParseInt_unsigned_range q m Hq EQ) as Hm.
      exists p, q, n, m.
      destruct (Z.leb_spec (to_int64 (m + 1)) n) as [|Hgt]; [discriminate |].
      injection H as <-.
      destruct (Hnext m Hm) as [[Ew Hlt]|[Ew ->]]; rewrite Ew in *.
      * repeat split; auto; lia.
      * unfold MinInt64, MaxInt64 in *. lia.
  - intros [(Hno & n & EP & Hn & ->)|(p & q & n & m & -> & Hp & Hq & EP & EQ
                                      & Hnm & Hm & ->)];
      unfold parseInterval.
    + rewrite Split_no_sep by exact Hno. rewrite EP.
      rewrite (to_int64_id (n + 1))
        by (unfold is_int64, MinInt64, MaxInt64 in *; lia).
      destruct (Z.leb_spec (n + 1) n); [lia | reflexivity].
    + rewrite Split_app_sep by exact Hp.
      rewrite Split_no_sep by exact Hq. rewrite EP, EQ.
      rewrite (to_int64_id (m + 1))
        by (unfold is_int64, MinInt64, MaxInt64 in *; lia).
      destruct (Z.leb_spec (m + 1) n); [lia | reflexivity].
Qed.

Lemma parseInterval_String_roundtrip_witness :
  parseInterval (Interval_String (mkInterval 1 6)) = Some (mkInterval 1 6).
Proof.
  apply (proj1 parseInterval_String_roundtrip);
    unfold MaxInt64; simpl; lia.
Defined.

Example parseInterval_rejects_other_texts :
  parseInterval "" = None /\ parseInterval "1-2-3" = None /\
  parseInterval "a" = None /\ parseInterval "1-" = None /\
  parseInterval "-1" = None /\ parseInterval "5-1" = None.
Proof. repeat split; reflexivity. Qed.

End IntervalTextAll.
